(** * TechVision site script (script.js): model and verification

    The page script wires a handful of independent widgets to browser
    events.  This development embeds the widgets that carry state:

    - the mobile menu (script.js 4-28),
    - the animated statistics counters ([animateCounters], script.js 33-67),
    - the FAQ accordion (script.js 72-89),
    - the portfolio filter (script.js 94-120),
    - the header shadow on scroll (script.js 180-194),
    - the scroll-reveal animation ([observeElements], script.js 199-228),
    - the pagination buttons (script.js 233-248),
    - the newsletter form (script.js 253-277),
    - the tooltips ([addTooltips], script.js 338-374),
    - lazy media loading ([lazyLoadElements], script.js 379-397),
    - the dark-mode toggle ([initDarkMode], script.js 402-420).

    JavaScript numbers are IEEE 754 binary64 values; they are modelled by
    the bit-exact specification [spec_float] of the standard library
    (precision 53, maximal exponent 1024), so that every arithmetic step
    of the counter animation rounds as it does in a browser.  The DOM is a
    list of nodes in document order; an element is its index. *)

From Stdlib Require Import ZArith Floats.SpecFloat String Ascii.
From stdpp Require Import base option list gmap strings sorting.

Open Scope Z_scope.

(* ===================================================================== *)
(** * JavaScript numbers *)
(* ===================================================================== *)

Module Number.

(** binary64 *)
Definition prec : Z := 53.
Definition emax : Z := 1024.

Abbreviation number := spec_float.

Definition NaN : number := S754_nan.
Definition pos_zero : number := S754_zero false.

(** The Number value of a mathematical integer (round to nearest, ties
    to even; integer literals such as [2000] and [16] are exact). *)
Definition of_Z (z : Z) : number := binary_normalize prec emax z 0 false.

Definition add : number -> number -> number := SFadd prec emax.
Definition div : number -> number -> number := SFdiv prec emax.
(** [x < y]; false as soon as one side is NaN. *)
Definition ltb : number -> number -> bool := SFltb.
Definition leb : number -> number -> bool := SFleb.

(** A finite number with no fractional part (this includes both zeros). *)
Definition is_integer (x : number) : bool :=
  match x with
  | S754_zero _ => true
  | S754_finite _ m e =>
      if 0 <=? e then true else Z.pos m mod 2 ^ (- e) =? 0
  | _ => false
  end.

(** [Math.floor]: NaN, the infinities and the zeros are returned as
    they are; so is a finite number whose exponent is not negative (it is
    an integer).  Otherwise the mantissa is shifted down, rounding the
    signed value towards minus infinity. *)
Definition floor (x : number) : number :=
  match x with
  | S754_finite s m e =>
      if 0 <=? e then x
      else
        let z := cond_Zopp s (Z.pos m) / 2 ^ (- e) in
        if z =? 0 then S754_zero s else of_Z z
  | _ => x
  end.

(** ** Exact values (used to state and prove facts about numbers) *)

(** The value of a finite number in units of [2^-1074], the smallest
    positive binary64 number: an integer. *)
Definition scaled (x : number) : Z :=
  match x with
  | S754_finite s m e => cond_Zopp s (Z.pos m * 2 ^ (e + 1074))
  | _ => 0
  end.

Definition is_finite (x : number) : bool :=
  match x with
  | S754_zero _ | S754_finite _ _ _ => true
  | _ => false
  end.

(** A number in canonical form, as every operation returns it. *)
Definition valid (x : number) : Prop := valid_binary prec emax x = true.

(** The number 125, the value of [duration / 16]. *)
Definition n125 : number := S754_finite false 8796093022208000 (-46).

(** The value of a variable that starts at [0] after [k] additions of
    [inc]. *)
Fixpoint accumulate (inc : number) (k : nat) : number :=
  match k with
  | O => of_Z 0
  | S k => add (accumulate inc k) inc
  end.

End Number.

(* ===================================================================== *)
(** * Strings to numbers: [parseInt] *)
(* ===================================================================== *)

Module ParseInt.
Import Number.

(** White space stripped by [parseInt].  Strings are sequences of bytes
    here, so these are the white space and line terminator code points
    below 128: TAB, LF, VT, FF, CR and SPACE. *)
Definition is_white_space (c : ascii) : bool :=
  let n := Z.of_nat (nat_of_ascii c) in
  ((9 <=? n) && (n <=? 13)) || (n =? 32).

Fixpoint trim_start (s : string) : string :=
  match s with
  | String c r => if is_white_space c then trim_start r else s
  | EmptyString => s
  end.

(** Value of a character as a digit: [0-9], then [a-z] or [A-Z] for
    10 to 35. *)
Definition digit_value (c : ascii) : option Z :=
  let n := Z.of_nat (nat_of_ascii c) in
  if (48 <=? n) && (n <=? 57) then Some (n - 48)
  else if (97 <=? n) && (n <=? 122) then Some (n - 87)
  else if (65 <=? n) && (n <=? 90) then Some (n - 55)
  else None.

(** The longest prefix of radix-[R] digits, as a mathematical integer;
    [acc] is [None] until a first digit has been read. *)
Fixpoint parse_digits (R : Z) (s : string) (acc : option Z) : option Z :=
  match s with
  | String c r =>
      match digit_value c with
      | Some d =>
          if d <? R then parse_digits R r (Some (default 0 acc * R + d))
          else acc
      | None => acc
      end
  | EmptyString => acc
  end.

(** [parseInt(x)] with no radix argument.  The argument is what
    [getAttribute] returned: a string, or [null] for a missing
    attribute, which [ToString] turns into the text [null]. *)
Definition parseInt (x : option string) : number :=
  let inputString := default "null"%string x in
  let str := trim_start inputString in
  let '(sign, str) :=
    match str with
    | String "-"%char r => (true, r)
    | String "+"%char r => (false, r)
    | _ => (false, str)
    end in
  let '(R, str) :=
    match str with
    | String "0"%char (String "x"%char r) => (16, r)
    | String "0"%char (String "X"%char r) => (16, r)
    | _ => (10, str)
    end in
  match parse_digits R str None with
  | None => NaN
  | Some 0 => S754_zero sign
  | Some mathInt => of_Z (cond_Zopp sign mathInt)
  end.

End ParseInt.


(* ===================================================================== *)
(** * The document *)
(* ===================================================================== *)

Module Dom.
Import Number.

(** An element is its position in document order. *)
Abbreviation elem := nat.

(** What an element shows: the text of the markup, or a number that the
    script assigned to [textContent] (the DOM stores its string form). *)
Inductive text :=
| Markup (s : string)
| Shown (n : number).

Record node := Node {
  parentElement : option elem;
  classList : list string;
  attributes : gmap string string;
  style : gmap string string;
  textContent : text;
  src : option string
}.

Abbreviation document := (list node).

(** ** Token lists ([classList]) *)

Definition token_contains (c : string) (l : list string) : bool :=
  bool_decide (c ∈ l).
Definition token_add (c : string) (l : list string) : list string :=
  if token_contains c l then l else l ++ [c].
Definition token_remove (c : string) (l : list string) : list string :=
  filter (λ x, x ≠ c) l.
Definition token_toggle (c : string) (l : list string) : list string :=
  if token_contains c l then token_remove c l else l ++ [c].

(** ** Reading *)

Definition getAttribute (e : elem) (a : string) (d : document)
  : option string :=
  d !! e ≫= λ n, attributes n !! a.

Definition classList_contains (e : elem) (c : string) (d : document) : bool :=
  match d !! e with
  | Some n => token_contains c (classList n)
  | None => false
  end.

Definition parent_of (e : elem) (d : document) : option elem :=
  d !! e ≫= parentElement.

Definition text_of (e : elem) (d : document) : option text :=
  textContent <$> d !! e.

Definition src_of (e : elem) (d : document) : option string :=
  d !! e ≫= src.

Definition style_of (e : elem) (p : string) (d : document) : option string :=
  d !! e ≫= λ n, style n !! p.

(** ** Selectors *)

Definition has_class (c : string) (n : node) : bool :=
  token_contains c (classList n).
Definition has_attribute (a : string) (n : node) : bool :=
  bool_decide (is_Some (attributes n !! a)).

Fixpoint select_from (i : elem) (sel : node -> bool) (d : list node)
  : list elem :=
  match d with
  | [] => []
  | n :: r =>
      if sel n then i :: select_from (S i) sel r else select_from (S i) sel r
  end.

(** [document.querySelectorAll]: the matching elements, in document
    order. *)
Definition querySelectorAll (sel : node -> bool) (d : document) : list elem :=
  select_from 0%nat sel d.

Definition getElementById (i : string) (d : document) : option elem :=
  head (querySelectorAll
          (λ n, bool_decide (attributes n !! "id"%string = Some i)) d).

(** ** Writing *)

Definition with_classList (f : list string -> list string) (n : node) : node :=
  Node (parentElement n) (f (classList n)) (attributes n) (style n)
       (textContent n) (src n).
Definition with_attributes (f : gmap string string -> gmap string string)
  (n : node) : node :=
  Node (parentElement n) (classList n) (f (attributes n)) (style n)
       (textContent n) (src n).
Definition with_style (f : gmap string string -> gmap string string)
  (n : node) : node :=
  Node (parentElement n) (classList n) (attributes n) (f (style n))
       (textContent n) (src n).
Definition with_textContent (t : text) (n : node) : node :=
  Node (parentElement n) (classList n) (attributes n) (style n) t (src n).
Definition with_src (s : string) (n : node) : node :=
  Node (parentElement n) (classList n) (attributes n) (style n)
       (textContent n) (Some s).

Definition classList_add (e : elem) (c : string) (d : document) : document :=
  alter (with_classList (token_add c)) e d.
Definition classList_remove (e : elem) (c : string) (d : document) : document :=
  alter (with_classList (token_remove c)) e d.
Definition removeAttribute (e : elem) (a : string) (d : document) : document :=
  alter (with_attributes (delete a)) e d.
Definition set_style (e : elem) (p v : string) (d : document) : document :=
  alter (with_style (insert p v)) e d.
Definition set_textContent (e : elem) (t : text) (d : document) : document :=
  alter (with_textContent t) e d.
Definition set_src (e : elem) (s : string) (d : document) : document :=
  alter (with_src s) e d.

(** [Array.prototype.forEach] and [NodeList.prototype.forEach]: the
    callback receives the item and its index, and acts on the state. *)
Fixpoint forEach_from {A St : Type} (i : nat) (f : A -> nat -> St -> St)
  (l : list A) (st : St) : St :=
  match l with
  | [] => st
  | x :: r => forEach_from (S i) f r (f x i st)
  end.

Definition forEach {A St : Type} (f : A -> nat -> St -> St) (l : list A)
  (st : St) : St :=
  forEach_from 0%nat f l st.

End Dom.

(* ===================================================================== *)
(** * Intersection observers *)
(* ===================================================================== *)

(** The browser interface the three viewport-driven widgets are built on.
    An observer keeps the list of elements it observes; the browser calls
    the observer's callback with a batch of entries, one entry for each
    observed element whose intersection state changed. *)
Module Observer.
Import Number Dom.

(** The options object passed to the constructor; a field that the
    script does not give is [None], and the browser then uses its
    default (threshold 0, root margin [0px]). *)
Record IntersectionObserverInit := Init {
  threshold : option number;
  rootMargin : option string
}.

Record IntersectionObserverEntry := Entry {
  entry_target : elem;
  isIntersecting : bool
}.

Record IntersectionObserver := Obs {
  options : IntersectionObserverInit;
  targets : list elem
}.

Definition new_observer (o : IntersectionObserverInit) : IntersectionObserver :=
  Obs o [].

(** [observe] does nothing for an element that is already observed. *)
Definition observe (e : elem) (o : IntersectionObserver) : IntersectionObserver :=
  if bool_decide (e ∈ targets o) then o else Obs (options o) (targets o ++ [e]).

Definition unobserve (e : elem) (o : IntersectionObserver) : IntersectionObserver :=
  Obs (options o) (filter (λ x, x ≠ e) (targets o)).

(** What the browser guarantees about a batch it delivers to the
    callback of observer [o]: every entry is about an element that [o]
    observes, and no element is reported twice. *)
Definition batch_of (o : IntersectionObserver)
  (entries : list IntersectionObserverEntry) : Prop :=
  NoDup (entry_target <$> entries) ∧
  ∀ x, x ∈ entries → entry_target x ∈ targets o.

(** ** Root margins

    A root margin is written like a CSS margin: one to four lengths
    separated by spaces, here in pixels. *)

Fixpoint split_spaces (s : string) (cur : string) : list string :=
  match s with
  | EmptyString => if bool_decide (cur = ""%string) then [] else [cur]
  | String c r =>
      if bool_decide (c = " "%char)
      then (if bool_decide (cur = ""%string) then split_spaces r ""%string
            else cur :: split_spaces r ""%string)
      else split_spaces r (cur +:+ String c EmptyString)
  end.

Fixpoint parse_px_digits (s : string) (acc : option Z) : option Z :=
  match s with
  | String c r =>
      match ParseInt.digit_value c with
      | Some d =>
          if d <? 10 then parse_px_digits r (Some (default 0 acc * 10 + d))
          else if bool_decide (s = "px"%string) then acc else None
      | None => None
      end
  | EmptyString => None
  end.

(** A length in pixels, such as [-50px]. *)
Definition parse_px (s : string) : option Z :=
  match s with
  | String "-"%char r => Z.opp <$> parse_px_digits r None
  | _ => parse_px_digits s None
  end.

(** The bottom component of a margin shorthand. *)
Definition margin_bottom (s : string) : option Z :=
  match split_spaces s ""%string with
  | [a] => parse_px a
  | [a; _] => parse_px a
  | [_; _; b] => parse_px b
  | [_; _; b; _] => parse_px b
  | _ => None
  end.

Definition lit_0_1 : number := div (of_Z 1) (of_Z 10).
Definition lit_0_5 : number := div (of_Z 1) (of_Z 2).

(** The configuration that triggers early: an explicit threshold
    between 0.1 and 0.5 together with a negative bottom root margin. *)
Definition triggers_early (o : IntersectionObserverInit) : bool :=
  match threshold o, rootMargin o with
  | Some t, Some m =>
      leb lit_0_1 t && leb t lit_0_5 &&
      match margin_bottom m with
      | Some b => b <? 0
      | None => false
      end
  | _, _ => false
  end.

End Observer.

(* ===================================================================== *)
(** * Animated counters (script.js 33-67) *)
(* ===================================================================== *)

Module Counters.
Import Number Dom Observer.

(** The variables captured by the closures created for one counter in
    the body of [counters.forEach]. *)
Record closure := Closure {
  counter : elem;
  target : number;
  increment : number;
  current : number;
  observer : IntersectionObserver
}.

(** [frameCallbacks] is the browser's list of callbacks passed to
    [requestAnimationFrame] and not yet run: every one of them is the
    [updateCounter] of some closure, given by its index.  [activated]
    is a history variable (the script has no such variable): the
    counters whose animation the observer callback has started. *)
Record state := State {
  doc : document;
  closures : list closure;
  frameCallbacks : list nat;
  activated : list elem
}.

Definition duration : number := of_Z 2000.

(** The body of [counters.forEach]: the closure built for one counter,
    up to [observer.observe(counter)]. *)
Definition new_closure (d : document) (counter : elem) : closure :=
  let target := ParseInt.parseInt (getAttribute counter "data-target" d) in
  let increment := div target (div duration (of_Z 16)) in
  Closure counter target increment (of_Z 0)
    (observe counter (new_observer (Init (Some lit_0_5) None))).

Definition animateCounters (d : document) : state :=
  let counters := querySelectorAll (has_class "stat-number") d in
  State d (new_closure d <$> counters) [] [].

Definition set_current (v : number) (c : closure) : closure :=
  Closure (counter c) (target c) (increment c) v (observer c).
Definition set_observer (o : IntersectionObserver) (c : closure) : closure :=
  Closure (counter c) (target c) (increment c) (current c) o.

(** [updateCounter] of closure [i]. *)
Definition updateCounter (i : nat) (st : state) : state :=
  match closures st !! i with
  | None => st
  | Some c =>
      let current' := add (current c) (increment c) in
      let cs := <[i := set_current current' c]> (closures st) in
      if ltb current' (target c) then
        State (set_textContent (counter c) (Shown (floor current')) (doc st))
              cs (frameCallbacks st ++ [i]) (activated st)
      else
        State (set_textContent (counter c) (Shown (target c)) (doc st))
              cs (frameCallbacks st) (activated st)
  end.

Definition unobserve_in (i : nat) (e : elem) (st : state) : state :=
  State (doc st)
        (alter (λ c, set_observer (unobserve e (observer c)) c) i (closures st))
        (frameCallbacks st) (activated st).

Definition log_activation (i : nat) (st : state) : state :=
  State (doc st) (closures st) (frameCallbacks st)
        (activated st ++ default [] (closures st !! i ≫= λ c, Some [counter c])).

(** The callback of the observer of closure [i]. *)
Definition on_intersection (i : nat) (entries : list IntersectionObserverEntry)
  (st : state) : state :=
  forEach (λ entry _ st,
             if isIntersecting entry
             then unobserve_in i (entry_target entry)
                    (updateCounter i (log_activation i st))
             else st)
          entries st.

(** An animation frame: the browser runs the callbacks requested before
    the frame; what they request runs in the next frame. *)
Definition animationFrame (st : state) : state :=
  foldl (λ st i, updateCounter i st)
        (State (doc st) (closures st) [] (activated st))
        (frameCallbacks st).

Inductive event :=
| Intersection (i : nat) (entries : list IntersectionObserverEntry)
| AnimationFrame.

Definition handle (ev : event) (st : state) : state :=
  match ev with
  | Intersection i entries => on_intersection i entries st
  | AnimationFrame => animationFrame st
  end.

(** The events the browser can deliver in state [st]. *)
Definition admissible (st : state) (ev : event) : Prop :=
  match ev with
  | Intersection i entries =>
      ∃ c, closures st !! i = Some c ∧ batch_of (observer c) entries
  | AnimationFrame => True
  end.

Inductive reachable (d : document) : state -> Prop :=
| reach_init : reachable d (animateCounters d)
| reach_step st ev :
    reachable d st -> admissible st ev -> reachable d (handle ev st).

(** [n] animation frames in a row. *)
Definition frames (n : nat) (st : state) : state :=
  Nat.iter n animationFrame st.

(** The number shown by the counter of closure [i]. *)
Definition shown (i : nat) (st : state) : option text :=
  closures st !! i ≫= λ c, text_of (counter c) (doc st).

End Counters.


(* ===================================================================== *)
(** * FAQ accordion (script.js 72-89) *)
(* ===================================================================== *)

Module Faq.
Import Dom.

(** [faqQuestions]: the elements that get the click listener. *)
Definition faqQuestions (d : document) : list elem :=
  querySelectorAll (has_class "faq-question") d.

(** "Close all other FAQ items": the class [active] is removed from every
    FAQ item. *)
Definition close_all (d : document) : document :=
  forEach (λ item _ d, classList_remove item "active" d)
          (querySelectorAll (has_class "faq-item") d) d.

(** The click listener of [question].  [None] is the exception thrown
    when [question.parentElement] is [null] and its [classList] is
    read; nothing has been changed at that point. *)
Definition on_click (question : elem) (d : document) : option document :=
  match parent_of question d with
  | None => None
  | Some faqItem =>
      let isActive := classList_contains faqItem "active" d in
      let d := close_all d in
      Some (if negb isActive then classList_add faqItem "active" d else d)
  end.

(** The FAQ items that carry the class [active]. *)
Definition active_items (d : document) : list elem :=
  querySelectorAll (λ n, has_class "faq-item" n && has_class "active" n) d.

End Faq.

(* ===================================================================== *)
(** * Scroll reveal (script.js 199-228) *)
(* ===================================================================== *)

Module Reveal.
Import Number Dom Observer.

(** A pending [setTimeout] callback: the time at which it is due, in
    milliseconds, and the entry target captured by the callback. *)
Record timer := Timer {
  due : Z;
  timer_target : elem
}.

(** [now] is the browser clock in milliseconds; [activated] is a history
    variable: the elements for which the reveal has been scheduled. *)
Record state := State {
  doc : document;
  observer : IntersectionObserver;
  timers : list timer;
  now : Z;
  activated : list elem
}.

Definition selector (n : node) : bool :=
  existsb (λ c, has_class c n)
    ["feature-card"; "testimonial-card"; "service-card-large";
     "portfolio-item"; "blog-card"; "team-card"; "timeline-item";
     "process-step"]%string.

Definition options : IntersectionObserverInit :=
  Init (Some lit_0_1) (Some "0px 0px -50px 0px"%string).

(** [observeElements], run when the clock shows [t0]. *)
Definition observeElements (d : document) (t0 : Z) : state :=
  let elements := querySelectorAll selector d in
  forEach (λ element _ st,
             State (set_style element "transition"
                      "opacity 0.6s ease, transform 0.6s ease"
                      (set_style element "transform" "translateY(30px)"
                         (set_style element "opacity" "0" (doc st))))
                   (observe element (observer st))
                   (timers st) (now st) (activated st))
          elements
          (State d (new_observer options) [] t0 []).

(** [setTimeout(callback, delay)] for the callback that captured
    [target]. *)
Definition setTimeout (target : elem) (delay : Z) (st : state) : state :=
  State (doc st) (observer st) (timers st ++ [Timer (now st + delay) target])
        (now st) (activated st).

Definition unobserve_in (e : elem) (st : state) : state :=
  State (doc st) (unobserve e (observer st)) (timers st) (now st)
        (activated st).

Definition log_activation (e : elem) (st : state) : state :=
  State (doc st) (observer st) (timers st) (now st) (activated st ++ [e]).

(** The observer callback. *)
Definition on_intersection (entries : list IntersectionObserverEntry)
  (st : state) : state :=
  forEach (λ entry index st,
             if isIntersecting entry
             then unobserve_in (entry_target entry)
                    (setTimeout (entry_target entry) (Z.of_nat index * 100)
                       (log_activation (entry_target entry) st))
             else st)
          entries st.

(** The body of the timeout callback. *)
Definition reveal (target : elem) (d : document) : document :=
  set_style target "transform" "translateY(0)"
    (set_style target "opacity" "1" d).

Definition is_due (t : Z) (x : timer) : bool := due x <=? t.

Definition earlier (a b : timer) : Prop := due a <= due b.

#[export] Instance earlier_dec : RelDecision earlier.
Proof. intros a b. unfold earlier. apply _. Defined.

(** The clock advances to [t]: the timers due by then run, earliest
    first, and are removed. *)
Definition advance (t : Z) (st : state) : state :=
  let fired := merge_sort earlier (filter (λ x, is_due t x = true) (timers st)) in
  State (foldl (λ d x, reveal (timer_target x) d) (doc st) fired)
        (observer st)
        (filter (λ x, is_due t x = false) (timers st))
        (Z.max (now st) t) (activated st).

Inductive event :=
| Intersection (entries : list IntersectionObserverEntry)
| Tick (t : Z).

Definition handle (ev : event) (st : state) : state :=
  match ev with
  | Intersection entries => on_intersection entries st
  | Tick t => advance t st
  end.

Definition admissible (st : state) (ev : event) : Prop :=
  match ev with
  | Intersection entries => batch_of (observer st) entries
  | Tick t => now st <= t
  end.

Inductive reachable (d : document) (t0 : Z) : state -> Prop :=
| reach_init : reachable d t0 (observeElements d t0)
| reach_step st ev :
    reachable d t0 st -> admissible st ev -> reachable d t0 (handle ev st).

End Reveal.

(* ===================================================================== *)
(** * Lazy media (script.js 379-397) *)
(* ===================================================================== *)

Module LazyMedia.
Import Dom Observer.

(** [activated] is a history variable: the elements whose source has
    been set by the observer callback. *)
Record state := State {
  doc : document;
  lazyObserver : IntersectionObserver;
  activated : list elem
}.

(** [lazyLoadElements]: the observer is built without options. *)
Definition lazyLoadElements (d : document) : state :=
  let lazyElements := querySelectorAll (has_attribute "data-lazy") d in
  forEach (λ element _ st,
             State (doc st) (observe element (lazyObserver st)) (activated st))
          lazyElements
          (State d (new_observer (Init None None)) []).

(** The observer callback.  Assigning [null] to [src] stores the text
    [null]. *)
Definition on_intersection (entries : list IntersectionObserverEntry)
  (st : state) : state :=
  forEach (λ entry _ st,
             if isIntersecting entry then
               let element := entry_target entry in
               let src := getAttribute element "data-lazy" (doc st) in
               State (removeAttribute element "data-lazy"
                        (set_src element (default "null"%string src) (doc st)))
                     (unobserve element (lazyObserver st))
                     (activated st ++ [element])
             else st)
          entries st.

Definition admissible (st : state)
  (entries : list IntersectionObserverEntry) : Prop :=
  batch_of (lazyObserver st) entries.

Inductive reachable (d : document) : state -> Prop :=
| reach_init : reachable d (lazyLoadElements d)
| reach_step st entries :
    reachable d st -> admissible st entries ->
    reachable d (on_intersection entries st).

End LazyMedia.

(* ===================================================================== *)
(** * Dark mode (script.js 402-420) *)
(* ===================================================================== *)

Module DarkMode.
Import Dom.

(** A call to the storage interface. *)
Inductive access :=
| GetItem (key : string)
| SetItem (key value : string).

(** [bodyClassList] is [document.body.classList]; [localStorage] is the
    stored key-value map; [listening] tells whether the click listener
    has been added to the toggle button.  [accesses] is a history
    variable: the storage calls made so far, oldest first. *)
Record state := State {
  doc : document;
  bodyClassList : list string;
  localStorage : gmap string string;
  listening : bool;
  accesses : list access
}.

(** A page before the script has run. *)
Definition load (d : document) (body : list string)
  (storage : gmap string string) : state :=
  State d body storage false [].

Definition getItem (key : string) (st : state) : option string * state :=
  (localStorage st !! key,
   State (doc st) (bodyClassList st) (localStorage st) (listening st)
         (accesses st ++ [GetItem key])).

Definition setItem (key value : string) (st : state) : state :=
  State (doc st) (bodyClassList st) (<[key := value]> (localStorage st))
        (listening st) (accesses st ++ [SetItem key value]).

Definition with_body (f : list string -> list string) (st : state) : state :=
  State (doc st) (f (bodyClassList st)) (localStorage st) (listening st)
        (accesses st).

Definition addEventListener (st : state) : state :=
  State (doc st) (bodyClassList st) (localStorage st) true (accesses st).

(** [ToString] of a boolean, as [setItem] applies it to its argument. *)
Definition string_of_bool (b : bool) : string :=
  if b then "true" else "false".

Definition is_dark (st : state) : bool :=
  token_contains "dark-mode" (bodyClassList st).

Definition initDarkMode (st : state) : state :=
  match getElementById "darkModeToggle" (doc st) with
  | None => st
  | Some _ =>
      let '(stored, st) := getItem "darkMode" st in
      let isDarkMode := bool_decide (stored = Some "true"%string) in
      let st := if isDarkMode then with_body (token_add "dark-mode") st else st in
      addEventListener st
  end.

(** The click listener of the toggle button. *)
Definition on_click (st : state) : state :=
  let st := with_body (token_toggle "dark-mode") st in
  let isDark := is_dark st in
  setItem "darkMode" (string_of_bool isDark) st.

(** A click on the toggle button: the listener runs if it was added. *)
Definition click (st : state) : state :=
  if listening st then on_click st else st.

(** The preference as the script reads it back. *)
Definition stored_preference (st : state) : bool :=
  bool_decide (localStorage st !! "darkMode"%string = Some "true"%string).

End DarkMode.

(* ===================================================================== *)
(** * Reading the document tree *)
(* ===================================================================== *)

Module Tree.
Import Dom.

(** [a.contains(e)]: [e] is [a] or has [a] among its ancestors, which are
    reached through [parentElement].  A chain of parents in a document of
    [n] nodes has fewer than [n] steps, so [n] steps of fuel follow it to
    its end. *)
Fixpoint contains_from (fuel : nat) (a e : elem) (d : document) : bool :=
  if bool_decide (e = a) then true
  else match fuel with
       | O => false
       | S fuel =>
           match parent_of e d with
           | Some p => contains_from fuel a p d
           | None => false
           end
       end.

Definition contains (a e : elem) (d : document) : bool :=
  contains_from (length d) a e d.

(** [document.querySelector]: the first match in document order, or
    [null]. *)
Definition querySelector (sel : node -> bool) (d : document) : option elem :=
  head (querySelectorAll sel d).

(** [a.querySelector]: the first match among the descendants of [a]. *)
Definition querySelector_in (a : elem) (sel : node -> bool) (d : document)
  : option elem :=
  head (filter (λ e, e ≠ a ∧ contains a e d = true) (querySelectorAll sel d)).

Definition classList_toggle (e : elem) (c : string) (d : document) : document :=
  alter (with_classList (token_toggle c)) e d.

(** Assigning the empty string to a style property removes the
    declaration. *)
Definition clear_style (e : elem) (p : string) (d : document) : document :=
  alter (with_style (delete p)) e d.

(** How a listener ended: it returned, or it threw a [TypeError] on
    reading a property of [null]. *)
Inductive completion := Returned | TypeError.

End Tree.

(* ===================================================================== *)
(** * Mobile menu (script.js 4-28) *)
(* ===================================================================== *)

Module MobileMenu.
Import Dom Tree.

(** The constants of the [DOMContentLoaded] listener. *)
Record menu := Menu {
  mobileMenuToggle : option elem;
  navMenu : option elem
}.

Definition on_load (d : document) : menu :=
  Menu (querySelector (has_class "mobile-menu-toggle") d)
       (querySelector (has_class "nav-menu") d).

(** The click listener of the toggle button [toggle]. *)
Definition on_toggle_click (toggle : elem) (nav : option elem) (d : document)
  : document * completion :=
  match nav with
  | None => (d, TypeError)
  | Some navMenu =>
      let d := classList_toggle navMenu "active" d in
      match querySelector_in toggle (has_class "hamburger") d with
      | None => (d, TypeError)
      | Some hamburger =>
          (set_style hamburger "transform"
             (if classList_contains navMenu "active" d
              then "rotate(45deg)" else "rotate(0)") d,
           Returned)
      end
  end.

(** The click listener of the document; [target] is [e.target]. *)
Definition on_document_click (toggle : elem) (nav : option elem)
  (target : elem) (d : document) : document * completion :=
  if contains toggle target d then (d, Returned)
  else match nav with
       | None => (d, TypeError)
       | Some navMenu =>
           if contains navMenu target d then (d, Returned)
           else
             let d := classList_remove navMenu "active" d in
             match querySelector_in toggle (has_class "hamburger") d with
             | None => (d, TypeError)
             | Some hamburger =>
                 (set_style hamburger "transform" "rotate(0)" d, Returned)
             end
       end.

(** A click on [target]: the event reaches the listener of the toggle
    button if the target is inside the button, and then the listener of
    the document.  An exception in a listener does not stop the
    dispatch. *)
Definition click (m : menu) (target : elem) (d : document) : document :=
  match mobileMenuToggle m with
  | None => d
  | Some toggle =>
      let d :=
        if contains toggle target d
        then fst (on_toggle_click toggle (navMenu m) d) else d in
      fst (on_document_click toggle (navMenu m) target d)
  end.

Definition clicks (m : menu) (targets : list elem) (d : document) : document :=
  foldl (λ d target, click m target d) d targets.

End MobileMenu.

(* ===================================================================== *)
(** * Portfolio filter (script.js 94-120) *)
(* ===================================================================== *)

Module Portfolio.
Import Dom.

(** A pending [setTimeout] callback and the item it captured. *)
Record timer := Timer {
  due : Z;
  timer_item : elem
}.

Record state := State {
  doc : document;
  timers : list timer;
  now : Z
}.

(** The two node lists, taken once when the script runs. *)
Record lists := Lists {
  filterButtons : list elem;
  portfolioItems : list elem
}.

Definition on_load (d : document) : lists :=
  Lists (querySelectorAll (has_class "filter-btn") d)
        (querySelectorAll (has_class "portfolio-item") d).

(** [filter === 'all' || item.getAttribute('data-category') === filter];
    a missing attribute reads as [null]. *)
Definition matches (filter : option string) (item : elem) (d : document)
  : bool :=
  bool_decide (filter = Some "all"%string)
  || bool_decide (getAttribute item "data-category" d = filter).

(** The click listener of [button]. *)
Definition on_click (l : lists) (button : elem) (st : state) : state :=
  let d := forEach (λ btn _ d, classList_remove btn "active" d)
                   (filterButtons l) (doc st) in
  let d := classList_add button "active" d in
  let filter := getAttribute button "data-filter" d in
  forEach (λ item _ st,
             if matches filter item (doc st) then
               State (set_style item "opacity" "0"
                        (set_style item "display" "block" (doc st)))
                     (timers st ++ [Timer (now st + 10) item])
                     (now st)
             else
               State (set_style item "display" "none" (doc st))
                     (timers st) (now st))
          (portfolioItems l) (State d (timers st) (now st)).

(** The body of the timeout callback. *)
Definition fade_in (item : elem) (d : document) : document :=
  set_style item "opacity" "1"
    (set_style item "transition" "opacity 0.5s ease" d).

Definition is_due (t : Z) (x : timer) : bool := due x <=? t.

Definition earlier (a b : timer) : Prop := due a <= due b.

#[export] Instance portfolio_earlier_dec : RelDecision earlier.
Proof. intros a b. unfold earlier. apply _. Defined.

(** The clock advances to [t]: the timers due by then run, earliest
    first, and are removed. *)
Definition advance (t : Z) (st : state) : state :=
  let fired := merge_sort earlier (filter (λ x, is_due t x = true) (timers st)) in
  State (foldl (λ d x, fade_in (timer_item x) d) (doc st) fired)
        (filter (λ x, is_due t x = false) (timers st))
        (Z.max (now st) t).

End Portfolio.

(* ===================================================================== *)
(** * Pagination (script.js 233-248) *)
(* ===================================================================== *)

Module Pagination.
Import Dom Tree.

(** [scrolled] is a history variable: the elements on which
    [scrollIntoView] has been called, oldest first. *)
Record state := State {
  doc : document;
  scrolled : list elem
}.

Definition paginationNumbers (d : document) : list elem :=
  querySelectorAll (has_class "pagination-number") d.

(** The click listener of [button]; [numbers] is the node list
    [paginationNumbers] taken when the script ran. *)
Definition on_click (numbers : list elem) (button : elem) (st : state)
  : state :=
  let d := forEach (λ btn _ d, classList_remove btn "active" d)
                   numbers (doc st) in
  let d := classList_add button "active" d in
  match querySelector (has_class "blog-section") d with
  | Some blogSection => State d (scrolled st ++ [blogSection])
  | None => State d (scrolled st)
  end.

End Pagination.

(* ===================================================================== *)
(** * Header shadow on scroll (script.js 180-194) *)
(* ===================================================================== *)

Module HeaderScroll.
Import Number Dom Tree.

Record state := State {
  doc : document;
  lastScroll : number
}.

Definition raised : string :=
  "0 4px 6px -1px rgba(0, 0, 0, 0.1), 0 2px 4px -1px rgba(0, 0, 0, 0.06)".
Definition flat : string := "0 1px 2px 0 rgba(0, 0, 0, 0.05)".

(** The script at load time: [lastScroll] is 0 and [header] is the first
    element of class [main-header], or [null]. *)
Definition load (d : document) : state := State d (of_Z 0).
Definition header (d : document) : option elem :=
  querySelector (has_class "main-header") d.

(** The scroll listener; [currentScroll] is [window.pageYOffset].  With
    no header the listener throws on [header.style], before the
    assignment to [lastScroll]. *)
Definition on_scroll (header : option elem) (currentScroll : number)
  (st : state) : state * completion :=
  match header with
  | None => (st, TypeError)
  | Some h =>
      (State (set_style h "boxShadow"
                (if ltb (of_Z 0) currentScroll then raised else flat)
                (doc st))
             currentScroll,
       Returned)
  end.

Definition scrolls (header : option elem) (ys : list number) (st : state)
  : state :=
  foldl (λ st y, fst (on_scroll header y st)) st ys.

End HeaderScroll.

(* ===================================================================== *)
(** * Newsletter form (script.js 253-277) *)
(* ===================================================================== *)

Module Newsletter.
Import Dom Tree.

(** The text the button shows after a submit, as the script file has
    it. *)
Definition subscribed : string := "âœ“ Subscribed!".

(** What [newsletterForm.querySelector] finds for [input[type="email"]]
    and for [button[type="submit"]]; the listener changes neither the
    tree nor the attributes, so every submit finds the same elements. *)
Record form := Form {
  emailInput : option elem;
  submitButton : option elem
}.

(** A pending [setTimeout] callback and the [originalText] it
    captured. *)
Record timer := Timer {
  due : Z;
  originalText : text
}.

(** [values] holds the [value] of the form controls (the empty string
    for a control that is not in the map); [console] is what has been
    logged as the subscribed address, oldest first. *)
Record state := State {
  doc : document;
  values : gmap elem string;
  timers : list timer;
  now : Z;
  console : list string
}.

Definition value_of (e : elem) (st : state) : string :=
  default ""%string (values st !! e).

(** The submit listener.  Reading a property of a control that the form
    does not have throws (an index that is no element of the document
    stands for no control either). *)
Definition on_submit (f : form) (st : state) : state * completion :=
  match emailInput f with
  | None => (st, TypeError)
  | Some input =>
      let email := value_of input st in
      let st := State (doc st) (values st) (timers st) (now st)
                      (console st ++ [email]) in
      match submitButton f with
      | None => (st, TypeError)
      | Some button =>
          match text_of button (doc st) with
          | None => (st, TypeError)
          | Some original =>
              (State (set_style button "background" "#10b981"
                        (set_textContent button (Markup subscribed) (doc st)))
                     (values st)
                     (timers st ++ [Timer (now st + 3000) original])
                     (now st) (console st),
               Returned)
          end
      end
  end.

(** The body of the timeout callback. *)
Definition reset (f : form) (x : timer) (st : state) : state :=
  match emailInput f, submitButton f with
  | Some input, Some button =>
      State (clear_style button "background"
               (set_textContent button (originalText x) (doc st)))
            (<[input := ""%string]> (values st))
            (timers st) (now st) (console st)
  | _, _ => st
  end.

Definition is_due (t : Z) (x : timer) : bool := due x <=? t.

Definition earlier (a b : timer) : Prop := due a <= due b.

#[export] Instance newsletter_earlier_dec : RelDecision earlier.
Proof. intros a b. unfold earlier. apply _. Defined.

(** The clock advances to [t]: the timers due by then run, earliest
    first, and are removed. *)
Definition advance (f : form) (t : Z) (st : state) : state :=
  let fired := merge_sort earlier (filter (λ x, is_due t x = true) (timers st)) in
  let st' := foldl (λ st x, reset f x st) st fired in
  State (doc st') (values st')
        (filter (λ x, is_due t x = false) (timers st))
        (Z.max (now st) t) (console st').

End Newsletter.

(* ===================================================================== *)
(** * Tooltips (script.js 338-374) *)
(* ===================================================================== *)

Module Tooltips.
Import Number Dom.

Definition sub : number -> number -> number := SFsub prec emax.

(** The declarations assigned through [cssText]. *)
Definition cssText : gmap string string :=
  list_to_map
    [("position", "absolute"); ("background", "rgba(0, 0, 0, 0.9)");
     ("color", "white"); ("padding", "0.5rem 1rem");
     ("border-radius", "6px"); ("font-size", "0.875rem");
     ("pointer-events", "none"); ("opacity", "0");
     ("transition", "opacity 0.3s ease"); ("z-index", "10000");
     ("white-space", "nowrap")]%string.

(** The [div] created for the element [owner].  [left] and [top] are
    lengths in pixels: the declaration is the string form of the number
    followed by [px]. *)
Record tooltip := Tooltip {
  owner : elem;
  className : string;
  tooltip_text : option string;
  tooltip_style : gmap string string;
  left : option number;
  top : option number
}.

Inductive action :=
| Show (k : nat)
| Remove (k : nat).

Record timer := Timer {
  due : Z;
  timer_action : action
}.

(** [tooltips] are the created [div]s, one for each element with a
    [data-tooltip] attribute, in document order; a tooltip is known by
    its position in this list.  [body] lists the tooltips that are
    children of [document.body], in the order of the children. *)
Record state := State {
  tooltips : list tooltip;
  body : list nat;
  timers : list timer;
  now : Z
}.

Definition addTooltips (d : document) (t0 : Z) : state :=
  let tooltipElements := querySelectorAll (has_attribute "data-tooltip") d in
  State ((λ element,
            Tooltip element "tooltip" (getAttribute element "data-tooltip" d)
                    cssText None None) <$> tooltipElements)
        [] [] t0.

(** What the browser measures in the [mouseenter] listener:
    [element.getBoundingClientRect()] and the size of the tooltip. *)
Record layout := Layout {
  rect_left : number;
  rect_top : number;
  rect_width : number;
  offsetWidth : number;
  offsetHeight : number
}.

(** Assigning a length: a number that is not finite has no valid string
    form as a length, and the assignment is ignored. *)
Definition assign_px (n : number) (old : option number) : option number :=
  if is_finite n then Some n else old.

Definition with_opacity (v : string) (t : tooltip) : tooltip :=
  Tooltip (owner t) (className t) (tooltip_text t)
          (<["opacity"%string := v]> (tooltip_style t)) (left t) (top t).

Definition with_position (l : layout) (t : tooltip) : tooltip :=
  Tooltip (owner t) (className t) (tooltip_text t) (tooltip_style t)
    (assign_px (sub (add (rect_left l) (div (rect_width l) (of_Z 2)))
                    (div (offsetWidth l) (of_Z 2)))
               (left t))
    (assign_px (sub (sub (rect_top l) (offsetHeight l)) (of_Z 10)) (top t)).

(** [document.body.appendChild(tooltip)]: the tooltip becomes the last
    child; a tooltip that is a child already is moved. *)
Definition appendChild (k : nat) (body : list nat) : list nat :=
  filter (λ j, j ≠ k) body ++ [k].

(** [tooltip.remove()]. *)
Definition remove (k : nat) (body : list nat) : list nat :=
  filter (λ j, j ≠ k) body.

(** The [mouseenter] listener of the element of tooltip [k]. *)
Definition on_mouseenter (k : nat) (l : layout) (st : state) : state :=
  State (alter (with_position l) k (tooltips st))
        (appendChild k (body st))
        (timers st ++ [Timer (now st + 10) (Show k)])
        (now st).

(** The [mouseleave] listener of the element of tooltip [k]. *)
Definition on_mouseleave (k : nat) (st : state) : state :=
  State (alter (with_opacity "0") k (tooltips st))
        (body st)
        (timers st ++ [Timer (now st + 300) (Remove k)])
        (now st).

(** The timeout callbacks. *)
Definition run (x : timer) (st : state) : state :=
  match timer_action x with
  | Show k =>
      State (alter (with_opacity "1") k (tooltips st)) (body st)
            (timers st) (now st)
  | Remove k =>
      State (tooltips st) (remove k (body st)) (timers st) (now st)
  end.

Definition is_due (t : Z) (x : timer) : bool := due x <=? t.

Definition earlier (a b : timer) : Prop := due a <= due b.

#[export] Instance tooltips_earlier_dec : RelDecision earlier.
Proof. intros a b. unfold earlier. apply _. Defined.

(** The clock advances to [t]: the timers due by then run, earliest
    first, and are removed. *)
Definition advance (t : Z) (st : state) : state :=
  let fired := merge_sort earlier (filter (λ x, is_due t x = true) (timers st)) in
  let st' := foldl (λ st x, run x st) st fired in
  State (tooltips st') (body st')
        (filter (λ x, is_due t x = false) (timers st))
        (Z.max (now st) t).

Inductive event :=
| MouseEnter (k : nat) (l : layout)
| MouseLeave (k : nat)
| Tick (t : Z).

(** An element without a tooltip has no listeners. *)
Definition handle (ev : event) (st : state) : state :=
  match ev with
  | MouseEnter k l =>
      if bool_decide (k < length (tooltips st))%nat
      then on_mouseenter k l st else st
  | MouseLeave k =>
      if bool_decide (k < length (tooltips st))%nat
      then on_mouseleave k st else st
  | Tick t => advance t st
  end.

Definition opacity_of (k : nat) (st : state) : option string :=
  tooltips st !! k ≫= λ t, tooltip_style t !! "opacity"%string.

End Tooltips.

(* ===================================================================== *)
(** * Facts about binary64 arithmetic *)
(* ===================================================================== *)

(** Rounding is analysed on the integers: a finite number [m * 2^e] is
    measured in units of [2^-1074] by [scaled].  The development goes from
    the shift and round steps of [binary_round_aux] to bounds on sums and
    on the quotient by 125, and from there to the run of the counter
    loop. *)
Module NumberFacts.
Import Number.

Lemma digits2_pos_log2 p : Z.pos (digits2_pos p) = Z.log2 (Z.pos p) + 1.
Proof.
  induction p as [p IH|p IH|]; simpl; try reflexivity.
  - rewrite Pos2Z.inj_succ. destruct p; simpl in *; lia.
  - rewrite Pos2Z.inj_succ. destruct p; simpl in *; lia.
Qed.

Lemma Zdigits2_log2 m : 0 < m -> Zdigits2 m = Z.log2 m + 1.
Proof. destruct m; try lia. intros _. apply digits2_pos_log2. Qed.

Lemma Zdigits2_bounds m : 0 < m -> 2 ^ (Zdigits2 m - 1) <= m < 2 ^ Zdigits2 m.
Proof.
  intros H. rewrite Zdigits2_log2 by done.
  replace (Z.log2 m + 1 - 1) with (Z.log2 m) by lia.
  replace (Z.log2 m + 1) with (Z.succ (Z.log2 m)) by lia.
  by apply Z.log2_spec.
Qed.

Lemma Zdigits2_unique m d : 2 ^ (d - 1) <= m < 2 ^ d -> 0 < m -> Zdigits2 m = d.
Proof.
  intros H Hm. rewrite Zdigits2_log2 by done.
  assert (0 < d).
  { destruct (Z_lt_le_dec 0 d); [done|]. 
    assert (2 ^ d <= 2 ^ 0) by (apply Z.pow_le_mono_r; lia). simpl in *. lia. }
  assert (Z.log2 m = d - 1); [|lia].
  apply Z.log2_unique; [lia|]. replace (Z.succ (d - 1)) with d by lia. done.
Qed.

Lemma shr_1_m mrs : 0 <= shr_m mrs -> shr_m (shr_1 mrs) = shr_m mrs / 2.
Proof.
  destruct mrs as [m r s]; simpl. intros H.
  destruct m as [|[p|p|]|p]; simpl; try lia; try reflexivity.
  - rewrite Pos2Z.inj_xI. apply Z.div_unique with 1; lia.
  - rewrite Pos2Z.inj_xO. apply Z.div_unique with 0; lia.
Qed.

Lemma iter_shr_1_m p : forall mrs, 0 <= shr_m mrs ->
  shr_m (SpecFloat.iter_pos shr_1 p mrs) = shr_m mrs / 2 ^ Z.pos p.
Proof.
  induction p as [p IH|p IH|]; intros mrs H; simpl SpecFloat.iter_pos.
  - assert (H1 : 0 <= shr_m (shr_1 mrs)) by (rewrite shr_1_m by done; apply Z.div_pos; lia).
    assert (H2 : 0 <= shr_m (SpecFloat.iter_pos shr_1 p (shr_1 mrs))).
    { rewrite IH by done. apply Z.div_pos; lia. }
    rewrite IH, IH, shr_1_m by done.
    rewrite !Z.div_div by lia. f_equal.
    replace (Z.pos p~1) with (1 + Z.pos p + Z.pos p) by lia.
    rewrite !Z.pow_add_r by lia. lia.
  - assert (H2 : 0 <= shr_m (SpecFloat.iter_pos shr_1 p mrs)).
    { rewrite IH by done. apply Z.div_pos; lia. }
    rewrite IH, IH by done.
    rewrite !Z.div_div by lia. f_equal.
    replace (Z.pos p~0) with (Z.pos p + Z.pos p) by lia.
    rewrite !Z.pow_add_r by lia. lia.
  - rewrite shr_1_m by done. done.
Qed.

Local Abbreviation fexp64 := (fexp prec emax).

Lemma fexp64_eq e : fexp64 e = Z.max (e - 53) (-1074).
Proof. reflexivity. Qed.

Ltac fexp_lia := unfold fexp, emin, prec, emax in *; lia.

Lemma shr_record_of_loc_m m l : shr_m (shr_record_of_loc m l) = m.
Proof. destruct l as [|[]]; reflexivity. Qed.

Lemma shr_spec mrs e n : 0 <= n -> 0 <= shr_m mrs ->
  shr_m (fst (shr mrs e n)) = shr_m mrs / 2 ^ n /\ snd (shr mrs e n) = e + n.
Proof.
  intros Hn Hm. destruct n as [|p|p]; simpl; try lia.
  - rewrite Z.div_1_r. lia.
  - split; [|done]. by apply iter_shr_1_m.
Qed.

Lemma round_nearest_even_cases m l :
  round_nearest_even m l = m \/ round_nearest_even m l = m + 1.
Proof. destruct l as [|[]]; simpl; auto. destruct (Z.even m); auto. Qed.

Lemma Zdigits2_div_pow2 m n : 0 < m -> 0 <= n -> 0 < m / 2 ^ n ->
  Zdigits2 (m / 2 ^ n) = Zdigits2 m - n.
Proof.
  intros Hm Hn Hq. rewrite !Zdigits2_log2 by done.
  rewrite <- Z.shiftr_div_pow2 by done.
  rewrite Z.log2_shiftr by done.
  assert (2 ^ n <= m).
  { destruct (Z_lt_le_dec m (2 ^ n)); [|done]. rewrite Z.div_small in Hq; lia. }
  assert (n <= Z.log2 m) by (apply Z.log2_le_pow2; done). lia.
Qed.

(** Second stage of [binary_round_aux]: renormalisation after rounding. *)
Lemma shr_fexp_exact m1 e' :
  0 < m1 ->
  (fexp64 (Zdigits2 m1 + e') = e' \/
   (fexp64 (Zdigits2 m1 + e') = e' + 1 /\ exists b, 0 < b /\ m1 = 2 ^ b)) ->
  exists m e, shr_m (fst (shr_fexp prec emax m1 e' loc_Exact)) = Z.pos m /\
              snd (shr_fexp prec emax m1 e' loc_Exact) = e /\
              canonical_mantissa prec emax m e = true /\
              e' <= e /\ Z.pos m * 2 ^ (e - e') = m1.
Proof.
  intros Hm [Hk|[Hk (b & Hb & ->)]]; unfold shr_fexp; rewrite Hk.
  - rewrite Z.sub_diag. simpl. destruct m1 as [|p|p]; try lia.
    exists p, e'. repeat split; try lia.
    + unfold canonical_mantissa. apply Z.eqb_eq. exact Hk.
    + rewrite Z.sub_diag. simpl. lia.
  - replace (e' + 1 - e') with 1 by lia.
    destruct (shr_spec (shr_record_of_loc (2 ^ b) loc_Exact) e' 1) as [H1 H2];
      [lia|simpl; apply Z.pow_nonneg; lia|].
    simpl shr_record_of_loc in *. simpl shr_m in H1 at 2.
    assert (Hdiv : 2 ^ b / 2 ^ 1 = 2 ^ (b - 1)).
    { rewrite <- Z.pow_sub_r by lia. done. }
    rewrite Hdiv in H1.
    assert (Hpos : 0 < 2 ^ (b - 1)) by (apply Z.pow_pos_nonneg; lia).
    destruct (2 ^ (b - 1)) as [|p|p] eqn:Hp; try lia.
    exists p, (e' + 1). rewrite H1, H2. repeat split; try lia.
    + unfold canonical_mantissa. apply Z.eqb_eq.
      etrans; [|exact Hk]. f_equal.
      change (Z.pos (digits2_pos p)) with (Zdigits2 (Z.pos p)).
      rewrite <- Hp. rewrite !Zdigits2_log2 by (try apply Z.pow_pos_nonneg; lia).
      rewrite !Z.log2_pow2 by lia. lia.
    + rewrite <- Hp. replace (e' + 1 - e') with 1 by lia.
      rewrite <- Z.pow_add_r by lia. f_equal. lia.
Qed.

Lemma shr_m_zero mrs e n : shr_m mrs = 0 -> shr_m (fst (shr mrs e n)) = 0.
Proof.
  intros H. destruct (Z_lt_le_dec n 0) as [Hn|Hn].
  - destruct n; try lia. done.
  - destruct (shr_spec mrs e n) as [-> _]; [lia..|]. rewrite H. done.
Qed.

(** What the first shift leaves is canonical for its exponent. *)
Lemma fexp_after_shift mx ex :
  0 < mx -> ex <= fexp64 (Zdigits2 mx + ex) ->
  let n := fexp64 (Zdigits2 mx + ex) - ex in
  fexp64 (Zdigits2 (mx / 2 ^ n) + (ex + n)) = ex + n /\
  (mx / 2 ^ n = 0 -> ex + n = -1074).
Proof.
  intros Hm Hn n.
  assert (0 <= n) by (unfold n; lia).
  assert (Hq : 0 <= mx / 2 ^ n) by (apply Z.div_pos; lia).
  destruct (Z.eq_dec (mx / 2 ^ n) 0) as [H0|H0].
  - assert (mx < 2 ^ n).
    { destruct (Z_lt_le_dec mx (2 ^ n)); [done|].
      assert (2 ^ n / 2 ^ n <= mx / 2 ^ n) by (apply Z.div_le_mono; lia).
      rewrite Z.div_same in * by lia. lia. }
    assert (Z.log2 mx < n) by (apply Z.log2_lt_pow2; done).
    rewrite H0. simpl Zdigits2.
    pose proof (Zdigits2_log2 mx Hm). unfold n in *.
    fexp_lia.
  - rewrite Zdigits2_div_pow2 by lia. split; [|lia].
    replace (Zdigits2 mx - n + (ex + n)) with (Zdigits2 mx + ex) by lia.
    unfold n. lia.
Qed.

Lemma binary_round_aux_spec s mx ex lx :
  0 < mx -> ex <= fexp64 (Zdigits2 mx + ex) ->
  let n := fexp64 (Zdigits2 mx + ex) - ex in
  let m' := mx / 2 ^ n in
  let e' := ex + n in
  exists m1, (m1 = m' \/ m1 = m' + 1) /\
    (lx = loc_Exact -> n = 0 -> m1 = m') /\
    ((m1 = 0 /\ binary_round_aux prec emax s mx ex lx = S754_zero s) \/
     (exists m e, canonical_mantissa prec emax m e = true /\
        e' <= e /\ Z.pos m * 2 ^ (e - e') = m1 /\
        binary_round_aux prec emax s mx ex lx =
          if e <=? emax - prec then S754_finite s m e else S754_infinity s)).
Proof.
  intros Hm Hn n m' e'.
  assert (Hn0 : 0 <= n) by (unfold n; lia).
  destruct (fexp_after_shift mx ex Hm Hn) as [HA HB]. fold n m' e' in HA, HB.
  assert (Hq : 0 <= m') by (apply Z.div_pos; lia).
  unfold binary_round_aux.
  destruct (shr_fexp prec emax mx ex lx) as [mrs1 e1] eqn:H1.
  unfold shr_fexp in H1. fold n in H1.
  destruct (shr_spec (shr_record_of_loc mx lx) ex n) as [Hs1 Hs2];
    [lia|rewrite shr_record_of_loc_m; lia|].
  rewrite H1 in Hs1, Hs2. rewrite shr_record_of_loc_m in Hs1. simpl in Hs1, Hs2. fold m' in Hs1. fold e' in Hs2.
  subst e1. set (m1 := round_nearest_even (shr_m mrs1) (loc_of_shr_record mrs1)).
  exists m1.
  assert (Hc : m1 = m' \/ m1 = m' + 1).
  { unfold m1. rewrite <- Hs1. apply round_nearest_even_cases. }
  split; [exact Hc|]. split.
  { intros -> Hz. unfold m1. rewrite Hz in H1. simpl in H1. injection H1 as <- _. simpl.
    unfold m'. rewrite Hz. simpl. by rewrite Z.div_1_r. }
  destruct (Z.eq_dec m1 0) as [H0|H0].
  - left. split; [done|]. rewrite H0.
    destruct (shr_fexp prec emax 0 e' loc_Exact) as [mrs2 e2] eqn:H2.
    unfold shr_fexp in H2.
    pose proof (shr_m_zero (shr_record_of_loc 0 loc_Exact) e'
                  (fexp64 (Zdigits2 0 + e') - e') eq_refl) as Hz.
    rewrite H2 in Hz. simpl in Hz. rewrite Hz. done.
  - right. assert (Hm1 : 0 < m1) by lia.
    destruct (shr_fexp_exact m1 e' Hm1) as (m & e & Hsm & Hse & Hcan & Hle & Hval).
    { destruct Hc as [->| ->]; [left; exact HA|].
      destruct (Z.eq_dec m' 0) as [Hz|Hz].
      { left. rewrite Hz. rewrite (HB Hz). reflexivity. }
      assert (Hm' : 0 < m') by lia.
      rewrite !Zdigits2_log2 in * by lia.
      destruct (Z.log2_succ_or m') as [Hl|Hl]; unfold Z.succ in Hl.
      - destruct (Z.eq_dec (fexp64 (Z.log2 (m' + 1) + 1 + e')) e') as [He|He];
          [left; done|right].
        split; [fexp_lia|].
        destruct (Z.log2_eq_succ_is_pow2 m') as [b Hb]; [done|].
        exists b. unfold Z.succ in Hb. split; [|done].
        destruct (Z_lt_le_dec 0 b); [done|].
        assert (2 ^ b <= 2 ^ 0) by (apply Z.pow_le_mono_r; lia).
        simpl in *. lia.
      - left. rewrite Hl. exact HA. }
    exists m, e. repeat split; try done.
    destruct (shr_fexp prec emax m1 e' loc_Exact) as [mrs2 e2] eqn:H2.
    simpl in Hsm, Hse. subst e2. rewrite Hsm. done.
Qed.

Lemma iter_xO_pow m d : Z.pos (Pos.iter xO m d) = Z.pos m * 2 ^ Z.pos d.
Proof.
  induction d as [|d IH] using Pos.peano_ind.
  - simpl. lia.
  - rewrite Pos.iter_succ, Pos2Z.inj_xO, IH, Pos2Z.inj_succ, Z.pow_succ_r by lia. lia.
Qed.

Lemma shl_align_spec mx ex ex' :
  snd (shl_align mx ex ex') = Z.min ex ex' /\
  Z.pos (fst (shl_align mx ex ex')) = Z.pos mx * 2 ^ (ex - Z.min ex ex').
Proof.
  unfold shl_align. destruct (ex' - ex) as [|d|d] eqn:Hd; simpl.
  - replace (Z.min ex ex') with ex by lia. rewrite Z.sub_diag. simpl. lia.
  - replace (Z.min ex ex') with ex by lia. rewrite Z.sub_diag. simpl. lia.
  - replace (Z.min ex ex') with ex' by lia.
    replace (ex - ex') with (Z.pos d) by lia. split; [done|apply iter_xO_pow].
Qed.

Lemma Zdigits2_mul_pow2 m k : 0 < m -> 0 <= k -> Zdigits2 (m * 2 ^ k) = Zdigits2 m + k.
Proof.
  intros Hm Hk. assert (0 < 2 ^ k) by (apply Z.pow_pos_nonneg; lia).
  rewrite !Zdigits2_log2 by nia. rewrite Z.log2_mul_pow2 by done. lia.
Qed.

Lemma pow2_pos k : 0 <= k -> 0 < 2 ^ k.
Proof. intros. apply Z.pow_pos_nonneg; lia. Qed.

Lemma pow2_split a b : 0 <= a -> 0 <= b -> 2 ^ (a + b) = 2 ^ a * 2 ^ b.
Proof. intros. apply Z.pow_add_r; done. Qed.

Lemma ulp_bound P N W Mz m' Mr :
  0 < N -> 0 < W -> 0 < P <= m' ->
  m' * N <= Mz < (m' + 1) * N -> (Mr = m' \/ Mr = m' + 1) ->
  (Mz * W - Mr * N * W) * P <= Mz * W /\ (Mr * N * W - Mz * W) * P <= Mz * W.
Proof.
  intros HN HW HP HM HMr.
  assert (HK : 0 < N * W) by (apply Z.mul_pos_pos; lia).
  assert (H1 : P * (N * W) <= m' * (N * W)) by (apply Z.mul_le_mono_nonneg_r; lia).
  assert (H2 : (m' * N) * W <= Mz * W) by (apply Z.mul_le_mono_nonneg_r; lia).
  assert (H3 : Mz * W <= (m' + 1) * N * W) by (apply Z.mul_le_mono_nonneg_r; lia).
  set (K := N * W) in *.
  assert (E1 : m' * N * W = m' * K) by (unfold K; ring).
  assert (E2 : (m' + 1) * N * W = m' * K + K) by (unfold K; ring).
  assert (E3 : forall a b, (a - b) * P = a * P - b * P) by (intros; ring).
  assert (H4 : (Mz * W - m' * K) * P <= K * P).
  { apply Z.mul_le_mono_nonneg_r; lia. }
  assert (H5 : (m' * K + K - Mz * W) * P <= K * P).
  { apply Z.mul_le_mono_nonneg_r; lia. }
  assert (H6 : 0 <= (Mz * W - m' * K) * P) by (apply Z.mul_nonneg_nonneg; lia).
  assert (H7 : 0 <= (m' * K + K - Mz * W) * P) by (apply Z.mul_nonneg_nonneg; lia).
  destruct HMr as [-> | ->]; rewrite ?E1, ?E2; split; lia.
Qed.

(** Rounding of [mx * 2^ex] in the normal range: the result is canonical,
    within one unit in the last place, and exact when [mx] fits. *)
Lemma binary_round_normal s mx ex :
  -1074 <= ex ->
  let d := Zdigits2 (Z.pos mx) in
  -1074 <= d + ex - 53 ->
  exists m e, canonical_mantissa prec emax m e = true /\ d + ex - 53 <= e /\
    binary_round prec emax s mx ex =
      (if e <=? 971 then S754_finite s m e else S754_infinity s) /\
    let X := Z.pos mx * 2 ^ (ex + 1074) in
    let V := Z.pos m * 2 ^ (e + 1074) in
    (X - V) * 2 ^ 52 <= X /\ (V - X) * 2 ^ 52 <= X /\ (d <= 53 -> V = X).
Proof.
  intros Hex d Hnorm. unfold binary_round.
  set (F := fexp64 (Z.pos (digits2_pos mx) + ex)).
  assert (HF : F = d + ex - 53) by (unfold F, d in *; simpl Zdigits2 in *; fexp_lia).
  destruct (shl_align_spec mx ex F) as [Hse Hsm].
  destruct (shl_align mx ex F) as [mz ez]. simpl in Hse, Hsm. subst ez.
  set (ez := Z.min ex F) in *.
  assert (Hdz : Zdigits2 (Z.pos mz) + ez = d + ex).
  { rewrite Hsm, Zdigits2_mul_pow2 by lia. fold d. lia. }
  destruct (binary_round_aux_spec s (Z.pos mz) ez loc_Exact) as (m1 & Hc & Hex1 & Hres);
    [lia|rewrite Hdz; fold d; fexp_lia|].
  rewrite Hdz in Hc, Hex1, Hres.
  assert (HF' : fexp64 (d + ex) = F) by (unfold F, d; reflexivity).
  rewrite HF' in Hc, Hex1, Hres.
  set (n := F - ez) in *. replace (ez + n) with F in Hres by lia.
  assert (Hn : 0 <= n) by lia.
  pose proof (pow2_pos n Hn) as Hpn.
  pose proof (Zdigits2_bounds (Z.pos mz) eq_refl) as Hbz.
  assert (Hdmz : Zdigits2 (Z.pos mz) = 53 + n) by lia.
  rewrite Hdmz in Hbz. replace (53 + n - 1) with (52 + n) in Hbz by lia.
  rewrite !pow2_split in Hbz by lia.
  set (m' := Z.pos mz / 2 ^ n) in *.
  assert (Hm'1 : m' * 2 ^ n <= Z.pos mz < (m' + 1) * 2 ^ n).
  { unfold m'. pose proof (Z.div_mod (Z.pos mz) (2 ^ n)).
    pose proof (Z.mod_pos_bound (Z.pos mz) (2 ^ n)). nia. }
  assert (Hm'2 : 2 ^ 52 <= m') by nia.
  destruct Hres as [[H0 _]|(m & e & Hcan & Hle & Hval & Hr)]; [lia|].
  exists m, e. split; [done|]. split; [lia|]. split; [exact Hr|].
  pose proof (pow2_pos (ez + 1074) ltac:(lia)) as HW.
  assert (HX : Z.pos mx * 2 ^ (ex + 1074) = Z.pos mz * 2 ^ (ez + 1074)).
  { rewrite Hsm, <- Z.mul_assoc, <- Z.pow_add_r by lia. do 2 f_equal. lia. }
  assert (HV : Z.pos m * 2 ^ (e + 1074) = m1 * 2 ^ n * 2 ^ (ez + 1074)).
  { rewrite <- Hval, <- !Z.mul_assoc, <- !Z.pow_add_r by lia. do 2 f_equal. lia. }
  cbv zeta. rewrite HX, HV.
  destruct (ulp_bound (2 ^ 52) (2 ^ n) (2 ^ (ez + 1074)) (Z.pos mz) m' m1)
    as [Hlo Hhi]; try done; try lia.
  split; [exact Hlo|]. split; [exact Hhi|].
  intros Hd. assert (Hn0 : n = 0) by lia. rewrite (Hex1 eq_refl Hn0).
  unfold m'. rewrite Hn0. change (2 ^ 0) with 1. rewrite Z.div_1_r. lia.
Qed.

(** ** Exact values *)

Lemma canonical_range m e :
  canonical_mantissa prec emax m e = true ->
  -1074 <= e /\ Zdigits2 (Z.pos m) <= 53 /\ (-1074 < e -> Zdigits2 (Z.pos m) = 53).
Proof.
  unfold canonical_mantissa. intros H%Z.eqb_eq.
  change (Z.pos (digits2_pos m)) with (Zdigits2 (Z.pos m)) in H. fexp_lia.
Qed.

Lemma mant_pow_pos m k : 0 <= k -> 0 < Z.pos m * 2 ^ k.
Proof. intros. pose proof (pow2_pos k). nia. Qed.

Lemma canonical_lt m1 e1 m2 e2 :
  canonical_mantissa prec emax m1 e1 = true ->
  canonical_mantissa prec emax m2 e2 = true ->
  e1 < e2 -> Z.pos m1 * 2 ^ (e1 + 1074) < Z.pos m2 * 2 ^ (e2 + 1074).
Proof.
  intros (H1 & H2 & _)%canonical_range (H3 & _ & H4)%canonical_range Hlt.
  specialize (H4 ltac:(lia)).
  pose proof (Zdigits2_bounds (Z.pos m1) eq_refl) as [_ Hb1].
  pose proof (Zdigits2_bounds (Z.pos m2) eq_refl) as [Hb2 _].
  rewrite H4 in Hb2. change (2 ^ (53 - 1)) with (2 ^ 52) in Hb2.
  assert (Hb1' : Z.pos m1 < 2 ^ 53).
  { eapply Z.lt_le_trans; [exact Hb1|]. apply Z.pow_le_mono_r; lia. }
  replace (e2 + 1074) with ((e2 - e1 - 1) + 1 + (e1 + 1074)) by lia.
  rewrite (pow2_split (e2 - e1 - 1 + 1) (e1 + 1074)) by lia.
  rewrite (pow2_split (e2 - e1 - 1) 1) by lia.
  pose proof (pow2_pos (e1 + 1074) ltac:(lia)) as HW.
  pose proof (pow2_pos (e2 - e1 - 1) ltac:(lia)) as HD.
  change (2 ^ 1) with 2. change (2 ^ 53) with (2 * 2 ^ 52) in Hb1'.
  set (W := 2 ^ (e1 + 1074)) in *. set (D := 2 ^ (e2 - e1 - 1)) in *.
  set (P := 2 ^ 52) in *.
  assert (Z.pos m1 * W < 2 * P * W) by (apply Z.mul_lt_mono_pos_r; lia).
  assert (P * W <= Z.pos m2 * W) by (apply Z.mul_le_mono_nonneg_r; lia).
  assert (0 < P * W) by (apply Z.mul_pos_pos; [unfold P|]; lia).
  assert (1 * (2 * (Z.pos m2 * W)) <= D * (2 * (Z.pos m2 * W)))
    by (apply Z.mul_le_mono_nonneg_r; lia).
  replace (Z.pos m2 * (D * 2 * W)) with (D * (2 * (Z.pos m2 * W))) by ring.
  lia.
Qed.

Lemma scaled_pos_compare m1 e1 m2 e2 :
  canonical_mantissa prec emax m1 e1 = true ->
  canonical_mantissa prec emax m2 e2 = true ->
  match e1 ?= e2 with
  | Lt => Lt
  | Gt => Gt
  | Eq => Pos.compare_cont Eq m1 m2
  end = (Z.pos m1 * 2 ^ (e1 + 1074) ?= Z.pos m2 * 2 ^ (e2 + 1074)).
Proof.
  intros H1 H2. destruct (Z.compare_spec e1 e2) as [->|Hlt|Hgt].
  - pose proof (canonical_range _ _ H2) as [He _].
    pose proof (pow2_pos (e2 + 1074) ltac:(lia)) as HW.
    change (Pos.compare_cont Eq m1 m2) with (Z.pos m1 ?= Z.pos m2).
    apply Zmult_compare_compat_r. lia.
  - symmetry. apply Z.compare_lt_iff. by apply canonical_lt.
  - symmetry. apply Z.compare_gt_iff. by apply canonical_lt.
Qed.

Lemma SFcompare_scaled x y :
  valid x -> valid y -> is_finite x = true -> is_finite y = true ->
  SFcompare x y = Some (scaled x ?= scaled y).
Proof.
  unfold valid.
  destruct x as [sx| | |sx mx ex], y as [sy| | |sy my ey]; try done;
    cbn [SFcompare scaled valid_binary]; intros Hx Hy _ _.
  - apply andb_prop in Hy as [Hy _]. pose proof (canonical_range _ _ Hy) as [He _].
    pose proof (mant_pow_pos my (ey + 1074) ltac:(lia)).
    destruct sy; cbn [cond_Zopp]; f_equal; symmetry;
      [apply Z.compare_gt_iff|apply Z.compare_lt_iff]; lia.
  - apply andb_prop in Hx as [Hx _]. pose proof (canonical_range _ _ Hx) as [He _].
    pose proof (mant_pow_pos mx (ex + 1074) ltac:(lia)).
    destruct sx; cbn [cond_Zopp]; f_equal; symmetry;
      [apply Z.compare_lt_iff|apply Z.compare_gt_iff]; lia.
  - apply andb_prop in Hx as [Hx _]. apply andb_prop in Hy as [Hy _].
    pose proof (canonical_range _ _ Hx) as [Hex _].
    pose proof (canonical_range _ _ Hy) as [Hey _].
    pose proof (mant_pow_pos mx (ex + 1074) ltac:(lia)).
    pose proof (mant_pow_pos my (ey + 1074) ltac:(lia)).
    destruct sx, sy; cbn [cond_Zopp]; f_equal.
    + rewrite Z.compare_opp.
      rewrite <- (scaled_pos_compare my ey mx ex) by done.
      rewrite (Z.compare_antisym ey ex).
      change (Pos.compare_cont Eq my mx) with (my ?= mx)%positive.
      rewrite (Pos.compare_antisym mx my).
      change (Pos.compare_cont Eq mx my) with (mx ?= my)%positive.
      destruct (ey ?= ex); simpl; try done.
    + symmetry. apply Z.compare_lt_iff. lia.
    + symmetry. apply Z.compare_gt_iff. lia.
    + by apply scaled_pos_compare.
Qed.

Lemma shl_align_scaled m e e' :
  -1074 <= e' <= e ->
  Z.pos (fst (shl_align m e e')) * 2 ^ (e' + 1074) = Z.pos m * 2 ^ (e + 1074).
Proof.
  intros H. destruct (shl_align_spec m e e') as [_ ->].
  replace (Z.min e e') with e' by lia.
  rewrite <- Z.mul_assoc, <- Z.pow_add_r by lia. do 2 f_equal. lia.
Qed.

(** Sum of two positive numbers whose exact sum is in the normal range. *)
Lemma add_pos_spec ma ea mb eb :
  bounded prec emax ma ea = true -> bounded prec emax mb eb = true ->
  let a := S754_finite false ma ea in
  let b := S754_finite false mb eb in
  2 ^ 52 <= scaled a + scaled b ->
  exists m e, canonical_mantissa prec emax m e = true /\
    add a b = (if e <=? 971 then S754_finite false m e else S754_infinity false) /\
    let X := scaled a + scaled b in
    let V := Z.pos m * 2 ^ (e + 1074) in
    (X - V) * 2 ^ 52 <= X /\ (V - X) * 2 ^ 52 <= X.
Proof.
  intros [Ha _]%andb_prop [Hb _]%andb_prop a b Hnorm. subst a b.
  pose proof (canonical_range _ _ Ha) as [Hea _].
  pose proof (canonical_range _ _ Hb) as [Heb _].
  unfold add. cbn [SFadd cond_Zopp]. set (ez := Z.min ea eb).
  pose proof (shl_align_scaled ma ea ez ltac:(lia)) as Hsa.
  pose proof (shl_align_scaled mb eb ez ltac:(lia)) as Hsb.
  set (ma' := fst (shl_align ma ea ez)) in *.
  set (mb' := fst (shl_align mb eb ez)) in *.
  change (Z.pos ma' + Z.pos mb') with (Z.pos (ma' + mb')).
  cbn [binary_normalize].
  assert (HX : Z.pos (ma' + mb') * 2 ^ (ez + 1074) =
    scaled (S754_finite false ma ea) + scaled (S754_finite false mb eb)).
  { rewrite Pos2Z.inj_add, Z.mul_add_distr_r, Hsa, Hsb. reflexivity. }
  destruct (binary_round_normal false (ma' + mb')%positive ez) as
    (m & e & Hcan & _ & Hr & Hlo & Hhi & _); [lia| |].
  { pose proof (Zdigits2_bounds (Z.pos (ma' + mb')) eq_refl) as [_ Hd].
    pose proof (pow2_pos (ez + 1074) ltac:(lia)) as HW.
    assert (Hlt : 2 ^ 52 < 2 ^ (Zdigits2 (Z.pos (ma' + mb')) + (ez + 1074))).
    { rewrite pow2_split; [|simpl; lia|lia].
      eapply Z.le_lt_trans; [exact Hnorm|]. rewrite <- HX.
      apply Z.mul_lt_mono_pos_r; lia. }
    apply Z.pow_lt_mono_r_iff in Hlt; [lia|lia|simpl; lia]. }
  exists m, e. split; [done|]. split; [exact Hr|].
  cbv zeta. rewrite <- HX. split; [exact Hlo|exact Hhi].
Qed.

Lemma add_zero_l x : is_finite x = true -> add (S754_zero false) x = 
  match x with S754_zero _ => S754_zero false | _ => x end.
Proof. destruct x as [[]| | |]; done. Qed.

(** ** Division by the number of animation steps *)

Lemma n125_eq : div (of_Z 2000) (of_Z 16) = n125.
Proof. vm_compute. reflexivity. Qed.

Lemma normal_of_ge_one m e :
  bounded prec emax m e = true -> 2 ^ 1074 <= Z.pos m * 2 ^ (e + 1074) ->
  Zdigits2 (Z.pos m) = 53 /\ -52 <= e <= 971 /\ 2 ^ 52 <= Z.pos m < 2 ^ 53.
Proof.
  intros [Hc He%Z.leb_le]%andb_prop Hge.
  destruct (canonical_range _ _ Hc) as (H1 & H2 & H3).
  pose proof (Zdigits2_bounds (Z.pos m) eq_refl) as [Hlo Hhi].
  assert (Hm : Z.pos m < 2 ^ 53).
  { eapply Z.lt_le_trans; [exact Hhi|]. apply Z.pow_le_mono_r; lia. }
  assert (He1 : -53 < e).
  { destruct (Z_lt_le_dec (-53) e); [done|]. exfalso.
    pose proof (pow2_pos (e + 1074) ltac:(lia)) as HW.
    assert (Z.pos m * 2 ^ (e + 1074) < 2 ^ 53 * 2 ^ (e + 1074))
      by (apply Z.mul_lt_mono_pos_r; lia).
    rewrite <- pow2_split in H by lia.
    assert (2 ^ (53 + (e + 1074)) <= 2 ^ 1074) by (apply Z.pow_le_mono_r; lia).
    lia. }
  specialize (H3 ltac:(lia)). rewrite H3 in Hlo.
  change (2 ^ (53 - 1)) with (2 ^ 52) in Hlo. unfold emax, prec in He. lia.
Qed.

Lemma SFdiv_core_n125 m1 e1 :
  Zdigits2 (Z.pos m1) = 53 -> -52 <= e1 ->
  SFdiv_core_binary prec emax (Z.pos m1) e1 8796093022208000 (-46) =
  ((128 * Z.pos m1) / 125, e1 - 7,
   new_location 8796093022208000 ((Z.pos m1 * 2 ^ 53) mod 8796093022208000)).
Proof.
  intros Hd He. unfold SFdiv_core_binary. rewrite Hd.
  change (Zdigits2 8796093022208000) with 53.
  replace (Z.min (fexp64 (53 + e1 - (53 + -46))) (e1 - -46)) with (e1 - 7)
    by fexp_lia.
  replace (e1 - -46 - (e1 - 7)) with 53 by lia.
  cbv iota. rewrite Z.shiftl_mul_pow2 by lia.
  destruct (Z.div_eucl (Z.pos m1 * 2 ^ 53) 8796093022208000) as [q r] eqn:E.
  assert (Hq : q = (Z.pos m1 * 2 ^ 53) / 8796093022208000)
    by (unfold Z.div; rewrite E; done).
  assert (Hr : r = (Z.pos m1 * 2 ^ 53) mod 8796093022208000)
    by (unfold Z.modulo; rewrite E; done).
  rewrite <- Hr. do 2 f_equal. rewrite Hq.
  change 8796093022208000 with (125 * 2 ^ 46).
  change (2 ^ 53) with (128 * 2 ^ 46).
  rewrite Z.mul_assoc, Z.div_mul_cancel_r by lia. f_equal. lia.
Qed.

(** Dividing a number of magnitude at least one by 125: the quotient is
    finite, keeps the sign, and lies between 1/126 and 1 times the
    dividend in magnitude. *)
Lemma div_n125_spec s m1 e1 :
  bounded prec emax m1 e1 = true ->
  2 ^ 1074 <= Z.pos m1 * 2 ^ (e1 + 1074) ->
  exists m e, bounded prec emax m e = true /\
    div (S754_finite s m1 e1) n125 = S754_finite s m e /\
    let t := Z.pos m1 * 2 ^ (e1 + 1074) in
    let V := Z.pos m * 2 ^ (e + 1074) in
    V <= t /\ t <= 126 * V.
Proof.
  intros Hb Hge.
  destruct (normal_of_ge_one _ _ Hb Hge) as (Hd & He & Hm).
  change (2 ^ 52) with 4503599627370496 in Hm.
  change (2 ^ 53) with 9007199254740992 in Hm.
  unfold div, n125. cbn [SFdiv]. rewrite SFdiv_core_n125 by lia.
  rewrite xorb_false_r.
  set (q := 128 * Z.pos m1 / 125).
  set (lx := new_location _ _).
  assert (Hq : 125 * q <= 128 * Z.pos m1 < 125 * q + 125).
  { unfold q. pose proof (Z.div_mod (128 * Z.pos m1) 125 ltac:(lia)).
    pose proof (Z.mod_pos_bound (128 * Z.pos m1) 125 ltac:(lia)). lia. }
  assert (Hq1 : 4503599627370496 <= q < 2 * 9007199254740992) by lia.
  assert (Hdq : Zdigits2 q = 53 \/ Zdigits2 q = 54).
  { rewrite Zdigits2_log2 by lia.
    assert (52 <= Z.log2 q) by (apply Z.log2_le_pow2; [lia|simpl; lia]).
    assert (Z.log2 q < 54) by (apply Z.log2_lt_pow2; [lia|simpl; lia]). lia. }
  destruct (binary_round_aux_spec s q (e1 - 7) lx) as (m1r & Hc & _ & Hres);
    [lia|fexp_lia|].
  set (n := fexp64 (Zdigits2 q + (e1 - 7)) - (e1 - 7)) in *.
  assert (Hn : n = Zdigits2 q - 53) by (unfold n; fexp_lia).
  set (m' := q / 2 ^ n) in *.
  assert (Hm' : 4503599627370496 <= m' /\ m' * 2 ^ n <= q < (m' + 1) * 2 ^ n
                /\ (2 ^ n = 1 \/ 2 ^ n = 2) /\ m' < 9007199254740992).
  { unfold m'. destruct Hdq as [Hdq|Hdq]; rewrite Hn, Hdq.
    - change (2 ^ (53 - 53)) with 1. rewrite Z.div_1_r.
      assert (Z.log2 q < 53) by (rewrite Zdigits2_log2 in Hdq; lia).
      assert (q < 2 ^ 53) by (apply Z.log2_lt_pow2; lia).
      change (2 ^ 53) with 9007199254740992 in *. lia.
    - change (2 ^ (54 - 53)) with 2.
      pose proof (Z.div_mod q 2 ltac:(lia)).
      pose proof (Z.mod_pos_bound q 2 ltac:(lia)).
      assert (53 <= Z.log2 q) by (rewrite Zdigits2_log2 in Hdq; lia).
      assert (2 ^ 53 <= q) by (apply Z.log2_le_pow2; lia).
      change (2 ^ 53) with 9007199254740992 in *. lia. }
  destruct Hm' as (Hm'1 & Hm'2 & HN & Hm'3).
  destruct Hres as [[H0 _]|(m & e & Hcan & Hle & Hval & Hr)]; [lia|].
  assert (Hediff : e - (e1 - 7 + n) = 0 \/ e - (e1 - 7 + n) = 1).
  { destruct (canonical_range _ _ Hcan) as (_ & _ & Hd53).
    specialize (Hd53 ltac:(lia)).
    pose proof (Zdigits2_bounds (Z.pos m) eq_refl) as [Hlo _]. rewrite Hd53 in Hlo.
    change (2 ^ (53 - 1)) with 4503599627370496 in Hlo.
    destruct (Z_lt_le_dec (e - (e1 - 7 + n)) 2) as [?|Hbig]; [lia|exfalso].
    assert (2 ^ 2 <= 2 ^ (e - (e1 - 7 + n))) by (apply Z.pow_le_mono_r; lia).
    change (2 ^ 2) with 4 in *. nia. }
  assert (Hele : e <= 971) by lia.
  exists m, e. split.
  { unfold bounded. rewrite Hcan. apply Z.leb_le. unfold emax, prec. lia. }
  split.
  { rewrite Hr. destruct (Z.leb_spec e (emax - prec)); [done|]. unfold emax, prec in *. lia. }
  cbv zeta.
  pose proof (pow2_pos (e1 - 7 + 1074) ltac:(lia)) as HW.
  assert (Ht : Z.pos m1 * 2 ^ (e1 + 1074) = 128 * Z.pos m1 * 2 ^ (e1 - 7 + 1074)).
  { replace (e1 + 1074) with (7 + (e1 - 7 + 1074)) by lia.
    rewrite pow2_split by lia. change (2 ^ 7) with 128. ring. }
  assert (HV : Z.pos m * 2 ^ (e + 1074) = m1r * 2 ^ n * 2 ^ (e1 - 7 + 1074)).
  { rewrite <- Hval. replace (e + 1074) with (e - (e1 - 7 + n) + (n + (e1 - 7 + 1074))) by lia.
    rewrite !pow2_split by lia. ring. }
  rewrite Ht, HV. set (W := 2 ^ (e1 - 7 + 1074)) in *.
  assert (Hnum : m1r * 2 ^ n <= 128 * Z.pos m1 /\ 128 * Z.pos m1 <= 126 * (m1r * 2 ^ n)).
  { destruct HN as [HN|HN]; rewrite HN in *; destruct Hc as [-> | ->]; lia. }
  destruct Hnum as [Hn1 Hn2]. split.
  - apply Z.mul_le_mono_nonneg_r; lia.
  - rewrite Z.mul_assoc. apply Z.mul_le_mono_nonneg_r; lia.
Qed.

(** ** Integers *)

Lemma is_integer_intro s m e k :
  -1074 <= e -> Z.pos m * 2 ^ (e + 1074) = k * 2 ^ 1074 ->
  is_integer (S754_finite s m e) = true.
Proof.
  intros He Hk. unfold is_integer. destruct (Z.leb_spec 0 e); [done|].
  apply Z.eqb_eq.
  pose proof (pow2_pos (e + 1074) ltac:(lia)) as HW.
  replace 1074 with (- e + (e + 1074)) in Hk at 2 by lia.
  rewrite (pow2_split (- e) (e + 1074)), Z.mul_assoc in Hk by lia.
  apply Z.mul_cancel_r in Hk; [|lia]. rewrite Hk. apply Z.mod_mul.
  pose proof (pow2_pos (- e)). lia.
Qed.

Lemma is_integer_elim s m e :
  -1074 <= e -> is_integer (S754_finite s m e) = true ->
  exists k, 0 < k /\ Z.pos m * 2 ^ (e + 1074) = k * 2 ^ 1074.
Proof.
  intros He. unfold is_integer. destruct (Z.leb_spec 0 e) as [H0|H0].
  - intros _. exists (Z.pos m * 2 ^ e). split; [by apply mant_pow_pos|].
    rewrite (pow2_split e 1074) by lia. ring.
  - intros Hmod%Z.eqb_eq.
    pose proof (pow2_pos (- e) ltac:(lia)) as HP.
    pose proof (Z.div_mod (Z.pos m) (2 ^ (- e)) ltac:(lia)) as Hdm.
    rewrite Hmod, Z.add_0_r in Hdm.
    exists (Z.pos m / 2 ^ (- e)). split; [nia|].
    rewrite Hdm at 1. replace 1074 with (- e + (e + 1074)) at 2 by lia.
    rewrite (pow2_split (- e) (e + 1074)) by lia. ring.
Qed.

Lemma of_Z_pos_spec s p :
  let r := binary_round prec emax s p 0 in
  valid r /\ r <> NaN /\
  (is_finite r = true -> is_integer r = true) /\
  (Z.pos p < 2 ^ 53 ->
   exists m e, r = S754_finite s m e /\ Z.pos m * 2 ^ (e + 1074) = Z.pos p * 2 ^ 1074).
Proof.
  intros r. unfold r.
  pose proof (Zdigits2_bounds (Z.pos p) eq_refl) as [Hlo Hhi].
  assert (Hd1 : 1 <= Zdigits2 (Z.pos p)) by (simpl; lia).
  destruct (binary_round_normal s p 0) as (m & e & Hcan & Hle & Hr & _ & _ & Hex);
    [lia|lia|].
  cbv zeta in Hex. change (0 + 1074) with 1074 in Hex.
  pose proof (canonical_range _ _ Hcan) as [He _].
  rewrite Hr. destruct (Z.leb_spec e 971) as [He9|He9].
  - split. { unfold valid, valid_binary, bounded. rewrite Hcan. apply Z.leb_le.
             unfold emax, prec. lia. }
    split; [done|]. split.
    + intros _. destruct (Z_lt_le_dec e 0) as [Hneg|Hpos].
      * eapply is_integer_intro; [lia|]. apply Hex. lia.
      * unfold is_integer. destruct (Z.leb_spec 0 e); [done|lia].
    + intros Hp. exists m, e. split; [done|]. apply Hex.
      destruct (Z_lt_le_dec 53 (Zdigits2 (Z.pos p))) as [Hbig|]; [|lia].
      assert (2 ^ 53 <= 2 ^ (Zdigits2 (Z.pos p) - 1)) by (apply Z.pow_le_mono_r; lia).
      lia.
  - split; [done|]. split; [done|]. split; [done|].
    intros Hp. exfalso.
    assert (Hd : Zdigits2 (Z.pos p) <= 53).
    { destruct (Z_lt_le_dec 53 (Zdigits2 (Z.pos p))) as [Hbig|]; [|lia].
      assert (2 ^ 53 <= 2 ^ (Zdigits2 (Z.pos p) - 1)) by (apply Z.pow_le_mono_r; lia).
      lia. }
    specialize (Hex Hd).
    assert (2 ^ (53 + 1074) <= 2 ^ (e + 1074)) by (apply Z.pow_le_mono_r; lia).
    rewrite (pow2_split 53 1074) in H by lia.
    pose proof (pow2_pos 1074 ltac:(lia)).
    pose proof (pow2_pos (e + 1074) ltac:(lia)).
    assert (Z.pos p * 2 ^ 1074 < 2 ^ 53 * 2 ^ 1074) by (apply Z.mul_lt_mono_pos_r; lia).
    assert (1 * 2 ^ (e + 1074) <= Z.pos m * 2 ^ (e + 1074))
      by (apply Z.mul_le_mono_nonneg_r; lia).
    lia.
Qed.

Lemma of_Z_spec z :
  valid (of_Z z) /\ of_Z z <> NaN /\
  (is_finite (of_Z z) = true -> is_integer (of_Z z) = true) /\
  (Z.abs z < 2 ^ 53 -> is_finite (of_Z z) = true /\ scaled (of_Z z) = z * 2 ^ 1074).
Proof.
  unfold of_Z. destruct z as [|p|p]; cbn [binary_normalize].
  - split; [done|]. split; [done|]. split; [done|]. intros _. split; reflexivity.
  - destruct (of_Z_pos_spec false p) as (H1 & H2 & H3 & H4).
    split; [done|]. split; [done|]. split; [done|].
    intros Hp. destruct (H4 Hp) as (m & e & -> & Hv). split; [done|]. exact Hv.
  - destruct (of_Z_pos_spec true p) as (H1 & H2 & H3 & H4).
    split; [done|]. split; [done|]. split; [done|].
    intros Hp. destruct (H4 Hp) as (m & e & -> & Hv). split; [done|].
    cbn [scaled cond_Zopp]. rewrite Hv. lia.
Qed.

Lemma scaled_cond_Zopp s m e :
  scaled (S754_finite s m e) = cond_Zopp s (Z.pos m) * 2 ^ (e + 1074).
Proof. destruct s; simpl; lia. Qed.

Lemma bounded_mant_lt m e : bounded prec emax m e = true -> Z.pos m < 2 ^ 53.
Proof.
  intros [Hc _]%andb_prop. destruct (canonical_range _ _ Hc) as (_ & Hd & _).
  pose proof (Zdigits2_bounds (Z.pos m) eq_refl) as [_ Hhi].
  eapply Z.lt_le_trans; [exact Hhi|]. apply Z.pow_le_mono_r; lia.
Qed.

(** [Math.floor] of a finite number: an integer, the largest one that is
    not above the argument. *)
Lemma floor_spec s m e :
  bounded prec emax m e = true ->
  let x := S754_finite s m e in
  valid (floor x) /\ is_finite (floor x) = true /\ is_integer (floor x) = true /\
  scaled (floor x) = scaled x / 2 ^ 1074 * 2 ^ 1074.
Proof.
  intros Hb x. subst x.
  pose proof Hb as [Hc _]%andb_prop. destruct (canonical_range _ _ Hc) as (He & _).
  pose proof (bounded_mant_lt _ _ Hb) as Hm.
  pose proof (pow2_pos 1074 ltac:(lia)) as H1074.
  rewrite scaled_cond_Zopp. cbn [floor]. destruct (Z.leb_spec 0 e) as [H0|H0].
  - split; [exact Hb|]. split; [done|]. split.
    { unfold is_integer. destruct (Z.leb_spec 0 e); [done|lia]. }
    rewrite scaled_cond_Zopp, (pow2_split e 1074), Z.mul_assoc, Z.div_mul by lia. done.
  - set (z := cond_Zopp s (Z.pos m) / 2 ^ (- e)).
    pose proof (pow2_pos (- e) ltac:(lia)) as HP.
    pose proof (pow2_pos (e + 1074) ltac:(lia)) as HW.
    assert (Hz : cond_Zopp s (Z.pos m) * 2 ^ (e + 1074) / 2 ^ 1074 = z).
    { replace 1074 with (- e + (e + 1074)) at 2 by lia.
      rewrite (pow2_split (- e) (e + 1074)) by lia.
      rewrite Z.div_mul_cancel_r by lia. done. }
    rewrite Hz.
    assert (Hzb : Z.abs z < 2 ^ 53).
    { unfold z. pose proof (Z.div_mod (cond_Zopp s (Z.pos m)) (2 ^ (- e)) ltac:(lia)).
      pose proof (Z.mod_pos_bound (cond_Zopp s (Z.pos m)) (2 ^ (- e)) ltac:(lia)).
      destruct s; simpl cond_Zopp in *; nia. }
    destruct (Z.eqb_spec z 0) as [Hz0|Hnz].
    + rewrite Hz0. split; [done|]. split; [done|]. split; [done|]. rewrite Z.mul_0_l. done.
    + destruct (of_Z_spec z) as (Hv & _ & Hi & Hs). destruct (Hs Hzb) as [Hf Hsc].
      split; [done|]. split; [done|]. split; [auto|done].
Qed.

Lemma scaled_fin_pos m e : -1074 <= e -> 0 < scaled (S754_finite false m e).
Proof. intros. cbn [scaled cond_Zopp]. apply mant_pow_pos. lia. Qed.

Lemma ltb_scaled x y :
  valid x -> valid y -> is_finite x = true -> is_finite y = true ->
  ltb x y = bool_decide (scaled x < scaled y).
Proof.
  intros. unfold ltb, SFltb. rewrite SFcompare_scaled by done.
  destruct (Z.compare_spec (scaled x) (scaled y)); case_bool_decide; done || lia.
Qed.

Lemma leb_scaled x y :
  valid x -> valid y -> is_finite x = true -> is_finite y = true ->
  leb x y = bool_decide (scaled x <= scaled y).
Proof.
  intros. unfold leb, SFleb. rewrite SFcompare_scaled by done.
  destruct (Z.compare_spec (scaled x) (scaled y)); case_bool_decide; done || lia.
Qed.

(** ** The accumulation loop of the counter *)

Lemma prefix_or_stop (f : nat -> bool) (N : nat) :
  (forall j, (1 <= j <= N)%nat -> f j = true) \/
  (exists n, (1 <= n <= N)%nat /\ f n = false /\
             forall j, (1 <= j < n)%nat -> f j = true).
Proof.
  induction N as [|N [IH|(n & Hn & Hf & Hall)]].
  - left. intros j Hj. lia.
  - destruct (f (S N)) eqn:E.
    + left. intros j Hj. destruct (decide (j = S N)) as [->|]; [done|].
      apply IH. lia.
    + right. exists (S N). split; [lia|]. split; [done|].
      intros j Hj. apply IH. lia.
  - right. exists n. split; [lia|]. done.
Qed.

Section Accumulate.
Variables (m : positive) (e : Z).
Hypothesis Hb : bounded prec emax m e = true.
Hypothesis Hint : is_integer (S754_finite false m e) = true.

Let T : number := S754_finite false m e.
Let inc : number := div T n125.
Let t : Z := scaled T.

Lemma target_ge_one : 2 ^ 1074 <= t.
Proof.
  pose proof Hb as [Hc _]%andb_prop. destruct (canonical_range _ _ Hc) as [He _].
  destruct (is_integer_elim false m e He Hint) as (k & Hk & Hv).
  unfold t, T. cbn [scaled cond_Zopp]. rewrite Hv.
  pose proof (pow2_pos 1074 ltac:(lia)). nia.
Qed.

Lemma increment_spec :
  exists mi ei, inc = S754_finite false mi ei /\ bounded prec emax mi ei = true /\
    scaled inc <= t /\ t <= 126 * scaled inc /\ 2 ^ 53 <= scaled inc.
Proof.
  pose proof target_ge_one as Ht.
  destruct (div_n125_spec false m e Hb) as (mi & ei & Hbi & Hdiv & Hlo & Hhi).
  { exact Ht. }
  exists mi, ei. fold T in Hdiv. fold inc in Hdiv. rewrite Hdiv.
  split; [done|]. split; [done|]. cbv zeta in Hlo, Hhi.
  unfold t, T in *. cbn [scaled cond_Zopp] in *.
  split; [done|]. split; [done|].
  assert (2 ^ 1074 = 2 ^ 53 * 2 ^ 1021) by (rewrite <- Z.pow_add_r by lia; done).
  pose proof (pow2_pos 1021 ltac:(lia)). pose proof (pow2_pos 53 ltac:(lia)).
  assert (126 * 2 ^ 53 <= 2 ^ 53 * 2 ^ 1021).
  { rewrite (Z.mul_comm 126). apply Z.mul_le_mono_nonneg_l; [lia|].
    change 126 with (2 ^ 7 - 2). assert (2 ^ 7 <= 2 ^ 1021) by (apply Z.pow_le_mono_r; lia). lia. }
  lia.
Qed.

(** One more addition while the sum is still below the target. *)
Lemma accumulate_step mk ek :
  bounded prec emax mk ek = true ->
  let c := S754_finite false mk ek in
  scaled c < t ->
  add c inc = S754_infinity false \/
  exists m' e', add c inc = S754_finite false m' e' /\
    bounded prec emax m' e' = true /\
    2 * scaled c + scaled inc <= 2 * scaled (S754_finite false m' e').
Proof.
  intros Hbk c Hlt.
  destruct increment_spec as (mi & ei & Hinc & Hbi & Hi1 & Hi2 & Hi3).
  rewrite Hinc in *.
  pose proof Hbk as [Hck _]%andb_prop. destruct (canonical_range _ _ Hck) as [Hek _].
  pose proof (scaled_fin_pos mk ek Hek) as Hcpos. fold c in Hcpos.
  destruct (add_pos_spec mk ek mi ei Hbk Hbi) as (m' & e' & Hcan & Hadd & Hlo & _).
  { fold c. change (2 ^ 52) with 4503599627370496.
    change (2 ^ 53) with 9007199254740992 in Hi3. lia. }
  fold c in Hadd, Hlo. rewrite Hadd.
  destruct (Z.leb_spec e' 971) as [He'|He']; [right|left; done].
  exists m', e'. split; [done|]. split.
  { unfold bounded. rewrite Hcan. apply Z.leb_le. unfold emax, prec. lia. }
  cbv zeta in Hlo. cbn [scaled cond_Zopp] in *.
  change (2 ^ 52) with 4503599627370496 in Hlo. lia.
Qed.

Lemma accumulate_one : accumulate inc 1 = inc.
Proof.
  destruct increment_spec as (mi & ei & Hinc & _).
  simpl. rewrite Hinc. reflexivity.
Qed.

(** As long as every comparison so far said "below the target", the
    accumulated value is finite and has grown by at least half the
    increment at each step. *)
Lemma accumulate_prefix k :
  (1 <= k)%nat ->
  (forall j, (1 <= j <= k)%nat -> ltb (accumulate inc j) T = true) ->
  exists mk ek, accumulate inc k = S754_finite false mk ek /\
    bounded prec emax mk ek = true /\
    (Z.of_nat k + 1) * scaled inc <= 2 * scaled (accumulate inc k) /\
    scaled (accumulate inc k) < t.
Proof.
  intros Hk. induction k as [|k IH]; [lia|]. intros Hall.
  assert (HT : valid T) by exact Hb.
  destruct increment_spec as (mi & ei & Hinc & Hbi & Hi1 & Hi2 & Hi3).
  assert (Hlast : forall mk ek, accumulate inc (S k) = S754_finite false mk ek ->
                  bounded prec emax mk ek = true ->
                  scaled (accumulate inc (S k)) < t).
  { intros mk ek Heq Hbk. specialize (Hall (S k) ltac:(lia)).
    rewrite Heq in *. rewrite ltb_scaled in Hall by done.
    apply bool_decide_eq_true in Hall. exact Hall. }
  destruct (decide (k = 0%nat)) as [->|Hk0].
  - exists mi, ei. rewrite accumulate_one. split; [done|]. split; [done|].
    split; [lia|]. rewrite <- accumulate_one. eapply Hlast; [|exact Hbi].
    rewrite accumulate_one. done.
  - destruct IH as (mk & ek & Hacc & Hbk & Hgrow & Hlt); [lia| |].
    { intros j Hj. apply Hall. lia. }
    rewrite Hacc in Hgrow, Hlt.
    destruct (accumulate_step mk ek Hbk Hlt) as [Hinf|(m' & e' & Hadd & Hb' & Hg')].
    + specialize (Hall (S k) ltac:(lia)). simpl in Hall.
      rewrite Hacc, Hinf in Hall. done.
    + exists m', e'. simpl accumulate. rewrite Hacc, Hadd.
      split; [done|]. split; [done|]. split.
      * rewrite Nat2Z.inj_succ. lia.
      * specialize (Hlast m' e'). simpl accumulate in Hlast.
        rewrite Hacc, Hadd in Hlast. by apply Hlast.
Qed.

Lemma accumulate_stops_pos :
  exists n, (1 <= n <= 251)%nat /\ ltb (accumulate inc n) T = false /\
    forall j, (1 <= j < n)%nat -> ltb (accumulate inc j) T = true.
Proof.
  destruct (prefix_or_stop (fun j => ltb (accumulate inc j) T) 251)
    as [Hall|Hstop]; [exfalso|exact Hstop].
  destruct (accumulate_prefix 251 ltac:(lia) Hall) as (mk & ek & _ & _ & Hgrow & Hlt).
  destruct increment_spec as (mi & ei & Hinc & Hbi & Hi1 & Hi2 & Hi3).
  change (Z.of_nat 251) with 251 in Hgrow. lia.
Qed.

End Accumulate.

Lemma floor_le_mono m1 e1 m2 e2 :
  bounded prec emax m1 e1 = true -> bounded prec emax m2 e2 = true ->
  scaled (S754_finite false m1 e1) <= scaled (S754_finite false m2 e2) ->
  leb (floor (S754_finite false m1 e1)) (floor (S754_finite false m2 e2)) = true.
Proof.
  intros H1 H2 Hle.
  destruct (floor_spec false m1 e1 H1) as (Hv1 & Hf1 & _ & Hs1).
  destruct (floor_spec false m2 e2 H2) as (Hv2 & Hf2 & _ & Hs2).
  rewrite leb_scaled by done. apply bool_decide_eq_true.
  rewrite Hs1, Hs2. pose proof (pow2_pos 1074 ltac:(lia)).
  apply Z.mul_le_mono_nonneg_r; [lia|]. apply Z.div_le_mono; lia.
Qed.

Lemma floor_below m1 e1 y :
  bounded prec emax m1 e1 = true -> valid y -> is_finite y = true ->
  scaled (S754_finite false m1 e1) < scaled y ->
  ltb (floor (S754_finite false m1 e1)) y = true.
Proof.
  intros H1 Hy Hfy Hlt.
  destruct (floor_spec false m1 e1 H1) as (Hv1 & Hf1 & _ & Hs1).
  rewrite ltb_scaled by done. apply bool_decide_eq_true. rewrite Hs1.
  pose proof (pow2_pos 1074 ltac:(lia)).
  pose proof (Z.mul_div_le (scaled (S754_finite false m1 e1)) (2 ^ 1074) ltac:(lia)).
  lia.
Qed.

(** The run of the counter loop for any target that is a valid number and,
    when finite, an integer: it stops after at most 251 additions; until
    then the floors shown are integers below the target and do not
    decrease. *)
Lemma accumulate_run T :
  valid T -> (is_finite T = true -> is_integer T = true) ->
  let inc := div T n125 in
  exists n, (1 <= n <= 251)%nat /\ ltb (accumulate inc n) T = false /\
    (forall j, (1 <= j < n)%nat ->
       ltb (accumulate inc j) T = true /\
       is_integer (floor (accumulate inc j)) = true /\
       ltb (floor (accumulate inc j)) T = true) /\
    (forall j, (1 <= j)%nat -> (S j < n)%nat ->
       leb (floor (accumulate inc j)) (floor (accumulate inc (S j))) = true).
Proof.
  intros HT Hint inc. subst inc.
  destruct T as [s|s| |s m e].
  - exists 1%nat. split; [lia|]. split; [by destruct s|]. split; intros; lia.
  - exists 1%nat. split; [lia|]. split; [by destruct s|]. split; intros; lia.
  - exists 1%nat. split; [lia|]. split; [done|]. split; intros; lia.
  - specialize (Hint eq_refl). unfold valid in HT. cbn [valid_binary] in HT.
    pose proof HT as [Hc _]%andb_prop. destruct (canonical_range _ _ Hc) as [He _].
    destruct s.
    + (* a negative target: the first sum is not below it *)
      exists 1%nat. split; [lia|]. split; [|split; intros; lia].
      destruct (is_integer_elim true m e He Hint) as (k & Hk & Hv).
      destruct (div_n125_spec true m e HT) as (mi & ei & Hbi & Hdiv & Hlo & _).
      { rewrite Hv. pose proof (pow2_pos 1074 ltac:(lia)). nia. }
      cbn [accumulate]. rewrite Hdiv. unfold of_Z. cbn [binary_normalize]. unfold add. cbn [SFadd].
      rewrite ltb_scaled by done. apply bool_decide_eq_false.
      cbn [scaled cond_Zopp]. cbv zeta in Hlo. lia.
    + destruct (accumulate_stops_pos m e HT Hint) as (n & Hn & Hstop & Hall).
      exists n. split; [done|]. split; [done|].
      assert (Hfin : forall j, (1 <= j < n)%nat ->
                exists mk ek, accumulate (div (S754_finite false m e) n125) j
                              = S754_finite false mk ek /\
                  bounded prec emax mk ek = true /\
                  scaled (accumulate (div (S754_finite false m e) n125) j)
                    < scaled (S754_finite false m e)).
      { intros j Hj.
        destruct (accumulate_prefix m e HT Hint j ltac:(lia)) as (mk & ek & H1 & H2 & _ & H3).
        { intros i Hi. apply Hall. lia. }
        exists mk, ek. done. }
      split.
      * intros j Hj. split; [by apply Hall|].
        destruct (Hfin j Hj) as (mk & ek & Hacc & Hbk & Hlt). rewrite Hacc in *.
        split; [by apply floor_spec|]. by apply floor_below.
      * intros j Hj1 Hj2.
        destruct (Hfin j ltac:(lia)) as (mk & ek & Hacc & Hbk & Hlt).
        destruct (Hfin (S j) ltac:(lia)) as (mk' & ek' & Hacc' & Hbk' & Hlt').
        rewrite Hacc, Hacc' in *. apply floor_le_mono; try done.
        cbn [accumulate] in Hacc'. rewrite Hacc in Hacc'.
        destruct (accumulate_step m e HT Hint mk ek Hbk Hlt) as [Hinf|(m' & e' & Hadd & _ & Hg)].
        { rewrite Hinf in Hacc'. done. }
        rewrite Hadd in Hacc'. injection Hacc' as <- <-.
        destruct (increment_spec m e HT Hint) as (mi & ei & _ & _ & _ & _ & Hi3).
        pose proof (pow2_pos 53 ltac:(lia)). lia.
Qed.

(** ** What [parseInt] returns *)

Lemma parseInt_spec x :
  valid (ParseInt.parseInt x) /\
  (is_finite (ParseInt.parseInt x) = true -> is_integer (ParseInt.parseInt x) = true).
Proof.
  unfold ParseInt.parseInt.
  destruct (match ParseInt.trim_start (default "null"%string x) with
            | String "-"%char r => (true, r)
            | String "+"%char r => (false, r)
            | _ => (false, ParseInt.trim_start (default "null"%string x))
            end) as [sign str].
  destruct (match str with
            | String "0"%char (String "x"%char r) => (16, r)
            | String "0"%char (String "X"%char r) => (16, r)
            | _ => (10, str)
            end) as [R str'].
  destruct (ParseInt.parse_digits R str' None) as [[|p|p]|]; try done.
  - destruct (of_Z_spec (cond_Zopp sign (Z.pos p))) as (H1 & _ & H2 & _). done.
  - destruct (of_Z_spec (cond_Zopp sign (Z.neg p))) as (H1 & _ & H2 & _). done.
Qed.

End NumberFacts.

(* ===================================================================== *)
(** * Facts about the document model *)
(* ===================================================================== *)

Module DomFacts.
Import Dom.

Lemma forEach_from_foldl {A St} (f : A -> St -> St) (l : list A) :
  forall i st, forEach_from i (λ x _ st, f x st) l st = foldl (λ st x, f x st) st l.
Proof. induction l as [|x l IH]; intros i st; simpl; [done|]. apply IH. Qed.

Lemma forEach_foldl {A St} (f : A -> St -> St) (l : list A) (st : St) :
  forEach (λ x _ st, f x st) l st = foldl (λ st x, f x st) st l.
Proof. apply forEach_from_foldl. Qed.

Lemma forEach_from_inv {A St} (P : St -> Prop) (f : A -> nat -> St -> St)
  (l : list A) :
  (forall x i st, x ∈ l -> P st -> P (f x i st)) ->
  forall i st, P st -> P (forEach_from i f l st).
Proof.
  induction l as [|x l IH]; intros Hf i st Hst; simpl; [done|].
  apply IH.
  - intros y j st' Hy. apply Hf. by right.
  - apply Hf; [by left|done].
Qed.

Lemma forEach_inv {A St} (P : St -> Prop) (f : A -> nat -> St -> St)
  (l : list A) (st : St) :
  (forall x i st, x ∈ l -> P st -> P (f x i st)) -> P st -> P (forEach f l st).
Proof. intros Hf. by apply forEach_from_inv. Qed.

Lemma forEach_from_app {A St} (f : A -> nat -> St -> St) (l1 l2 : list A) :
  forall i st,
    forEach_from i f (l1 ++ l2) st =
    forEach_from (i + length l1) f l2 (forEach_from i f l1 st).
Proof.
  induction l1 as [|x l1 IH]; intros i st; simpl.
  - by rewrite Nat.add_0_r.
  - rewrite IH. f_equal. lia.
Qed.

Lemma select_from_elem sel d : forall i e,
  e ∈ select_from i sel d <->
  (i <= e)%nat /\ exists n, d !! (e - i)%nat = Some n /\ sel n = true.
Proof.
  induction d as [|n d IH]; intros i e; simpl.
  - split; [by intros ?%elem_of_nil|]. by intros (_ & ? & ? & _).
  - destruct (sel n) eqn:Hn.
    + rewrite elem_of_cons, IH. split.
      * intros [->|(Hle & n' & Hl & Hs)].
        -- split; [lia|]. exists n. by rewrite Nat.sub_diag.
        -- split; [lia|]. exists n'. split; [|done].
           replace (e - i)%nat with (S (e - S i)) by lia. done.
      * intros (Hle & n' & Hl & Hs).
        destruct (decide (e = i)) as [->|Hne]; [by left|right].
        split; [lia|]. exists n'. split; [|done].
        replace (e - i)%nat with (S (e - S i)) in Hl by lia. done.
    + rewrite IH. split.
      * intros (Hle & n' & Hl & Hs). split; [lia|]. exists n'. split; [|done].
        replace (e - i)%nat with (S (e - S i)) by lia. done.
      * intros (Hle & n' & Hl & Hs).
        destruct (decide (e = i)) as [->|Hne].
        { rewrite Nat.sub_diag in Hl. simpl in Hl. congruence. }
        split; [lia|]. exists n'. split; [|done].
        replace (e - i)%nat with (S (e - S i)) in Hl by lia. done.
Qed.

Lemma select_from_NoDup sel d : forall i, NoDup (select_from i sel d).
Proof.
  induction d as [|n d IH]; intros i; simpl; [constructor|].
  destruct (sel n); [|apply IH]. constructor; [|apply IH].
  rewrite select_from_elem. lia.
Qed.

Lemma querySelectorAll_elem sel d e :
  e ∈ querySelectorAll sel d <-> exists n, d !! e = Some n /\ sel n = true.
Proof.
  unfold querySelectorAll. rewrite select_from_elem, Nat.sub_0_r.
  split; [by intros [_ ?]|]. intros H. split; [lia|done].
Qed.

Lemma querySelectorAll_NoDup sel d : NoDup (querySelectorAll sel d).
Proof. apply select_from_NoDup. Qed.

Lemma querySelectorAll_lt sel d e :
  e ∈ querySelectorAll sel d -> (e < length d)%nat.
Proof. intros (n & Hn & _)%querySelectorAll_elem. by eapply lookup_lt_Some. Qed.

(** Altering the nodes at distinct positions, one after the other. *)
Lemma foldl_alter_lookup (g : node -> node) (l : list elem) :
  NoDup l -> forall (d : document) e,
  foldl (λ d i, alter g i d) d l !! e =
  if bool_decide (e ∈ l) then g <$> d !! e else d !! e.
Proof.
  induction 1 as [|i l Hi Hl IH]; intros d e; simpl; [done|].
  rewrite IH. destruct (decide (e = i)) as [->|Hne].
  - rewrite (bool_decide_eq_false_2 _ Hi), bool_decide_eq_true_2 by left.
    by rewrite list_lookup_alter_eq.
  - rewrite list_lookup_alter_ne by done.
    destruct (decide (e ∈ l)) as [He|He].
    + rewrite !bool_decide_eq_true_2; [done|by right|done].
    + rewrite !bool_decide_eq_false_2; [done| |done].
      intros [?|?]%elem_of_cons; done.
Qed.

Lemma token_contains_toggle c l :
  token_contains c (token_toggle c l) = negb (token_contains c l).
Proof.
  unfold token_toggle, token_contains.
  destruct (decide (c ∈ l)) as [Hin|Hin].
  - rewrite (bool_decide_eq_true_2 _ Hin). simpl. apply bool_decide_eq_false_2.
    unfold token_remove. rewrite list_elem_of_filter. by intros [? _].
  - rewrite (bool_decide_eq_false_2 _ Hin). simpl. apply bool_decide_eq_true_2.
    apply elem_of_app. right. by left.
Qed.

Lemma token_contains_add c l : token_contains c (token_add c l) = true.
Proof.
  unfold token_add. destruct (token_contains c l) eqn:E; [done|].
  apply bool_decide_eq_true_2, elem_of_app. right. by left.
Qed.

Lemma token_contains_add_ne c c' l :
  c ≠ c' -> token_contains c (token_add c' l) = token_contains c l.
Proof.
  intros Hne. unfold token_add. destruct (token_contains c' l); [done|].
  unfold token_contains. apply bool_decide_ext.
  rewrite elem_of_app, list_elem_of_singleton.
  split; [intros [?|?]; [done|congruence]|by left].
Qed.

Lemma token_contains_remove c l : token_contains c (token_remove c l) = false.
Proof.
  apply bool_decide_eq_false_2. unfold token_remove.
  rewrite list_elem_of_filter. by intros [? _].
Qed.

Lemma token_contains_remove_ne c c' l :
  c ≠ c' -> token_contains c (token_remove c' l) = token_contains c l.
Proof.
  intros Hne. unfold token_contains, token_remove. apply bool_decide_ext.
  rewrite list_elem_of_filter. split; [by intros [_ ?]|by split].
Qed.

End DomFacts.

(* ===================================================================== *)
(** * Observers and their configuration *)
(* ===================================================================== *)

Module ObserverFacts.
Import Number Dom Observer.

Lemma options_observe e o : options (observe e o) = options o.
Proof. unfold observe. by destruct (bool_decide _). Qed.

Lemma targets_observe_new e o :
  targets (observe e (new_observer o)) = [e].
Proof. reflexivity. Qed.

Lemma elem_of_targets_unobserve x e o :
  x ∈ targets (unobserve e o) <-> x ∈ targets o /\ x ≠ e.
Proof. unfold unobserve. simpl. rewrite list_elem_of_filter. tauto. Qed.

Lemma elem_of_targets_observe x e o :
  x ∈ targets (observe e o) <-> x ∈ targets o \/ x = e.
Proof.
  unfold observe. case_bool_decide as H; simpl.
  - split; [by left|]. intros [?| ->]; done.
  - rewrite elem_of_app, list_elem_of_singleton. tauto.
Qed.

Lemma lazy_options d :
  options (LazyMedia.lazyObserver (LazyMedia.lazyLoadElements d)) = Init None None.
Proof.
  unfold LazyMedia.lazyLoadElements.
  apply (DomFacts.forEach_inv
           (λ st, options (LazyMedia.lazyObserver st) = Init None None)); [|done].
  intros x i st _ Hst. simpl. by rewrite options_observe.
Qed.

Lemma reveal_options d t0 :
  options (Reveal.observer (Reveal.observeElements d t0)) = Reveal.options.
Proof.
  unfold Reveal.observeElements.
  apply (DomFacts.forEach_inv
           (λ st, options (Reveal.observer st) = Reveal.options)); [|done].
  intros x i st _ Hst. simpl. by rewrite options_observe.
Qed.

Lemma counter_options d c :
  c ∈ Counters.closures (Counters.animateCounters d) ->
  options (Counters.observer c) = Init (Some lit_0_5) None.
Proof.
  unfold Counters.animateCounters. simpl.
  intros (e & -> & _)%list_elem_of_fmap. reflexivity.
Qed.

End ObserverFacts.

(* ===================================================================== *)
(** * Claims about the observer configuration *)
(* ===================================================================== *)

(** A page with one counter, one reveal card and one lazy image. *)
Definition sample_page : Dom.document :=
  [ Dom.Node None ["stat-number"%string]
      {[ "data-target"%string := "1280"%string ]} ∅ (Dom.Markup "0") None;
    Dom.Node None ["feature-card"%string] ∅ ∅ (Dom.Markup "") None;
    Dom.Node None [] {[ "data-lazy"%string := "hero.png"%string ]} ∅
      (Dom.Markup "") None ].

(** C7, as stated, fails: on the sample page neither the observer of the
    lazy images nor the observer of a counter has the early-trigger
    configuration (an explicit threshold in [0.1, 0.5] together with a
    negative bottom root margin). *)
Lemma observer_configuration_counterexample :
  Observer.triggers_early
    (Observer.options
       (LazyMedia.lazyObserver (LazyMedia.lazyLoadElements sample_page))) = false
  /\ (λ c, Observer.triggers_early (Observer.options (Counters.observer c)))
       <$> Counters.closures (Counters.animateCounters sample_page) = [false].
Proof. split; vm_compute; reflexivity. Qed.

(** C7, amended: only the reveal observer is configured with both an
    explicit threshold in [0.1, 0.5] (it is 0.1) and a negative bottom
    root margin (-50px).  A counter observer has the threshold 0.5 and no
    root margin; the lazy-media observer is built without options. *)
Theorem observer_configuration (d : Dom.document) (t0 : Z) :
  (let o := Observer.options (Reveal.observer (Reveal.observeElements d t0)) in
   Observer.threshold o = Some Observer.lit_0_1 /\
   (Observer.rootMargin o ≫= Observer.margin_bottom) = Some (-50) /\
   Observer.triggers_early o = true) /\
  (forall c, c ∈ Counters.closures (Counters.animateCounters d) ->
     let o := Observer.options (Counters.observer c) in
     Observer.threshold o = Some Observer.lit_0_5 /\
     Number.leb Observer.lit_0_1 Observer.lit_0_5 = true /\
     Observer.rootMargin o = None /\
     Observer.triggers_early o = false) /\
  (let o := Observer.options
              (LazyMedia.lazyObserver (LazyMedia.lazyLoadElements d)) in
   Observer.threshold o = None /\ Observer.rootMargin o = None /\
   Observer.triggers_early o = false).
Proof.
  split; [|split].
  - rewrite ObserverFacts.reveal_options. by vm_compute.
  - intros c Hc. cbv zeta. rewrite (ObserverFacts.counter_options d c Hc).
    by vm_compute.
  - rewrite ObserverFacts.lazy_options. by vm_compute.
Qed.

(* ===================================================================== *)
(** * Dark mode *)
(* ===================================================================== *)

Module DarkModeFacts.
Import Dom DarkMode.

Lemma string_of_bool_cases b :
  string_of_bool b = "true"%string \/ string_of_bool b = "false"%string.
Proof. destruct b; auto. Qed.

Lemma string_of_bool_true b :
  bool_decide (Some (string_of_bool b) = Some "true"%string) = b.
Proof. by destruct b. Qed.

Lemma on_click_eq st :
  on_click st =
  State (doc st) (token_toggle "dark-mode" (bodyClassList st))
    (<["darkMode"%string := string_of_bool (negb (is_dark st))]> (localStorage st))
    (listening st)
    (accesses st ++ [SetItem "darkMode" (string_of_bool (negb (is_dark st)))]).
Proof.
  unfold on_click, setItem, with_body, is_dark. simpl.
  rewrite DomFacts.token_contains_toggle. reflexivity.
Qed.

Lemma on_click_dark st : is_dark (on_click st) = negb (is_dark st).
Proof. rewrite on_click_eq. apply DomFacts.token_contains_toggle. Qed.

Lemma on_click_storage st :
  localStorage (on_click st) =
  <["darkMode"%string := string_of_bool (negb (is_dark st))]> (localStorage st).
Proof. by rewrite on_click_eq. Qed.

Lemma on_click_accesses st :
  accesses (on_click st) =
  accesses st ++ [SetItem "darkMode" (string_of_bool (negb (is_dark st)))].
Proof. by rewrite on_click_eq. Qed.

Lemma on_click_listening st : listening (on_click st) = listening st.
Proof. reflexivity. Qed.

Lemma initDarkMode_eq d body storage t :
  getElementById "darkModeToggle" d = Some t ->
  initDarkMode (load d body storage) =
  State d
    (if bool_decide (storage !! "darkMode"%string = Some "true"%string)
     then token_add "dark-mode" body else body)
    storage true [GetItem "darkMode"].
Proof.
  intros Ht. unfold initDarkMode, load. simpl. rewrite Ht. simpl.
  by destruct (bool_decide _).
Qed.

End DarkModeFacts.

(** A page whose only element is the dark-mode toggle button. *)
Definition toggle_page : Dom.document :=
  [ Dom.Node None [] {[ "id"%string := "darkModeToggle"%string ]} ∅
      (Dom.Markup "") None ].

(** C5, as stated, fails for the stored value: on a first visit (nothing
    stored, light body) two clicks on the toggle leave the text [false]
    under the key [darkMode], which held nothing before the first
    click. *)
Lemma double_toggle_counterexample :
  let st := DarkMode.initDarkMode (DarkMode.load toggle_page [] ∅) in
  DarkMode.localStorage st !! "darkMode"%string = None /\
  DarkMode.localStorage (DarkMode.click (DarkMode.click st)) !! "darkMode"%string
    = Some "false"%string /\
  DarkMode.localStorage (DarkMode.click (DarkMode.click st))
    ≠ DarkMode.localStorage st.
Proof.
  cbv zeta. split; [by vm_compute|]. split; [by vm_compute|].
  intros H. apply (f_equal (λ m : gmap string string, m !! "darkMode"%string)) in H.
  vm_compute in H. discriminate.
Qed.

(** C5, amended: two clicks on the toggle return the visual state (the
    class [dark-mode] on the body) to what it was, and leave under the key
    [darkMode] the text form of that visual state, which reads back as the
    same preference; the stored value itself is what it was before exactly
    when it already was that text.  The stored preference is read once,
    by the initialisation, and each click writes it once. *)
Theorem double_toggle (st : DarkMode.state) :
  DarkMode.listening st = true ->
  let st2 := DarkMode.click (DarkMode.click st) in
  DarkMode.is_dark st2 = DarkMode.is_dark st /\
  DarkMode.localStorage st2 =
    <["darkMode"%string := DarkMode.string_of_bool (DarkMode.is_dark st)]>
      (DarkMode.localStorage st) /\
  DarkMode.stored_preference st2 = DarkMode.is_dark st /\
  (DarkMode.localStorage st2 = DarkMode.localStorage st <->
   DarkMode.localStorage st !! "darkMode"%string
     = Some (DarkMode.string_of_bool (DarkMode.is_dark st))) /\
  (forall d body storage,
     is_Some (Dom.getElementById "darkModeToggle" d) ->
     DarkMode.accesses (DarkMode.initDarkMode (DarkMode.load d body storage))
       = [DarkMode.GetItem "darkMode"]) /\
  (exists v, DarkMode.accesses (DarkMode.click st)
             = DarkMode.accesses st ++ [DarkMode.SetItem "darkMode" v]).
Proof.
  intros Hl. cbv zeta. unfold DarkMode.click. rewrite Hl.
  rewrite DarkModeFacts.on_click_listening, Hl.
  assert (Hst : DarkMode.localStorage (DarkMode.on_click (DarkMode.on_click st)) =
    <["darkMode"%string := DarkMode.string_of_bool (DarkMode.is_dark st)]>
      (DarkMode.localStorage st)).
  { rewrite !DarkModeFacts.on_click_storage, DarkModeFacts.on_click_dark.
    rewrite negb_involutive. apply insert_insert_eq. }
  split; [|split; [exact Hst|split; [|split; [|split]]]].
  - rewrite !DarkModeFacts.on_click_dark. apply negb_involutive.
  - unfold DarkMode.stored_preference. rewrite Hst, lookup_insert_eq.
    apply DarkModeFacts.string_of_bool_true.
  - rewrite Hst. split.
    + intros <-. by rewrite lookup_insert_eq.
    + intros H. by apply insert_id.
  - intros d body storage [t Ht].
    by rewrite (DarkModeFacts.initDarkMode_eq d body storage t Ht).
  - eexists. apply DarkModeFacts.on_click_accesses.
Qed.

Lemma double_toggle_witness :
  let st := DarkMode.initDarkMode (DarkMode.load toggle_page [] ∅) in
  DarkMode.listening st = true /\
  DarkMode.is_dark (DarkMode.click (DarkMode.click st)) = DarkMode.is_dark st.
Proof.
  cbv zeta. split; [reflexivity|].
  apply (double_toggle (DarkMode.initDarkMode (DarkMode.load toggle_page [] ∅))).
  reflexivity.
Defined.

(** C10: on a page that has the toggle button, the initialisation adds
    the class [dark-mode] to the body exactly when the value stored under
    [darkMode] is the text [true]; with a body that is light in the
    markup, any other stored value (none at all, or the [false] that a
    click ending in the light state has stored) gives light mode; and each
    click stores [true] or [false], the text form of the new visual
    state. *)
Theorem dark_mode_initialization (d : Dom.document) (body : list string)
  (storage : gmap string string) :
  is_Some (Dom.getElementById "darkModeToggle" d) ->
  let st := DarkMode.initDarkMode (DarkMode.load d body storage) in
  DarkMode.bodyClassList st =
    (if bool_decide (storage !! "darkMode"%string = Some "true"%string)
     then Dom.token_add "dark-mode" body else body) /\
  (Dom.token_contains "dark-mode" body = false ->
   (DarkMode.is_dark st = true <->
    storage !! "darkMode"%string = Some "true"%string)) /\
  (forall s, DarkMode.listening s = true ->
     let s' := DarkMode.click s in
     let v := DarkMode.string_of_bool (DarkMode.is_dark s') in
     (v = "true"%string \/ v = "false"%string) /\
     DarkMode.localStorage s' = <["darkMode"%string := v]> (DarkMode.localStorage s) /\
     DarkMode.accesses s' = DarkMode.accesses s ++ [DarkMode.SetItem "darkMode" v] /\
     (DarkMode.is_dark s' = false ->
      Dom.token_contains "dark-mode" body = false ->
      DarkMode.is_dark
        (DarkMode.initDarkMode (DarkMode.load d body (DarkMode.localStorage s')))
      = false)).
Proof.
  intros [t Ht]. cbv zeta.
  rewrite (DarkModeFacts.initDarkMode_eq d body storage t Ht).
  split; [reflexivity|]. split.
  - intros Hb. unfold DarkMode.is_dark. simpl. case_bool_decide as Hs.
    + rewrite DomFacts.token_contains_add. done.
    + rewrite Hb. split; [done|]. intros ?. done.
  - intros s Hs. unfold DarkMode.click. rewrite Hs.
    rewrite DarkModeFacts.on_click_dark.
    split; [apply DarkModeFacts.string_of_bool_cases|].
    split; [apply DarkModeFacts.on_click_storage|].
    split; [apply DarkModeFacts.on_click_accesses|].
    intros Hd Hb.
    rewrite (DarkModeFacts.initDarkMode_eq d body _ t Ht).
    rewrite DarkModeFacts.on_click_storage, lookup_insert_eq.
    rewrite DarkModeFacts.string_of_bool_true, Hd. exact Hb.
Qed.

Lemma dark_mode_initialization_witness :
  is_Some (Dom.getElementById "darkModeToggle" toggle_page) /\
  DarkMode.bodyClassList
    (DarkMode.initDarkMode
       (DarkMode.load toggle_page [] {[ "darkMode"%string := "true"%string ]}))
  = ["dark-mode"%string].
Proof.
  split; [by eexists|].
  pose proof (dark_mode_initialization toggle_page []
                {[ "darkMode"%string := "true"%string ]}) as H.
  destruct H as [H _]; [by eexists|]. exact H.
Defined.

(* ===================================================================== *)
(** * FAQ accordion *)
(* ===================================================================== *)

Module FaqFacts.
Import Dom Faq.

(** What [close_all] does to a node. *)
Definition close (n : node) : node :=
  if has_class "faq-item" n then with_classList (token_remove "active") n else n.

Lemma close_all_lookup d e : close_all d !! e = close <$> d !! e.
Proof.
  unfold close_all.
  rewrite (DomFacts.forEach_foldl (λ item d, classList_remove item "active" d)).
  unfold classList_remove.
  rewrite DomFacts.foldl_alter_lookup by apply DomFacts.querySelectorAll_NoDup.
  destruct (d !! e) as [n|] eqn:Hn; simpl.
  - unfold close. destruct (has_class "faq-item" n) eqn:Hc.
    + rewrite bool_decide_eq_true_2; [done|].
      apply DomFacts.querySelectorAll_elem. eauto.
    + rewrite bool_decide_eq_false_2; [done|].
      intros (n' & Hn' & Hc')%DomFacts.querySelectorAll_elem. congruence.
  - by destruct (bool_decide _).
Qed.

Lemma close_not_active n :
  has_class "faq-item" (close n) && has_class "active" (close n) = false.
Proof.
  unfold close. destruct (has_class "faq-item" n) eqn:Hc.
  - unfold has_class in *. simpl.
    rewrite DomFacts.token_contains_remove. apply andb_false_r.
  - by rewrite Hc.
Qed.

Lemma close_faq_item n : has_class "faq-item" (close n) = has_class "faq-item" n.
Proof.
  unfold close. destruct (has_class "faq-item" n) eqn:Hc; [|done].
  unfold has_class in *. simpl.
  rewrite DomFacts.token_contains_remove_ne by done. done.
Qed.

Lemma active_items_close_all d : active_items (close_all d) = [].
Proof.
  apply elem_of_nil_inv. intros e (n & Hn & Hs)%DomFacts.querySelectorAll_elem.
  rewrite close_all_lookup in Hn. destruct (d !! e) as [n0|]; [|done].
  injection Hn as <-. by rewrite close_not_active in Hs.
Qed.

Lemma active_items_open d p e :
  e ∈ active_items (classList_add p "active" (close_all d)) ->
  e = p /\ p ∈ querySelectorAll (has_class "faq-item") d.
Proof.
  intros (n & Hn & Hs)%DomFacts.querySelectorAll_elem.
  unfold classList_add in Hn. destruct (decide (e = p)) as [->|Hne].
  - split; [done|]. rewrite list_lookup_alter_eq, close_all_lookup in Hn.
    destruct (d !! p) as [n0|] eqn:Hp; [|done]. injection Hn as <-.
    apply DomFacts.querySelectorAll_elem. exists n0. split; [done|].
    apply andb_prop in Hs as [Hs _]. unfold has_class in Hs. simpl in Hs.
    rewrite DomFacts.token_contains_add_ne in Hs by done.
    by rewrite <- close_faq_item.
  - rewrite list_lookup_alter_ne, close_all_lookup in Hn by done.
    destruct (d !! e) as [n0|]; [|done]. injection Hn as <-.
    by rewrite close_not_active in Hs.
Qed.

Lemma open_is_active d p :
  p ∈ querySelectorAll (has_class "faq-item") d ->
  p ∈ active_items (classList_add p "active" (close_all d)).
Proof.
  intros (n & Hn & Hc)%DomFacts.querySelectorAll_elem.
  apply DomFacts.querySelectorAll_elem.
  exists (with_classList (token_add "active") (close n)). split.
  - unfold classList_add. by rewrite list_lookup_alter_eq, close_all_lookup, Hn.
  - unfold has_class. simpl.
    rewrite DomFacts.token_contains_add, DomFacts.token_contains_add_ne by done.
    fold (has_class "faq-item" (close n)). by rewrite close_faq_item, Hc.
Qed.

Lemma at_most_one (l : list elem) (p : elem) :
  NoDup l -> (forall x, x ∈ l -> x = p) -> l = [] \/ l = [p].
Proof.
  intros Hnd Hall. destruct l as [|a [|b l]]; [by left| |].
  - right. f_equal. apply Hall. by left.
  - exfalso. assert (a = p) by (apply Hall; by left).
    assert (b = p) by (apply Hall; right; by left). subst.
    apply NoDup_cons in Hnd as [Hnot _]. apply Hnot. by left.
Qed.

End FaqFacts.

(** A page with two FAQ items, the first one open; the questions are the
    elements 1 and 3. *)
Definition faq_page : Dom.document :=
  [ Dom.Node None ["faq-item"; "active"]%string ∅ ∅ (Dom.Markup "") None;
    Dom.Node (Some 0%nat) ["faq-question"%string] ∅ ∅ (Dom.Markup "") None;
    Dom.Node None ["faq-item"%string] ∅ ∅ (Dom.Markup "") None;
    Dom.Node (Some 2%nat) ["faq-question"%string] ∅ ∅ (Dom.Markup "") None ].

(** C9: after a click on an FAQ question, at most one FAQ item carries
    the class [active].  The listener removes the class from every FAQ
    item and adds it again only to the parent of the clicked question,
    and only if the parent did not carry it before the click: a click on
    the question of an open item leaves no item open, a click on the
    question of a closed item leaves exactly that item open. *)
Theorem faq_at_most_one_active (d d' : Dom.document) (question : Dom.elem) :
  Faq.on_click question d = Some d' ->
  (length (Faq.active_items d') <= 1)%nat /\
  exists faqItem, Dom.parent_of question d = Some faqItem /\
    d' = (if Dom.classList_contains faqItem "active" d
          then Faq.close_all d
          else Dom.classList_add faqItem "active" (Faq.close_all d)) /\
    (Dom.classList_contains faqItem "active" d = true ->
     Faq.active_items d' = []) /\
    (Dom.classList_contains faqItem "active" d = false ->
     faqItem ∈ Dom.querySelectorAll (Dom.has_class "faq-item") d ->
     Faq.active_items d' = [faqItem]).
Proof.
  unfold Faq.on_click. destruct (Dom.parent_of question d) as [p|]; [|done].
  intros [= <-].
  destruct (Dom.classList_contains p "active" d) eqn:Hact; simpl.
  - split; [rewrite FaqFacts.active_items_close_all; simpl; lia|].
    exists p. rewrite Hact. split; [done|]. split; [done|].
    split; [intros _; apply FaqFacts.active_items_close_all|done].
  - assert (Hcases : Faq.active_items
              (Dom.classList_add p "active" (Faq.close_all d)) = [] \/
            Faq.active_items
              (Dom.classList_add p "active" (Faq.close_all d)) = [p]).
    { apply FaqFacts.at_most_one; [apply DomFacts.querySelectorAll_NoDup|].
      intros x Hx. by apply FaqFacts.active_items_open in Hx as [-> _]. }
    split; [destruct Hcases as [-> | ->]; simpl; lia|].
    exists p. rewrite Hact. split; [done|]. split; [done|]. split; [done|].
    intros _ Hp. destruct Hcases as [Hnil|Hone]; [|done].
    apply FaqFacts.open_is_active in Hp. rewrite Hnil in Hp.
    by apply elem_of_nil in Hp.
Qed.

Lemma faq_at_most_one_active_witness :
  let after :=
    [ Dom.Node None ["faq-item"%string] ∅ ∅ (Dom.Markup "") None;
      Dom.Node (Some 0%nat) ["faq-question"%string] ∅ ∅ (Dom.Markup "") None;
      Dom.Node None ["faq-item"; "active"]%string ∅ ∅ (Dom.Markup "") None;
      Dom.Node (Some 2%nat) ["faq-question"%string] ∅ ∅ (Dom.Markup "") None ] in
  Faq.on_click 3 faq_page = Some after /\
  (length (Faq.active_items after) <= 1)%nat.
Proof.
  cbv zeta. split; [vm_compute; reflexivity|].
  eapply (faq_at_most_one_active faq_page _ 3). vm_compute. reflexivity.
Defined.

(* ===================================================================== *)
(** * Batches of intersection entries *)
(* ===================================================================== *)

Module BatchFacts.
Import Dom Observer.

(** The targets of the entries of a batch that are reported
    intersecting, in batch order. *)
Definition fired (entries : list IntersectionObserverEntry) : list elem :=
  entry_target <$> filter (λ x, isIntersecting x = true) entries.

Lemma fired_cons_true x entries :
  isIntersecting x = true -> fired (x :: entries) = entry_target x :: fired entries.
Proof. intros H. unfold fired. by rewrite filter_cons_True. Qed.

Lemma fired_cons_false x entries :
  isIntersecting x = false -> fired (x :: entries) = fired entries.
Proof.
  intros H. unfold fired. rewrite filter_cons_False; [done|]. by rewrite H.
Qed.

Lemma elem_of_fired e entries :
  e ∈ fired entries <->
  exists x, x ∈ entries /\ isIntersecting x = true /\ entry_target x = e.
Proof.
  unfold fired. rewrite list_elem_of_fmap. split.
  - intros (x & -> & [Hx Hin]%list_elem_of_filter). eauto.
  - intros (x & Hin & Hx & <-). exists x. split; [done|].
    by apply list_elem_of_filter.
Qed.

Lemma fired_subseteq e entries :
  e ∈ fired entries -> e ∈ entry_target <$> entries.
Proof.
  intros (x & Hin & _ & <-)%elem_of_fired. apply list_elem_of_fmap. eauto.
Qed.

Lemma fired_NoDup entries :
  NoDup (entry_target <$> entries) -> NoDup (fired entries).
Proof.
  induction entries as [|x entries IH]; [constructor|].
  rewrite fmap_cons. intros [Hx Hnd]%NoDup_cons.
  destruct (isIntersecting x) eqn:E.
  - rewrite fired_cons_true by done. constructor; [|by apply IH].
    intros H%fired_subseteq. done.
  - rewrite fired_cons_false by done. by apply IH.
Qed.

Lemma fired_observed o entries e :
  batch_of o entries -> e ∈ fired entries -> e ∈ targets o.
Proof. intros [_ Hobs] (x & Hin & _ & <-)%elem_of_fired. by apply Hobs. Qed.

(** Unobserving the fired targets one after the other. *)
Lemma filter_fired_cons (e : elem) (l tg : list elem) :
  filter (λ x, x ∉ l) (filter (λ x, x ≠ e) tg) = filter (λ x, x ∉ e :: l) tg.
Proof.
  rewrite list_filter_filter. apply list_filter_iff. intros x.
  rewrite not_elem_of_cons. tauto.
Qed.

Lemma filter_not_nil (tg : list elem) : filter (λ x, x ∉ []) tg = tg.
Proof.
  induction tg as [|a tg IH]; [done|].
  rewrite filter_cons_True by apply not_elem_of_nil. by rewrite IH.
Qed.

Lemma filter_not_app (l1 l2 tg : list elem) :
  filter (λ x, x ∉ l2) (filter (λ x, x ∉ l1) tg) = filter (λ x, x ∉ l1 ++ l2) tg.
Proof.
  rewrite list_filter_filter. apply list_filter_iff. intros x.
  rewrite not_elem_of_app. tauto.
Qed.

(** Observing a list of distinct new elements appends them. *)
Lemma observe_all (l : list elem) : forall o,
  NoDup l -> (forall e, e ∈ l -> e ∉ targets o) ->
  targets (foldl (λ o e, observe e o) o l) = targets o ++ l /\
  options (foldl (λ o e, observe e o) o l) = options o.
Proof.
  induction l as [|a l IH]; intros o Hnd Hnew; simpl.
  - by rewrite app_nil_r.
  - apply NoDup_cons in Hnd as [Ha Hnd].
    assert (Hobs : observe a o = Obs (options o) (targets o ++ [a])).
    { unfold observe. rewrite bool_decide_eq_false_2; [done|].
      apply Hnew. by left. }
    rewrite Hobs. destruct (IH (Obs (options o) (targets o ++ [a]))) as [-> ->].
    + done.
    + intros e He. simpl. rewrite not_elem_of_app, list_elem_of_singleton.
      split; [apply Hnew; by right|]. intros ->. done.
    + simpl. by rewrite <- app_assoc.
Qed.

End BatchFacts.

(* ===================================================================== *)
(** * Lazy media *)
(* ===================================================================== *)

Module LazyFacts.
Import Dom Observer LazyMedia BatchFacts.

Definition registered (d : document) : list elem :=
  querySelectorAll (has_attribute "data-lazy") d.

(** What the callback does to the node of an intersecting target. *)
Definition activate (n : node) : node :=
  with_attributes (delete "data-lazy"%string)
    (with_src (default "null"%string (attributes n !! "data-lazy"%string)) n).

Lemma activate_alter e (d : document) :
  removeAttribute e "data-lazy"
    (set_src e (default "null"%string (getAttribute e "data-lazy" d)) d)
  = alter activate e d.
Proof.
  unfold removeAttribute, set_src. rewrite list_alter_alter_eq.
  apply list_alter_ext; [|done]. intros n Hn. unfold getAttribute.
  rewrite Hn. reflexivity.
Qed.

Lemma lazy_on_intersection_eq entries : forall st,
  on_intersection entries st =
  State (foldl (λ d e, alter activate e d) (doc st) (fired entries))
        (Obs (options (lazyObserver st))
             (filter (λ e, e ∉ fired entries) (targets (lazyObserver st))))
        (activated st ++ fired entries).
Proof.
  unfold on_intersection, forEach. generalize 0%nat.
  induction entries as [|x entries IH]; intros i st; simpl.
  - unfold fired. simpl. rewrite filter_not_nil, app_nil_r.
    by destruct st as [? []].
  - rewrite IH. destruct (isIntersecting x) eqn:E.
    + rewrite fired_cons_true by done. simpl.
      rewrite activate_alter, filter_fired_cons, <- app_assoc. done.
    + rewrite fired_cons_false by done. done.
Qed.

Record inv (d : document) (st : state) : Prop := Inv {
  inv_nodup : NoDup (activated st);
  inv_targets :
    targets (lazyObserver st) = filter (λ e, e ∉ activated st) (registered d);
  inv_doc : forall e,
    doc st !! e =
    if bool_decide (e ∈ activated st) then activate <$> d !! e else d !! e
}.

Lemma lazyLoadElements_eq d :
  lazyLoadElements d = State d (Obs (Init None None) (registered d)) [].
Proof.
  unfold lazyLoadElements, forEach. fold (registered d).
  assert (H : forall l i st,
    forEach_from i
      (λ element (_ : nat) st,
         State (doc st) (observe element (lazyObserver st)) (activated st)) l st
    = State (doc st) (foldl (λ o e, observe e o) (lazyObserver st) l) (activated st)).
  { induction l as [|a l IH]; intros i st; simpl; [by destruct st|]. by rewrite IH. }
  rewrite H. simpl.
  destruct (observe_all (registered d) (new_observer (Init None None))) as [Ht Ho].
  { apply DomFacts.querySelectorAll_NoDup. }
  { intros e _. apply not_elem_of_nil. }
  f_equal. destruct (foldl _ _ _) as [o t]. simpl in *. by subst.
Qed.

Lemma lazy_inv_init d : inv d (lazyLoadElements d).
Proof.
  rewrite lazyLoadElements_eq. split; simpl.
  - constructor.
  - by rewrite filter_not_nil.
  - intros e. done.
Qed.

Lemma inv_step d st entries :
  inv d st -> admissible st entries -> inv d (on_intersection entries st).
Proof.
  intros [Hnd Htg Hdoc] Hadm. pose proof Hadm as [Hnd' Hobs].
  rewrite lazy_on_intersection_eq.
  assert (Hfresh : forall e, e ∈ fired entries -> e ∉ activated st).
  { intros e He. pose proof (fired_observed _ _ _ Hadm He) as Hin.
    rewrite Htg in Hin. by apply list_elem_of_filter in Hin as [? _]. }
  split; simpl.
  - apply NoDup_app. split; [done|]. split; [|by apply fired_NoDup].
    intros e He Hf. by apply (Hfresh e).
  - rewrite Htg. apply filter_not_app.
  - intros e. rewrite DomFacts.foldl_alter_lookup by by apply fired_NoDup.
    rewrite Hdoc. destruct (decide (e ∈ fired entries)) as [Hf|Hf].
    + rewrite (bool_decide_eq_true_2 _ Hf).
      rewrite (bool_decide_eq_false_2 _ (Hfresh e Hf)).
      rewrite bool_decide_eq_true_2; [done|]. apply elem_of_app. by right.
    + rewrite (bool_decide_eq_false_2 _ Hf).
      rewrite (bool_decide_ext (e ∈ activated st ++ fired entries) (e ∈ activated st));
        [done|]. rewrite elem_of_app. tauto.
Qed.

Lemma lazy_reachable_inv d st : reachable d st -> inv d st.
Proof.
  induction 1 as [|st entries _ IH Hadm]; [apply lazy_inv_init|by apply inv_step].
Qed.

End LazyFacts.

(** A page with one lazy image that already shows a placeholder, and one
    ordinary element. *)
Definition lazy_page : Dom.document :=
  [ Dom.Node None [] {[ "data-lazy"%string := "hero.png"%string ]} ∅
      (Dom.Markup "") (Some "placeholder.gif"%string);
    Dom.Node None [] ∅ ∅ (Dom.Markup "") None ].

(** C4: as long as a lazy-media element has not been reported
    intersecting, the script leaves its [src] (and its staging attribute
    [data-lazy]) as the markup has them, and keeps observing it.  In the
    batch that reports it intersecting for the first time, the value of
    [data-lazy] is copied into [src], the attribute [data-lazy] is
    removed, and the element is no longer observed.  ([activated] is the
    list of the elements reported intersecting so far.) *)
Theorem lazy_source_on_first_visibility (d : Dom.document) (st : LazyMedia.state) :
  LazyMedia.reachable d st ->
  (forall e, e ∈ LazyFacts.registered d -> e ∉ LazyMedia.activated st ->
     e ∈ Observer.targets (LazyMedia.lazyObserver st) /\
     Dom.src_of e (LazyMedia.doc st) = Dom.src_of e d /\
     Dom.getAttribute e "data-lazy" (LazyMedia.doc st)
       = Dom.getAttribute e "data-lazy" d) /\
  (forall entries, LazyMedia.admissible st entries ->
     let st' := LazyMedia.on_intersection entries st in
     LazyMedia.activated st' = LazyMedia.activated st ++ BatchFacts.fired entries /\
     forall x, x ∈ entries -> Observer.isIntersecting x = true ->
       let e := Observer.entry_target x in
       e ∈ LazyFacts.registered d /\ (e ∉ LazyMedia.activated st) /\
       (exists v, Dom.getAttribute e "data-lazy" d = Some v /\
                  Dom.src_of e (LazyMedia.doc st') = Some v) /\
       Dom.getAttribute e "data-lazy" (LazyMedia.doc st') = None /\
       e ∉ Observer.targets (LazyMedia.lazyObserver st')).
Proof.
  intros Hreach. pose proof (LazyFacts.lazy_reachable_inv d st Hreach) as [Hnd Htg Hdoc].
  split.
  - intros e Hreg Hact. split; [|split].
    + rewrite Htg. by apply list_elem_of_filter.
    + unfold Dom.src_of. by rewrite Hdoc, bool_decide_eq_false_2.
    + unfold Dom.getAttribute. by rewrite Hdoc, bool_decide_eq_false_2.
  - intros entries Hadm. cbv zeta.
    pose proof (LazyFacts.inv_step d st entries (LazyFacts.Inv d st Hnd Htg Hdoc) Hadm)
      as [Hnd' Htg' Hdoc'].
    assert (Hact : LazyMedia.activated (LazyMedia.on_intersection entries st)
                   = LazyMedia.activated st ++ BatchFacts.fired entries)
      by (rewrite LazyFacts.lazy_on_intersection_eq; done).
    split; [exact Hact|]. intros x Hx Hint.
    assert (Hf : Observer.entry_target x ∈ BatchFacts.fired entries)
      by (apply BatchFacts.elem_of_fired; eauto).
    pose proof (BatchFacts.fired_observed _ _ _ Hadm Hf) as Hobs.
    rewrite Htg in Hobs. apply list_elem_of_filter in Hobs as [Hfresh Hreg].
    assert (Hin' : Observer.entry_target x
                   ∈ LazyMedia.activated (LazyMedia.on_intersection entries st))
      by (rewrite Hact; apply elem_of_app; by right).
    split; [done|]. split; [done|].
    pose proof Hreg as (n & Hn & Hattr)%DomFacts.querySelectorAll_elem.
    unfold Dom.has_attribute in Hattr. apply bool_decide_eq_true in Hattr as [v Hv].
    split; [|split].
    + exists v. split.
      * unfold Dom.getAttribute. by rewrite Hn.
      * unfold Dom.src_of. rewrite Hdoc', bool_decide_eq_true_2, Hn by done.
        simpl. by rewrite Hv.
    + unfold Dom.getAttribute. rewrite Hdoc', bool_decide_eq_true_2, Hn by done.
      simpl. apply lookup_delete_eq.
    + rewrite Htg'. rewrite list_elem_of_filter. intros [Hnot _]. done.
Qed.

Lemma lazy_source_on_first_visibility_witness :
  let st := LazyMedia.lazyLoadElements lazy_page in
  LazyMedia.reachable lazy_page st /\
  Dom.src_of 0 (LazyMedia.doc st) = Dom.src_of 0 lazy_page.
Proof.
  cbv zeta. split; [constructor|].
  destruct (lazy_source_on_first_visibility lazy_page
              (LazyMedia.lazyLoadElements lazy_page)
              (LazyMedia.reach_init lazy_page)) as [H _].
  apply (H 0%nat).
  - vm_compute. by left.
  - vm_compute. apply not_elem_of_nil.
Defined.

(* ===================================================================== *)
(** * Scroll reveal *)
(* ===================================================================== *)

Module RevealFacts.
Import Dom Observer Reveal BatchFacts.

Definition registered (d : document) : list elem :=
  querySelectorAll selector d.

Definition transition_value : string := "opacity 0.6s ease, transform 0.6s ease".

(** What [observeElements] does to the node of a registered element. *)
Definition hide (n : node) : node :=
  with_style (insert "transition"%string transition_value)
    (with_style (insert "transform"%string "translateY(30px)"%string)
       (with_style (insert "opacity"%string "0"%string) n)).

(** What the timeout callback does to the node of its target. *)
Definition show (n : node) : node :=
  with_style (insert "transform"%string "translateY(0)"%string)
    (with_style (insert "opacity"%string "1"%string) n).

(** The timers that the callback adds for a batch delivered at time [t],
    [i] being the index of the first entry. *)
Fixpoint scheduled (t : Z) (i : nat) (entries : list IntersectionObserverEntry)
  : list timer :=
  match entries with
  | [] => []
  | x :: r =>
      if isIntersecting x
      then Timer (t + Z.of_nat i * 100) (entry_target x) :: scheduled t (S i) r
      else scheduled t (S i) r
  end.

Lemma hide_alter e (d : document) :
  set_style e "transition" transition_value
    (set_style e "transform" "translateY(30px)" (set_style e "opacity" "0" d))
  = alter hide e d.
Proof. unfold set_style. by rewrite !list_alter_alter_eq. Qed.

Lemma reveal_alter e (d : document) : reveal e d = alter show e d.
Proof. unfold reveal, set_style. by rewrite list_alter_alter_eq. Qed.

Lemma observeElements_eq d t0 :
  observeElements d t0 =
  State (foldl (λ d e, alter hide e d) d (registered d))
        (Obs options (registered d)) [] t0 [].
Proof.
  unfold observeElements, forEach. fold (registered d).
  assert (H : forall l i st,
    forEach_from i
      (λ element (_ : nat) st,
         State (set_style element "transition" transition_value
                  (set_style element "transform" "translateY(30px)"
                     (set_style element "opacity" "0" (doc st))))
               (observe element (observer st)) (timers st) (now st) (activated st))
      l st
    = State (foldl (λ d e, alter hide e d) (doc st) l)
            (foldl (λ o e, observe e o) (observer st) l)
            (timers st) (now st) (activated st)).
  { induction l as [|a l IH]; intros i st; simpl; [by destruct st|].
    rewrite IH. simpl. by rewrite hide_alter. }
  unfold transition_value in H. rewrite H. simpl.
  destruct (observe_all (registered d) (new_observer options)) as [Ht Ho].
  { apply DomFacts.querySelectorAll_NoDup. }
  { intros e _. apply not_elem_of_nil. }
  f_equal. destruct (foldl _ _ _) as [o t]. simpl in *. by subst.
Qed.

Lemma on_intersection_from entries : forall i st,
  forEach_from i
    (λ entry index st,
       if isIntersecting entry
       then unobserve_in (entry_target entry)
              (setTimeout (entry_target entry) (Z.of_nat index * 100)
                 (log_activation (entry_target entry) st))
       else st)
    entries st =
  State (doc st)
        (Obs (Observer.options (observer st))
             (filter (λ e, e ∉ fired entries) (targets (observer st))))
        (timers st ++ scheduled (now st) i entries)
        (now st)
        (activated st ++ fired entries).
Proof.
  induction entries as [|x entries IH]; intros i st; simpl.
  - unfold fired. simpl. rewrite filter_not_nil, !app_nil_r.
    by destruct st as [? [] ? ? ?].
  - rewrite IH. destruct (isIntersecting x) eqn:E.
    + rewrite fired_cons_true by done. simpl.
      rewrite filter_fired_cons, <- !app_assoc. done.
    + rewrite fired_cons_false by done. done.
Qed.

Lemma reveal_on_intersection_eq entries st :
  on_intersection entries st =
  State (doc st)
        (Obs (Observer.options (observer st))
             (filter (λ e, e ∉ fired entries) (targets (observer st))))
        (timers st ++ scheduled (now st) 0 entries)
        (now st)
        (activated st ++ fired entries).
Proof. apply on_intersection_from. Qed.

Lemma elem_of_scheduled t entries : forall i x,
  x ∈ scheduled t i entries <->
  exists j y, entries !! j = Some y /\ isIntersecting y = true /\
              x = Timer (t + Z.of_nat (i + j) * 100) (entry_target y).
Proof.
  induction entries as [|a entries IH]; intros i x; simpl.
  - split; [by intros ?%elem_of_nil|]. by intros (j & y & ? & _).
  - assert (Hshift : (exists j y, entries !! j = Some y /\ isIntersecting y = true /\
                        x = Timer (t + Z.of_nat (S i + j) * 100) (entry_target y)) ->
                     exists j y, (a :: entries) !! j = Some y /\ isIntersecting y = true /\
                        x = Timer (t + Z.of_nat (i + j) * 100) (entry_target y)).
    { intros (j & y & Hj & Hy & ->). exists (S j), y. split; [done|]. split; [done|].
      do 3 f_equal. lia. }
    destruct (isIntersecting a) eqn:E.
    + rewrite elem_of_cons, IH. split.
      * intros [->|H]; [|by apply Hshift].
        exists 0%nat, a. split; [done|]. split; [done|]. by rewrite Nat.add_0_r.
      * intros (j & y & Hj & Hy & ->). destruct j as [|j]; simpl in Hj.
        -- left. injection Hj as <-. by rewrite Nat.add_0_r.
        -- right. exists j, y. split; [done|]. split; [done|]. do 3 f_equal. lia.
    + rewrite IH. split; [apply Hshift|].
      intros (j & y & Hj & Hy & ->). destruct j as [|j]; simpl in Hj.
      * injection Hj as <-. congruence.
      * exists j, y. split; [done|]. split; [done|]. do 3 f_equal. lia.
Qed.

Lemma scheduled_targets t i entries x :
  x ∈ scheduled t i entries -> timer_target x ∈ fired entries.
Proof.
  intros (j & y & Hj & Hy & ->)%elem_of_scheduled. simpl.
  apply elem_of_fired. exists y. split; [|done]. by eapply list_elem_of_lookup_2.
Qed.

(** The due times of the timers of one batch increase with the position. *)
Lemma scheduled_sorted t entries : forall i,
  Sorted Z.le (due <$> scheduled t i entries) /\
  Forall (λ x, t + Z.of_nat i * 100 <= due x) (scheduled t i entries).
Proof.
  induction entries as [|a entries IH]; intros i; simpl.
  - split; constructor.
  - destruct (IH (S i)) as [Hs Hf].
    assert (Hf' : Forall (λ x, t + Z.of_nat i * 100 <= due x)
                    (scheduled t (S i) entries)).
    { eapply Forall_impl; [exact Hf|]. intros x Hx. simpl in Hx. lia. }
    destruct (isIntersecting a); [|done]. split.
    + simpl. constructor; [done|].
      destruct (scheduled t (S i) entries) as [|b l] eqn:El; simpl; constructor.
      apply Forall_cons in Hf as [Hb _]. simpl. lia.
    + constructor; [simpl; lia|done].
Qed.

Lemma scheduled_all t entries : forall i,
  (forall x, x ∈ entries -> isIntersecting x = true) ->
  due <$> scheduled t i entries =
  (λ j, t + Z.of_nat j * 100) <$> seq i (length entries).
Proof.
  induction entries as [|a entries IH]; intros i Hall; simpl; [done|].
  rewrite (Hall a) by by left. simpl. f_equal. apply IH.
  intros x Hx. apply Hall. by right.
Qed.

(** ** The effect of running timers *)

Definition shown_style (p : string) (old : option string) : option string :=
  if bool_decide (p = "transform"%string) then Some "translateY(0)"%string
  else if bool_decide (p = "opacity"%string) then Some "1"%string
  else old.

Lemma style_show n p : style (show n) !! p = shown_style p (style n !! p).
Proof.
  unfold show, shown_style. simpl.
  case_bool_decide as H1; [subst; by rewrite lookup_insert_eq|].
  rewrite lookup_insert_ne by done.
  case_bool_decide as H2; [subst; by rewrite lookup_insert_eq|].
  by rewrite lookup_insert_ne.
Qed.

Lemma shown_style_idemp p old :
  shown_style p (shown_style p old) = shown_style p old.
Proof. unfold shown_style. by repeat case_bool_decide. Qed.

Lemma foldl_reveal_other (l : list timer) : forall (d : document) e,
  e ∉ timer_target <$> l ->
  foldl (λ d x, reveal (timer_target x) d) d l !! e = d !! e.
Proof.
  induction l as [|x l IH]; intros d e Hnot; simpl; [done|].
  rewrite fmap_cons, not_elem_of_cons in Hnot. destruct Hnot as [Hne Hnot].
  rewrite IH by done. rewrite reveal_alter. by apply list_lookup_alter_ne.
Qed.

Lemma foldl_reveal_style (l : list timer) : forall (d : document) e p,
  e ∈ timer_target <$> l ->
  style_of e p (foldl (λ d x, reveal (timer_target x) d) d l) =
  d !! e ≫= λ n, shown_style p (style n !! p).
Proof.
  induction l as [|x l IH]; intros d e p Hin; simpl.
  - by apply elem_of_nil in Hin.
  - destruct (decide (e ∈ timer_target <$> l)) as [Hl|Hl].
    + rewrite IH by done. rewrite reveal_alter.
      destruct (decide (e = timer_target x)) as [->|Hne].
      * rewrite list_lookup_alter_eq. destruct (d !! timer_target x) as [n|]; [|done].
        change (shown_style p (style (show n) !! p) = shown_style p (style n !! p)).
        by rewrite style_show, shown_style_idemp.
      * by rewrite list_lookup_alter_ne.
    + rewrite fmap_cons in Hin. apply elem_of_cons in Hin as [->|?]; [|done].
      unfold style_of. rewrite foldl_reveal_other by done.
      rewrite reveal_alter, list_lookup_alter_eq.
      destruct (d !! timer_target x) as [n|]; [|done]. apply style_show.
Qed.

Lemma fired_timers_elem t (l : list timer) e :
  e ∈ timer_target <$> merge_sort earlier (filter (λ x, is_due t x = true) l) <->
  exists x, x ∈ l /\ due x <= t /\ timer_target x = e.
Proof.
  rewrite merge_sort_Permutation, list_elem_of_fmap. split.
  - intros (x & -> & [Hd Hx]%list_elem_of_filter). exists x.
    unfold is_due in Hd. apply Z.leb_le in Hd. done.
  - intros (x & Hx & Hd & <-). exists x. split; [done|].
    apply list_elem_of_filter. split; [|done]. unfold is_due. by apply Z.leb_le.
Qed.

(** ** Reachable states *)

Record inv (d : document) (st : state) : Prop := Inv {
  inv_nodup : NoDup (activated st);
  inv_targets :
    targets (observer st) = filter (λ e, e ∉ activated st) (registered d);
  inv_timers : forall x, x ∈ timers st -> timer_target x ∈ activated st;
  inv_doc : forall e, e ∉ activated st ->
    doc st !! e =
    if bool_decide (e ∈ registered d) then hide <$> d !! e else d !! e
}.

Lemma reveal_inv_init d t0 : inv d (observeElements d t0).
Proof.
  rewrite observeElements_eq. split; simpl.
  - constructor.
  - by rewrite filter_not_nil.
  - intros x ?%elem_of_nil. done.
  - intros e _. apply DomFacts.foldl_alter_lookup, DomFacts.querySelectorAll_NoDup.
Qed.

Lemma inv_intersection d st entries :
  inv d st -> batch_of (observer st) entries -> inv d (on_intersection entries st).
Proof.
  intros [Hnd Htg Htm Hdoc] Hadm. rewrite reveal_on_intersection_eq.
  assert (Hfresh : forall e, e ∈ fired entries -> e ∉ activated st).
  { intros e He. pose proof (fired_observed _ _ _ Hadm He) as Hin.
    rewrite Htg in Hin. by apply list_elem_of_filter in Hin as [? _]. }
  destruct Hadm as [Hnd' Hobs]. split; simpl.
  - apply NoDup_app. split; [done|]. split; [|by apply fired_NoDup].
    intros e He Hf. by apply (Hfresh e).
  - rewrite Htg. apply filter_not_app.
  - intros x [Hx|Hx]%elem_of_app; apply elem_of_app.
    + left. by apply Htm.
    + right. by eapply scheduled_targets.
  - intros e He. apply Hdoc. intros ?. apply He, elem_of_app. by left.
Qed.

Lemma inv_advance d st t : inv d st -> inv d (advance t st).
Proof.
  intros [Hnd Htg Htm Hdoc]. split; simpl; try done.
  - intros x [_ Hx]%list_elem_of_filter. by apply Htm.
  - intros e He. rewrite foldl_reveal_other; [by apply Hdoc|].
    intros (x & Hx & _ & <-)%fired_timers_elem. by apply He, Htm.
Qed.

Lemma reveal_reachable_inv d t0 st : reachable d t0 st -> inv d st.
Proof.
  induction 1 as [|st ev _ IH Hadm]; [apply reveal_inv_init|].
  destruct ev as [entries|t]; simpl.
  - by apply inv_intersection.
  - by apply inv_advance.
Qed.

Lemma style_hide n :
  style (hide n) !! "opacity"%string = Some "0"%string /\
  style (hide n) !! "transform"%string = Some "translateY(30px)"%string /\
  style (hide n) !! "transition"%string = Some transition_value.
Proof.
  unfold hide. simpl. split; [|split].
  - rewrite !lookup_insert_ne by done. apply lookup_insert_eq.
  - rewrite lookup_insert_ne by done. apply lookup_insert_eq.
  - apply lookup_insert_eq.
Qed.

End RevealFacts.

Module RevealTiming.
Import Dom Observer Reveal BatchFacts RevealFacts.

Lemma advance_style_due st t e p n :
  (exists x, x ∈ timers st /\ due x <= t /\ timer_target x = e) ->
  doc st !! e = Some n ->
  style_of e p (doc (advance t st)) = shown_style p (style n !! p).
Proof.
  intros Hx Hn. unfold advance. simpl.
  rewrite foldl_reveal_style by by apply fired_timers_elem.
  by rewrite Hn.
Qed.

Lemma advance_style_not_due st t e p :
  ~ (exists x, x ∈ timers st /\ due x <= t /\ timer_target x = e) ->
  style_of e p (doc (advance t st)) = style_of e p (doc st).
Proof.
  intros Hx. unfold advance, style_of. simpl.
  rewrite foldl_reveal_other; [done|]. by rewrite fired_timers_elem.
Qed.

Lemma batch_position entries i j x y :
  NoDup (entry_target <$> entries) ->
  entries !! i = Some x -> entries !! j = Some y ->
  entry_target x = entry_target y -> i = j.
Proof.
  intros Hnd Hi Hj Heq. eapply NoDup_lookup; [exact Hnd| |].
  - rewrite list_lookup_fmap, Hi. reflexivity.
  - rewrite list_lookup_fmap, Hj. simpl. by rewrite Heq.
Qed.

End RevealTiming.

(** A page with three reveal cards. *)
Definition cards_page : Dom.document :=
  [ Dom.Node None ["feature-card"%string] ∅ ∅ (Dom.Markup "") None;
    Dom.Node None ["blog-card"%string] ∅ ∅ (Dom.Markup "") None;
    Dom.Node None ["team-card"%string] ∅ ∅ (Dom.Markup "") None ].

(** C6: when the observer callback receives a batch at time [now], the
    entry at batch position [i], if it is reported intersecting, gets a
    timer due at [now + 100 * i] milliseconds.  Until that time the
    element keeps the style it was registered with (opacity 0, offset
    [translateY(30px)]); from that time on it has opacity 1 and offset
    [translateY(0)]; its transition is 0.6 seconds for both properties.
    The due times of the timers of a batch do not decrease along the
    batch, and when every entry of the batch is reported intersecting
    they are [now], [now + 100], [now + 200], and so on. *)
Theorem reveal_stagger (d : Dom.document) (t0 : Z) (st : Reveal.state)
  (entries : list Observer.IntersectionObserverEntry) :
  Reveal.reachable d t0 st ->
  Observer.batch_of (Reveal.observer st) entries ->
  let st' := Reveal.on_intersection entries st in
  (forall i x, entries !! i = Some x -> Observer.isIntersecting x = true ->
     let e := Observer.entry_target x in
     let start := Reveal.now st + 100 * Z.of_nat i in
     Reveal.Timer start e ∈ Reveal.timers st' /\
     forall t,
       let after := Reveal.doc (Reveal.advance t st') in
       Dom.style_of e "transition" after = Some RevealFacts.transition_value /\
       (t < start ->
        Dom.style_of e "opacity" after = Some "0"%string /\
        Dom.style_of e "transform" after = Some "translateY(30px)"%string) /\
       (start <= t ->
        Dom.style_of e "opacity" after = Some "1"%string /\
        Dom.style_of e "transform" after = Some "translateY(0)"%string)) /\
  Reveal.timers st' =
    Reveal.timers st ++ RevealFacts.scheduled (Reveal.now st) 0 entries /\
  Sorted Z.le (Reveal.due <$> RevealFacts.scheduled (Reveal.now st) 0 entries) /\
  ((forall x, x ∈ entries -> Observer.isIntersecting x = true) ->
   Reveal.due <$> RevealFacts.scheduled (Reveal.now st) 0 entries =
   (λ i, Reveal.now st + 100 * Z.of_nat i) <$> seq 0 (length entries)).
Proof.
  intros Hreach Hadm. cbv zeta.
  pose proof (RevealFacts.reveal_reachable_inv d t0 st Hreach) as [Hnd Htg Htm Hdoc].
  assert (Htimers : Reveal.timers (Reveal.on_intersection entries st) =
            Reveal.timers st ++ RevealFacts.scheduled (Reveal.now st) 0 entries)
    by (rewrite RevealFacts.reveal_on_intersection_eq; done).
  assert (Hdoc' : Reveal.doc (Reveal.on_intersection entries st) = Reveal.doc st)
    by (rewrite RevealFacts.reveal_on_intersection_eq; done).
  split; [|split; [exact Htimers|split]].
  - intros i x Hi Hint.
    replace (100 * Z.of_nat i) with (Z.of_nat i * 100) by lia.
    set (e := Observer.entry_target x).
    set (start := Reveal.now st + Z.of_nat i * 100).
    assert (Hsched : Reveal.Timer start e
                     ∈ RevealFacts.scheduled (Reveal.now st) 0 entries).
    { apply RevealFacts.elem_of_scheduled. exists i, x. done. }
    assert (Hin : Reveal.Timer start e
                  ∈ Reveal.timers (Reveal.on_intersection entries st)).
    { rewrite Htimers. apply elem_of_app. by right. }
    split; [exact Hin|].
    assert (Hf : e ∈ BatchFacts.fired entries).
    { apply BatchFacts.elem_of_fired. exists x.
      split; [by eapply list_elem_of_lookup_2|done]. }
    pose proof (BatchFacts.fired_observed _ _ _ Hadm Hf) as Hobs.
    rewrite Htg in Hobs. apply list_elem_of_filter in Hobs as [Hfresh Hreg].
    pose proof Hreg as (n & Hn & _)%DomFacts.querySelectorAll_elem.
    assert (Hnode : Reveal.doc (Reveal.on_intersection entries st) !! e
                    = Some (RevealFacts.hide n)).
    { rewrite Hdoc', Hdoc, bool_decide_eq_true_2, Hn by done. done. }
    destruct (RevealFacts.style_hide n) as (Hop & Htr & Htn).
    assert (Hearly : forall t, t < start ->
              ~ (exists y, y ∈ Reveal.timers (Reveal.on_intersection entries st) /\
                           Reveal.due y <= t /\ Reveal.timer_target y = e)).
    { intros t Ht (y & Hy & Hdue & Htarget). rewrite Htimers in Hy.
      apply elem_of_app in Hy as [Hy|Hy].
      - apply Hfresh. rewrite <- Htarget. by apply Htm.
      - apply RevealFacts.elem_of_scheduled in Hy as (j & y' & Hj & _ & ->).
        simpl in Hdue, Htarget. destruct Hadm as [Hnd' _].
        assert (j = i); [|subst; unfold start in Ht; simpl in Hdue; lia].
        by eapply (RevealTiming.batch_position entries j i y' x). }
    intros t. cbv zeta.
    destruct (Z_lt_le_dec t start) as [Hlt|Hge].
    + rewrite !(RevealTiming.advance_style_not_due _ t e) by by apply Hearly.
      unfold Dom.style_of. rewrite Hnode. simpl.
      split; [done|]. split; [done|]. intros ?. lia.
    + assert (Hdue : exists y, y ∈ Reveal.timers (Reveal.on_intersection entries st) /\
                               Reveal.due y <= t /\ Reveal.timer_target y = e).
      { exists (Reveal.Timer start e). done. }
      rewrite !(RevealTiming.advance_style_due _ t e _ (RevealFacts.hide n)) by done.
      rewrite Hop, Htr, Htn. split; [done|]. split; [intros ?; lia|done].
  - apply RevealFacts.scheduled_sorted.
  - intros Hall. rewrite RevealFacts.scheduled_all by done.
    apply list_fmap_ext. intros _ i _. lia.
Qed.

Lemma reveal_stagger_witness :
  let st := Reveal.observeElements cards_page 1000 in
  let entries := [Observer.Entry 0 true; Observer.Entry 1 true;
                  Observer.Entry 2 true] in
  Reveal.reachable cards_page 1000 st /\
  Observer.batch_of (Reveal.observer st) entries /\
  Reveal.due <$> RevealFacts.scheduled (Reveal.now st) 0 entries
    = [1000; 1100; 1200].
Proof.
  cbv zeta.
  assert (Hb : Observer.batch_of
                 (Reveal.observer (Reveal.observeElements cards_page 1000))
                 [Observer.Entry 0 true; Observer.Entry 1 true;
                  Observer.Entry 2 true]).
  { split.
    - simpl. repeat constructor; rewrite ?elem_of_cons, ?elem_of_nil; lia.
    - intros x Hx.
      assert (Ht : Observer.targets
                (Reveal.observer (Reveal.observeElements cards_page 1000))
              = [0; 1; 2]%nat) by (vm_compute; reflexivity).
      rewrite Ht. rewrite !elem_of_cons in Hx. rewrite !elem_of_cons.
      destruct Hx as [->|[->|[->|Hx]]]; simpl; auto.
      by apply elem_of_nil in Hx. }
  split; [constructor|]. split; [exact Hb|].
  destruct (reveal_stagger cards_page 1000
              (Reveal.observeElements cards_page 1000)
              [Observer.Entry 0 true; Observer.Entry 1 true; Observer.Entry 2 true]
              (Reveal.reach_init cards_page 1000) Hb) as (_ & _ & _ & H).
  rewrite H; [reflexivity|].
  intros x Hx. rewrite !elem_of_cons in Hx.
  destruct Hx as [->|[->|[->|Hx]]]; try done. by apply elem_of_nil in Hx.
Defined.

(* ===================================================================== *)
(** * Animated counters *)
(* ===================================================================== *)

Module CountersFacts.
Import Number Dom Observer Counters.

Definition registered (d : document) : list elem :=
  querySelectorAll (has_class "stat-number") d.

(** One call of [updateCounter], seen from the closure. *)
Definition next (c : closure) : number := add (current c) (increment c).
Definition continues (c : closure) : bool := ltb (next c) (target c).
Definition display (c : closure) : number :=
  if continues c then floor (next c) else target c.

Lemma updateCounter_eq i st c :
  closures st !! i = Some c ->
  updateCounter i st =
  State (set_textContent (counter c) (Shown (display c)) (doc st))
        (<[i := set_current (next c) c]> (closures st))
        (frameCallbacks st ++ (if continues c then [i] else []))
        (activated st).
Proof.
  intros Hc. unfold updateCounter, display, continues, next. rewrite Hc.
  destruct (ltb _ _); [done|]. by rewrite app_nil_r.
Qed.

Lemma updateCounter_none i st : closures st !! i = None -> updateCounter i st = st.
Proof. intros Hc. unfold updateCounter. by rewrite Hc. Qed.

(** ** What does not change *)

(** Two closures are the same up to the accumulated value. *)
Definition same_code (c c' : closure) : Prop :=
  counter c' = counter c /\ target c' = target c /\
  increment c' = increment c /\ observer c' = observer c.

Lemma updateCounter_activated i st : activated (updateCounter i st) = activated st.
Proof.
  destruct (closures st !! i) as [c|] eqn:Hc.
  - by rewrite (updateCounter_eq i st c Hc).
  - by rewrite updateCounter_none.
Qed.

Lemma updateCounter_counters i st :
  counter <$> closures (updateCounter i st) = counter <$> closures st.
Proof.
  destruct (closures st !! i) as [c|] eqn:Hc.
  - rewrite (updateCounter_eq i st c Hc). simpl.
    rewrite list_fmap_insert. simpl. apply list_insert_id.
    by rewrite list_lookup_fmap, Hc.
  - by rewrite updateCounter_none.
Qed.

Lemma updateCounter_length i st :
  length (doc (updateCounter i st)) = length (doc st).
Proof.
  destruct (closures st !! i) as [c|] eqn:Hc.
  - rewrite (updateCounter_eq i st c Hc). simpl. unfold set_textContent.
    apply length_alter.
  - by rewrite updateCounter_none.
Qed.

Lemma updateCounter_other i j st :
  i ≠ j -> closures (updateCounter i st) !! j = closures st !! j.
Proof.
  intros Hne. destruct (closures st !! i) as [c|] eqn:Hc.
  - rewrite (updateCounter_eq i st c Hc). simpl. by apply list_lookup_insert_ne.
  - by rewrite updateCounter_none.
Qed.

Lemma updateCounter_self i st c :
  closures st !! i = Some c ->
  closures (updateCounter i st) !! i = Some (set_current (next c) c).
Proof.
  intros Hc. rewrite (updateCounter_eq i st c Hc). simpl.
  apply list_lookup_insert_eq. by eapply lookup_lt_Some.
Qed.

Lemma updateCounter_text_other i st e :
  (forall c, closures st !! i = Some c -> counter c ≠ e) ->
  text_of e (doc (updateCounter i st)) = text_of e (doc st).
Proof.
  intros Hne. destruct (closures st !! i) as [c|] eqn:Hc.
  - rewrite (updateCounter_eq i st c Hc). simpl. unfold text_of, set_textContent.
    rewrite list_lookup_alter_ne; [done|]. by apply Hne.
  - by rewrite updateCounter_none.
Qed.

Lemma updateCounter_text_self i st c :
  closures st !! i = Some c -> (counter c < length (doc st))%nat ->
  text_of (counter c) (doc (updateCounter i st)) = Some (Shown (display c)).
Proof.
  intros Hc Hlt. rewrite (updateCounter_eq i st c Hc). simpl.
  unfold text_of, set_textContent. rewrite list_lookup_alter_eq.
  destruct (lookup_lt_is_Some_2 (doc st) (counter c) Hlt) as [n ->]. done.
Qed.

Lemma updateCounter_callbacks i st :
  frameCallbacks (updateCounter i st) =
  frameCallbacks st ++
  match closures st !! i with
  | Some c => if continues c then [i] else []
  | None => []
  end.
Proof.
  destruct (closures st !! i) as [c|] eqn:Hc.
  - by rewrite (updateCounter_eq i st c Hc).
  - by rewrite updateCounter_none, app_nil_r.
Qed.

(** Counters of distinct closures are distinct elements. *)
Lemma distinct_counters st i j ci cj :
  NoDup (counter <$> closures st) ->
  closures st !! i = Some ci -> closures st !! j = Some cj ->
  i ≠ j -> counter ci ≠ counter cj.
Proof.
  intros Hnd Hi Hj Hne Heq. apply Hne.
  eapply NoDup_lookup; [exact Hnd| |].
  - by rewrite list_lookup_fmap, Hi.
  - rewrite list_lookup_fmap, Hj. simpl. by rewrite Heq.
Qed.

(** ** An animation frame *)

Definition run_callbacks (q : list nat) (st : state) : state :=
  foldl (λ st i, updateCounter i st) st q.

Definition clear_callbacks (st : state) : state :=
  State (doc st) (closures st) [] (activated st).

Lemma animationFrame_eq st :
  animationFrame st = run_callbacks (frameCallbacks st) (clear_callbacks st).
Proof. reflexivity. Qed.

(** The counters are distinct elements of the document. *)
Definition wf_counters (st : state) : Prop :=
  NoDup (counter <$> closures st) /\
  forall j c, closures st !! j = Some c -> (counter c < length (doc st))%nat.

Lemma wf_updateCounter i st : wf_counters st -> wf_counters (updateCounter i st).
Proof.
  intros [Hnd Hlt]. split.
  - by rewrite updateCounter_counters.
  - intros j c Hc. rewrite updateCounter_length.
    assert (Hin : counter c ∈ counter <$> closures (updateCounter i st)).
    { apply list_elem_of_fmap. exists c. split; [done|].
      by eapply list_elem_of_lookup_2. }
    rewrite updateCounter_counters in Hin.
    apply list_elem_of_fmap in Hin as (c0 & -> & Hc0).
    apply list_elem_of_lookup in Hc0 as [j0 Hj0]. by eapply Hlt.
Qed.

Lemma run_not_in (q : list nat) i : forall st,
  wf_counters st -> i ∉ q ->
  closures (run_callbacks q st) !! i = closures st !! i /\
  (forall c, closures st !! i = Some c ->
     text_of (counter c) (doc (run_callbacks q st)) = text_of (counter c) (doc st)) /\
  (i ∈ frameCallbacks (run_callbacks q st) <-> i ∈ frameCallbacks st).
Proof.
  induction q as [|a q IH]; intros st Hwf Hnot; simpl; [done|].
  apply not_elem_of_cons in Hnot as [Hne Hnot].
  destruct (IH (updateCounter a st) (wf_updateCounter a st Hwf) Hnot) as (H1 & H2 & H3).
  rewrite updateCounter_other in H1, H2 by done.
  split; [exact H1|]. split.
  - intros c Hc. rewrite (H2 c Hc). apply updateCounter_text_other.
    intros ca Hca. destruct Hwf as [Hnd _].
    by apply (distinct_counters st a i ca c).
  - rewrite H3, updateCounter_callbacks, elem_of_app.
    split; [|by left]. intros [?|Hin]; [done|].
    destruct (closures st !! a) as [ca|]; [|by apply elem_of_nil in Hin].
    destruct (continues ca); [|by apply elem_of_nil in Hin].
    apply list_elem_of_singleton in Hin. congruence.
Qed.

Lemma run_in (q : list nat) i : forall st c,
  wf_counters st -> NoDup q -> i ∈ q -> closures st !! i = Some c ->
  closures (run_callbacks q st) !! i = Some (set_current (next c) c) /\
  text_of (counter c) (doc (run_callbacks q st)) = Some (Shown (display c)) /\
  (i ∈ frameCallbacks (run_callbacks q st) <->
   i ∈ frameCallbacks st \/ continues c = true).
Proof.
  induction q as [|a q IH]; intros st c Hwf Hnd Hin Hc; simpl.
  { by apply elem_of_nil in Hin. }
  apply NoDup_cons in Hnd as [Ha Hnd].
  destruct (decide (a = i)) as [->|Hne].
  - destruct (run_not_in q i (updateCounter i st) (wf_updateCounter i st Hwf) Ha)
      as (H1 & H2 & H3).
    rewrite (updateCounter_self i st c Hc) in H1, H2.
    split; [exact H1|]. split.
    + pose proof (H2 _ eq_refl) as H2'. simpl in H2'. rewrite H2'.
      apply updateCounter_text_self; [done|].
      destruct Hwf as [_ Hlt]. by eapply Hlt.
    + rewrite H3, updateCounter_callbacks, Hc, elem_of_app.
      destruct (continues c).
      * rewrite list_elem_of_singleton. tauto.
      * rewrite elem_of_nil. intuition congruence.
  - apply elem_of_cons in Hin as [?|Hin]; [congruence|].
    destruct (IH (updateCounter a st) c (wf_updateCounter a st Hwf) Hnd Hin)
      as (H1 & H2 & H3).
    { by rewrite updateCounter_other. }
    split; [exact H1|]. split; [exact H2|].
    rewrite H3, updateCounter_callbacks, elem_of_app.
    split; [|tauto]. intros [[?|Hx]|?]; [tauto| |tauto].
    destruct (closures st !! a) as [ca|]; [|by apply elem_of_nil in Hx].
    destruct (continues ca); [|by apply elem_of_nil in Hx].
    apply list_elem_of_singleton in Hx. congruence.
Qed.

Lemma run_stable (q : list nat) : forall st,
  counter <$> closures (run_callbacks q st) = counter <$> closures st /\
  length (doc (run_callbacks q st)) = length (doc st) /\
  activated (run_callbacks q st) = activated st /\
  forall i c', closures (run_callbacks q st) !! i = Some c' ->
    exists c, closures st !! i = Some c /\ same_code c c'.
Proof.
  induction q as [|a q IH]; intros st; simpl.
  { repeat split; try done. intros i c' Hc. exists c'. done. }
  destruct (IH (updateCounter a st)) as (H1 & H2 & H3 & H4).
  rewrite updateCounter_counters in H1. rewrite updateCounter_length in H2.
  rewrite updateCounter_activated in H3.
  split; [done|]. split; [done|]. split; [done|].
  intros i c' Hc'. destruct (H4 i c' Hc') as (c1 & Hc1 & Hs1).
  destruct (decide (a = i)) as [->|Hne].
  - destruct (closures st !! i) as [c|] eqn:Hc.
    + rewrite (updateCounter_self i st c Hc) in Hc1. injection Hc1 as <-.
      exists c. split; [done|]. exact Hs1.
    + rewrite updateCounter_none in Hc1 by done. congruence.
  - rewrite updateCounter_other in Hc1 by done. exists c1. done.
Qed.

Lemma run_callbacks_NoDup (q : list nat) : forall st,
  NoDup (frameCallbacks st ++ q) ->
  NoDup (frameCallbacks (run_callbacks q st)) /\
  forall j, j ∈ frameCallbacks (run_callbacks q st) ->
            j ∈ frameCallbacks st \/ j ∈ q.
Proof.
  induction q as [|a q IH]; intros st Hnd; simpl.
  { rewrite app_nil_r in Hnd. split; [done|]. intros; by left. }
  destruct (IH (updateCounter a st)) as [H1 H2].
  - rewrite updateCounter_callbacks.
    destruct (closures st !! a) as [ca|]; [destruct (continues ca)|].
    + by rewrite <- app_assoc.
    + rewrite app_nil_r. apply NoDup_app in Hnd as (Hf & Hd & Hq).
      apply NoDup_cons in Hq as [_ Hq]. apply NoDup_app. split; [done|].
      split; [|done]. intros x Hx Hxq. apply (Hd x Hx). by right.
    + rewrite app_nil_r. apply NoDup_app in Hnd as (Hf & Hd & Hq).
      apply NoDup_cons in Hq as [_ Hq]. apply NoDup_app. split; [done|].
      split; [|done]. intros x Hx Hxq. apply (Hd x Hx). by right.
  - split; [done|]. intros j Hj. destruct (H2 j Hj) as [Hin|Hin].
    + rewrite updateCounter_callbacks, elem_of_app in Hin.
      destruct Hin as [?|Hin]; [by left|right].
      destruct (closures st !! a) as [ca|]; [|by apply elem_of_nil in Hin].
      destruct (continues ca); [|by apply elem_of_nil in Hin].
      apply list_elem_of_singleton in Hin. subst. by left.
    + right. by right.
Qed.

(** ** Reachable states *)

Definition counter_options : IntersectionObserverInit := Init (Some lit_0_5) None.

Record inv (d : document) (st : state) : Prop := Inv {
  inv_counters : counter <$> closures st = registered d;
  inv_length : length (doc st) = length d;
  inv_callbacks : NoDup (frameCallbacks st);
  inv_activated : NoDup (activated st);
  inv_closure : forall i c, closures st !! i = Some c ->
    target c = ParseInt.parseInt (getAttribute (counter c) "data-target" d) /\
    increment c = div (target c) n125 /\
    observer c =
      Obs counter_options
          (if bool_decide (counter c ∈ activated st) then [] else [counter c]) /\
    (counter c ∉ activated st ->
     current c = of_Z 0 /\ i ∉ frameCallbacks st)
}.

Lemma inv_wf d st : inv d st -> wf_counters st.
Proof.
  intros [Hc Hl _ _ _]. split.
  - rewrite Hc. apply DomFacts.querySelectorAll_NoDup.
  - intros j c Hj. rewrite Hl. apply (DomFacts.querySelectorAll_lt (has_class "stat-number")).
    fold (registered d). rewrite <- Hc. apply list_elem_of_fmap. exists c.
    split; [done|]. by eapply list_elem_of_lookup_2.
Qed.

Lemma counters_inv_init d : inv d (animateCounters d).
Proof.
  unfold animateCounters. fold (registered d). split; simpl.
  - rewrite <- list_fmap_compose. apply list_fmap_id.
  - done.
  - constructor.
  - constructor.
  - intros i c Hc. rewrite list_lookup_fmap in Hc.
    destruct (registered d !! i) as [e|]; [|done]. injection Hc as <-.
    unfold new_closure. cbn [target increment observer current counter].
    unfold duration. rewrite NumberFacts.n125_eq.
    split; [done|]. split; [done|]. split; [done|]. intros _. split; [done|].
    apply not_elem_of_nil.
Qed.

Lemma inv_animationFrame d st : inv d st -> inv d (animationFrame st).
Proof.
  intros Hinv. pose proof (inv_wf d st Hinv) as Hwf.
  destruct Hinv as [Hc Hl Hq Ha Hcl]. rewrite animationFrame_eq.
  destruct (run_stable (frameCallbacks st) (clear_callbacks st)) as (H1 & H2 & H3 & H4).
  destruct (run_callbacks_NoDup (frameCallbacks st) (clear_callbacks st)) as [H5 H6];
    [done|].
  simpl in H1, H2, H3, H4, H6. split.
  - by rewrite H1.
  - by rewrite H2.
  - done.
  - by rewrite H3.
  - intros i c' Hc'. destruct (H4 i c' Hc') as (c & Hci & Hs1 & Hs2 & Hs3 & Hs4).
    destruct (Hcl i c Hci) as (Ht & Hi & Ho & Hn).
    rewrite H3, Hs1, Hs2, Hs3, Hs4. split; [done|]. split; [done|]. split; [done|].
    intros Hna. destruct (Hn Hna) as [Hcur Hnq].
    destruct (run_not_in (frameCallbacks st) i (clear_callbacks st)) as (E1 & _ & E3);
      [done|done|].
    simpl in E1, E3. rewrite E1, Hci in Hc'. injection Hc' as <-.
    split; [done|]. intros Hin. destruct (H6 i Hin) as [Hx|Hx]; [|done].
    by apply elem_of_nil in Hx.
Qed.

(** The batch that the observer of one counter can deliver. *)
Lemma counter_batch o entries e :
  batch_of o entries ->
  (targets o = [] -> entries = []) /\
  (targets o = [e] -> entries = [] \/ exists b, entries = [Entry e b]).
Proof.
  intros [Hnd Hobs]. split.
  - intros Ht. destruct entries as [|x entries]; [done|].
    specialize (Hobs x ltac:(by left)). rewrite Ht in Hobs. by apply elem_of_nil in Hobs.
  - intros Ht. destruct entries as [|x [|y entries]]; [by left| |].
    + right. specialize (Hobs x ltac:(by left)). rewrite Ht in Hobs.
      apply list_elem_of_singleton in Hobs. destruct x as [tx b]. simpl in Hobs.
      subst. by exists b.
    + exfalso. pose proof (Hobs x ltac:(by left)) as Hx.
      pose proof (Hobs y ltac:(right; by left)) as Hy. rewrite Ht in Hx, Hy.
      apply list_elem_of_singleton in Hx, Hy. simpl in Hnd.
      apply NoDup_cons in Hnd as [Hnot _]. apply Hnot. rewrite Hx, Hy. by left.
Qed.

(** The state after the observer callback of closure [i] has handled an
    intersecting entry. *)
Definition start (i : nat) (c : closure) (st : state) : state :=
  State (set_textContent (counter c) (Shown (display c)) (doc st))
        (<[i := Closure (counter c) (target c) (increment c) (next c)
                  (unobserve (counter c) (observer c))]> (closures st))
        (frameCallbacks st ++ (if continues c then [i] else []))
        (activated st ++ [counter c]).

Lemma on_intersection_nil i st : on_intersection i [] st = st.
Proof. reflexivity. Qed.

Lemma on_intersection_hidden i e st : on_intersection i [Entry e false] st = st.
Proof. reflexivity. Qed.

Lemma on_intersection_visible i c st :
  closures st !! i = Some c ->
  on_intersection i [Entry (counter c) true] st = start i c st.
Proof.
  intros Hc. unfold on_intersection, forEach. simpl.
  assert (Hlog : log_activation i st =
                 State (doc st) (closures st) (frameCallbacks st)
                       (activated st ++ [counter c])).
  { unfold log_activation. by rewrite Hc. }
  rewrite Hlog. rewrite (updateCounter_eq i _ c) by done.
  unfold unobserve_in, start. simpl. f_equal.
  rewrite list_insert_alter, list_alter_alter_eq, list_insert_alter.
  apply list_alter_ext; [|done]. intros c0 Hc0. reflexivity.
Qed.

Lemma inv_start d st i c :
  inv d st -> closures st !! i = Some c -> counter c ∉ activated st ->
  inv d (start i c st).
Proof.
  intros Hinv Hc Hna. pose proof (inv_wf d st Hinv) as [Hnd Hlt].
  destruct Hinv as [Hcs Hl Hq Ha Hcl].
  destruct (Hcl i c Hc) as (Ht & Hi & Ho & Hn). destruct (Hn Hna) as [Hcur Hnq].
  split; simpl.
  - rewrite list_fmap_insert. simpl. rewrite list_insert_id; [done|].
    by rewrite list_lookup_fmap, Hc.
  - unfold set_textContent. by rewrite length_alter.
  - destruct (continues c); [|by rewrite app_nil_r].
    apply NoDup_app. split; [done|]. split; [|apply NoDup_singleton].
    intros x Hx ->%list_elem_of_singleton. done.
  - apply NoDup_app. split; [done|]. split; [|apply NoDup_singleton].
    intros x Hx ->%list_elem_of_singleton. done.
  - intros j cj Hj. destruct (decide (j = i)) as [->|Hne].
    + rewrite list_lookup_insert_eq in Hj by by eapply lookup_lt_Some.
      injection Hj as <-. simpl. split; [done|]. split; [done|]. split.
      * rewrite Ho, bool_decide_eq_false_2 by done.
        rewrite bool_decide_eq_true_2 by (apply elem_of_app; right; by left).
        unfold unobserve. simpl. f_equal.
        rewrite filter_cons_False; [done|]. intros H. by apply H.
      * intros H. exfalso. apply H, elem_of_app. right. by left.
    + rewrite list_lookup_insert_ne in Hj by done.
      destruct (Hcl j cj Hj) as (Htj & Hij & Hoj & Hnj).
      pose proof (distinct_counters st j i cj c Hnd Hj Hc Hne) as Hdiff.
      split; [done|]. split; [done|]. split.
      * rewrite Hoj. f_equal.
        rewrite (bool_decide_ext (counter cj ∈ activated st ++ [counter c])
                   (counter cj ∈ activated st)); [done|].
        rewrite elem_of_app, list_elem_of_singleton. tauto.
      * intros Hnaj. destruct Hnj as [Hcj Hqj].
        { intros ?. apply Hnaj, elem_of_app. by left. }
        split; [done|]. rewrite elem_of_app. intros [?|Hx]; [done|].
        destruct (continues c); [|by apply elem_of_nil in Hx].
        apply list_elem_of_singleton in Hx. done.
Qed.

Lemma inv_handle d st ev : inv d st -> admissible st ev -> inv d (handle ev st).
Proof.
  intros Hinv Hadm. destruct ev as [i entries|]; simpl in *.
  - destruct Hadm as (c & Hc & Hb).
    destruct (inv_closure d st Hinv i c Hc) as (_ & _ & Ho & _).
    destruct (counter_batch _ _ (counter c) Hb) as [Hnil Hone].
    rewrite Ho in Hnil, Hone. simpl in Hnil, Hone.
    case_bool_decide as Hact.
    + by rewrite (Hnil eq_refl).
    + destruct (Hone eq_refl) as [->|[[] ->]]; [done| |done].
      rewrite (on_intersection_visible i c st Hc). by apply inv_start.
  - by apply inv_animationFrame.
Qed.

Lemma counters_reachable_inv d st : reachable d st -> inv d st.
Proof.
  induction 1 as [|st ev _ IH Hadm]; [apply counters_inv_init|by apply inv_handle].
Qed.

(** ** The animation of one counter *)

(** Closure [i] has run [updateCounter] [k] times since the closure [c0]
    was activated. *)
Definition running (st : state) (i : nat) (c0 : closure) (k : nat) : Prop :=
  let acc := accumulate (increment c0) k in
  exists c, closures st !! i = Some c /\
    counter c = counter c0 /\ target c = target c0 /\
    increment c = increment c0 /\ current c = acc /\
    (i ∈ frameCallbacks st <-> ltb acc (target c0) = true) /\
    text_of (counter c0) (doc st) =
      Some (Shown (if ltb acc (target c0) then floor acc else target c0)).

Lemma start_running d st i c :
  inv d st -> closures st !! i = Some c -> counter c ∉ activated st ->
  running (start i c st) i c 1.
Proof.
  intros Hinv Hc Hna. pose proof (inv_wf d st Hinv) as [_ Hlt].
  destruct (inv_closure d st Hinv i c Hc) as (_ & _ & _ & Hn).
  destruct (Hn Hna) as [Hcur Hnq].
  assert (Hnext : next c = accumulate (increment c) 1).
  { unfold next. simpl. by rewrite Hcur. }
  unfold running. cbv zeta. rewrite <- Hnext.
  eexists. split.
  { simpl. apply list_lookup_insert_eq. by eapply lookup_lt_Some. }
  simpl. split; [done|]. split; [done|]. split; [done|]. split; [done|]. split.
  - fold (continues c). rewrite elem_of_app. destruct (continues c).
    + split; [done|]. intros _. right. by left.
    + split; [|done]. intros [?|?%elem_of_nil]; done.
  - fold (continues c). fold (display c). unfold text_of, set_textContent.
    rewrite list_lookup_alter_eq.
    destruct (lookup_lt_is_Some_2 (doc st) (counter c) (Hlt i c Hc)) as [n ->]. done.
Qed.

Lemma frame_running d st i c0 k :
  inv d st -> running st i c0 k ->
  running (animationFrame st) i c0
    (if ltb (accumulate (increment c0) k) (target c0) then S k else k).
Proof.
  intros Hinv (c & Hc & Hcnt & Htg & Hinc & Hcur & Hq & Htxt).
  pose proof (inv_wf d st Hinv) as Hwf. rewrite animationFrame_eq.
  destruct (ltb (accumulate (increment c0) k) (target c0)) eqn:Hlt.
  - assert (Hin : i ∈ frameCallbacks st) by by apply Hq.
    destruct (run_in (frameCallbacks st) i (clear_callbacks st) c) as (H1 & H2 & H3);
      [done|by apply (inv_callbacks d)|done|done|].
    assert (Hnext : next c = accumulate (increment c0) (S k)).
    { unfold next. simpl. by rewrite Hcur, Hinc. }
    unfold running. cbv zeta. exists (set_current (next c) c).
    split; [done|]. cbn [counter target increment current set_current].
    split; [done|]. split; [done|]. split; [done|].
    split; [done|]. rewrite <- Hnext, <- Htg. fold (continues c). split.
    + rewrite H3. simpl. rewrite elem_of_nil. tauto.
    + fold (display c). by rewrite <- Hcnt.
  - assert (Hnin : i ∉ frameCallbacks st).
    { intros Hin. apply Hq in Hin. congruence. }
    destruct (run_not_in (frameCallbacks st) i (clear_callbacks st)) as (H1 & H2 & H3);
      [done|done|].
    unfold running. cbv zeta. exists c. split; [by rewrite H1|].
    split; [done|]. split; [done|]. split; [done|]. split; [done|].
    rewrite Hlt. split.
    + rewrite H3. simpl. rewrite elem_of_nil. split; [done|]. discriminate.
    + rewrite <- Hcnt, (H2 c Hc). change (doc (clear_callbacks st)) with (doc st).
      rewrite Hcnt, Htxt. by rewrite ?Hlt.
Qed.

Lemma frames_reachable d st n : reachable d st -> reachable d (frames n st).
Proof.
  intros H. induction n as [|n IH]; [done|].
  unfold frames. rewrite Nat.iter_succ.
  apply (reach_step d _ AnimationFrame); done.
Qed.

(** The whole animation that starts when closure [i] of a reachable state
    is activated: the loop stops after [n] calls of [updateCounter], with
    [n] at most 251, and the floors shown before are integers below the
    target that do not decrease. *)
Lemma animation d st i c :
  reachable d st -> closures st !! i = Some c -> counter c ∉ activated st ->
  let st1 := on_intersection i [Entry (counter c) true] st in
  let acc := accumulate (increment c) in
  exists n, (1 <= n <= 251)%nat /\
    ltb (acc n) (target c) = false /\
    (forall j, (1 <= j < n)%nat ->
       ltb (acc j) (target c) = true /\
       is_integer (floor (acc j)) = true /\
       ltb (floor (acc j)) (target c) = true) /\
    (forall j, (1 <= j)%nat -> (S j < n)%nat ->
       leb (floor (acc j)) (floor (acc (S j))) = true) /\
    forall k, reachable d (frames k st1) /\
              running (frames k st1) i c (Nat.min (S k) n).
Proof.
  intros Hreach Hc Hna. cbv zeta.
  pose proof (counters_reachable_inv d st Hreach) as Hinv.
  destruct (inv_closure d st Hinv i c Hc) as (Ht & Hi & Ho & _).
  destruct (NumberFacts.parseInt_spec (getAttribute (counter c) "data-target" d))
    as [Hvalid Hint].
  rewrite <- Ht in Hvalid, Hint.
  destruct (NumberFacts.accumulate_run (target c) Hvalid Hint)
    as (n & Hn & Hstop & Hrun & Hmono).
  cbv zeta in Hstop, Hrun, Hmono. rewrite <- Hi in Hstop, Hrun, Hmono.
  exists n. split; [done|]. split; [done|]. split; [done|]. split; [done|].
  assert (Hst1 : reachable d (on_intersection i [Entry (counter c) true] st)).
  { apply (reach_step d st (Intersection i [Entry (counter c) true])); [done|].
    exists c. split; [done|]. rewrite Ho, bool_decide_eq_false_2 by done.
    split; simpl.
    - apply NoDup_singleton.
    - intros x ->%list_elem_of_singleton. simpl. by left. }
  intros k. split; [by apply frames_reachable|].
  induction k as [|k IH].
  - simpl frames. rewrite (on_intersection_visible i c st Hc).
    replace (Nat.min 1 n) with 1%nat by lia. by apply (start_running d).
  - unfold frames. rewrite Nat.iter_succ. fold (frames k (on_intersection i [Entry (counter c) true] st)).
    pose proof (counters_reachable_inv d _ (frames_reachable d _ k Hst1)) as Hinvk.
    pose proof (frame_running d _ i c _ Hinvk IH) as Hstep.
    destruct (decide (S k < n)%nat) as [Hlt|Hge].
    + replace (Nat.min (S k) n) with (S k) in Hstep by lia.
      destruct (Hrun (S k) ltac:(lia)) as [Hcont _]. rewrite Hcont in Hstep.
      by replace (Nat.min (S (S k)) n) with (S (S k)) by lia.
    + replace (Nat.min (S k) n) with n in Hstep by lia.
      rewrite Hstop in Hstep.
      by replace (Nat.min (S (S k)) n) with n by lia.
Qed.

End CountersFacts.


(* ===================================================================== *)
(** * The run of one counter animation *)
(* ===================================================================== *)

Module CounterRuns.
Import Number Dom Observer Counters CountersFacts.

Lemma ltb_nan_r x : ltb x NaN = false.
Proof. by destruct x. Qed.

Lemma running_shown st i c k :
  running st i c k ->
  shown i st =
  Some (Shown (if ltb (accumulate (increment c) k) (target c)
               then floor (accumulate (increment c) k) else target c)).
Proof.
  intros (c' & Hc & Hcnt & _ & _ & _ & _ & Htxt).
  unfold shown. rewrite Hc. simpl. by rewrite Hcnt.
Qed.

Lemma running_current st i c k :
  running st i c k ->
  exists c', closures st !! i = Some c' /\
             current c' = accumulate (increment c) k.
Proof. intros (c' & Hc & _ & _ & _ & Hcur & _). by exists c'. Qed.

Lemma running_callback st i c k :
  running st i c k ->
  i ∈ frameCallbacks st <-> ltb (accumulate (increment c) k) (target c) = true.
Proof. by intros (c' & _ & _ & _ & _ & _ & Hq & _). Qed.

(** Activation changes the closure and the text of the activated counter
    only. *)
Lemma start_others i c st :
  (forall j, j ≠ i -> closures (start i c st) !! j = closures st !! j) /\
  (forall e, e ≠ counter c -> text_of e (doc (start i c st)) = text_of e (doc st)).
Proof.
  split.
  - intros j Hj. simpl. by rewrite list_lookup_insert_ne.
  - intros e He. simpl. unfold text_of, set_textContent.
    by rewrite list_lookup_alter_ne.
Qed.

End CounterRuns.

Section CounterClaims.
Import Number Dom Observer Counters CountersFacts CounterRuns.

(** C8: the update loop started by the activation of a counter stops
    after finitely many steps, whatever [parseInt] made of the
    [data-target] attribute (a positive integer, zero, a negative integer,
    an infinity or NaN).  In a reachable state, let closure [i] be
    activated by a batch that reports its counter intersecting.  There is
    a number [n] of calls of [updateCounter], between 1 and 251, such that
    the accumulated value is strictly below the target after each of the
    first [n - 1] calls and is not after call [n]; after [k] animation
    frames the closure holds the value accumulated by [min (k + 1) n]
    calls, and a further call is pending in the browser's callback list
    exactly when [k + 1 < n].  So the recursion stops at the first
    accumulated value that is not strictly less than the target, and
    nothing runs afterwards. *)
Theorem counter_loop_terminates d st i c :
  reachable d st -> closures st !! i = Some c -> counter c ∉ activated st ->
  let st1 := on_intersection i [Entry (counter c) true] st in
  let acc := accumulate (increment c) in
  exists n, (1 <= n <= 251)%nat /\
    ltb (acc n) (target c) = false /\
    (forall j, (1 <= j < n)%nat -> ltb (acc j) (target c) = true) /\
    (forall k, exists c', closures (frames k st1) !! i = Some c' /\
                          current c' = acc (Nat.min (S k) n)) /\
    (forall k, i ∈ frameCallbacks (frames k st1) <-> (S k < n)%nat).
Proof.
  intros Hreach Hc Hna. cbv zeta.
  destruct (animation d st i c Hreach Hc Hna) as (n & Hn & Hstop & Hrun & _ & Hfr).
  cbv zeta in Hfr. exists n. split; [done|]. split; [done|]. split.
  { intros j Hj. by destruct (Hrun j Hj). }
  split.
  - intros k. destruct (Hfr k) as [_ Hk]. by apply running_current.
  - intros k. destruct (Hfr k) as [_ Hk]. rewrite (running_callback _ _ _ _ Hk).
    destruct (decide (S k < n)%nat) as [Hlt|Hge].
    + replace (Nat.min (S k) n) with (S k) by lia.
      destruct (Hrun (S k) ltac:(lia)) as [-> _]. done.
    + replace (Nat.min (S k) n) with n by lia. rewrite Hstop.
      split; [discriminate|lia].
Qed.

Lemma counter_loop_terminates_witness :
  let st1 := on_intersection 0 [Entry 0%nat true] (animateCounters sample_page) in
  exists n, (1 <= n <= 251)%nat /\
    forall k, 0%nat ∈ frameCallbacks (frames k st1) <-> (S k < n)%nat.
Proof.
  cbv zeta.
  destruct (counter_loop_terminates sample_page (animateCounters sample_page)
              0 (new_closure sample_page 0))
    as (n & Hn & _ & _ & _ & Hq).
  - constructor.
  - reflexivity.
  - simpl. apply not_elem_of_nil.
  - exists n. split; [exact Hn|exact Hq].
Defined.

(** C2: a counter whose [data-target] parses to an integer [V] shows,
    once activated, integers strictly below [V] that never decrease, and
    then [V] itself, for good.  In a reachable state, let closure [i] be
    activated; its target is what [parseInt] returned for [data-target].
    There is a number [n] of calls of [updateCounter], at most 251, such
    that: after [k] animation frames with [k + 1 < n] the counter shows an
    integer strictly less than the target; the number shown after frame
    [k + 1] is not less than the one shown after frame [k]; and from frame
    [n - 1] on the counter shows the target, the very number [parseInt]
    returned, not an accumulated sum.  (The statement needs no assumption
    on the target: for a target that is not a positive integer [n] is 1
    and the target is shown at once.) *)
Theorem counter_displayed_values d st i c :
  reachable d st -> closures st !! i = Some c -> counter c ∉ activated st ->
  let st1 := on_intersection i [Entry (counter c) true] st in
  target c = ParseInt.parseInt (getAttribute (counter c) "data-target" d) /\
  exists n, (1 <= n <= 251)%nat /\
    (forall k, (S k < n)%nat ->
       exists v, shown i (frames k st1) = Some (Shown v) /\
                 is_integer v = true /\ ltb v (target c) = true) /\
    (forall k v v', (S (S k) < n)%nat ->
       shown i (frames k st1) = Some (Shown v) ->
       shown i (frames (S k) st1) = Some (Shown v') ->
       leb v v' = true) /\
    (forall k, (n <= S k)%nat ->
       shown i (frames k st1) = Some (Shown (target c))).
Proof.
  intros Hreach Hc Hna. cbv zeta.
  destruct (inv_closure d st (counters_reachable_inv d st Hreach) i c Hc)
    as (Ht & _).
  split; [exact Ht|].
  destruct (animation d st i c Hreach Hc Hna)
    as (n & Hn & Hstop & Hrun & Hmono & Hfr).
  cbv zeta in Hfr.
  assert (Hbefore : forall k, (S k < n)%nat ->
    shown i (frames k (on_intersection i [Entry (counter c) true] st)) =
    Some (Shown (floor (accumulate (increment c) (S k))))).
  { intros k Hk. destruct (Hfr k) as [_ Hr].
    rewrite (running_shown _ _ _ _ Hr).
    replace (Nat.min (S k) n) with (S k) by lia.
    destruct (Hrun (S k) ltac:(lia)) as [-> _]. done. }
  exists n. split; [done|]. split; [|split].
  - intros k Hk. eexists. split; [by apply Hbefore|].
    destruct (Hrun (S k) ltac:(lia)) as (_ & Hi & Hl). done.
  - intros k v v' Hk Hv Hv'.
    rewrite Hbefore in Hv by lia. rewrite Hbefore in Hv' by lia.
    assert (Hvv : v = floor (accumulate (increment c) (S k))) by congruence.
    assert (Hvv' : v' = floor (accumulate (increment c) (S (S k)))) by congruence.
    rewrite Hvv, Hvv'. apply (Hmono (S k)); lia.
  - intros k Hk. destruct (Hfr k) as [_ Hr].
    rewrite (running_shown _ _ _ _ Hr).
    replace (Nat.min (S k) n) with n by lia. by rewrite Hstop.
Qed.

Lemma counter_displayed_values_witness :
  let st1 := on_intersection 0 [Entry 0%nat true] (animateCounters sample_page) in
  exists n, (1 <= n <= 251)%nat /\
    forall k, (n <= S k)%nat -> shown 0 (frames k st1) = Some (Shown (of_Z 1280)).
Proof.
  cbv zeta.
  destruct (counter_displayed_values sample_page (animateCounters sample_page)
              0 (new_closure sample_page 0))
    as (_ & n & Hn & _ & _ & Hfinal).
  - constructor.
  - reflexivity.
  - simpl. apply not_elem_of_nil.
  - exists n. split; [exact Hn|exact Hfinal].
Defined.

(** The scenario of the counter configured with the target 1280: the
    activation shows 10, the first animation frame 20, frame 123 shows
    1269, frame 124 shows 1280 and requests no further frame. *)
Example counter_1280 :
  let st1 := on_intersection 0 [Entry 0%nat true] (animateCounters sample_page) in
  shown 0 (frames 0 st1) = Some (Shown (of_Z 10)) /\
  shown 0 (frames 1 st1) = Some (Shown (of_Z 20)) /\
  shown 0 (frames 123 st1) = Some (Shown (of_Z 1269)) /\
  frameCallbacks (frames 123 st1) = [0%nat] /\
  shown 0 (frames 124 st1) = Some (Shown (of_Z 1280)) /\
  frameCallbacks (frames 124 st1) = [].
Proof. vm_compute. repeat split; reflexivity. Qed.

(** A page with a counter that has no [data-target], a counter whose
    [data-target] is not a number, and a well-formed counter. *)
Definition malformed_page : document :=
  [ Node None ["stat-number"%string] ∅ ∅ (Markup "0") None;
    Node None ["stat-number"%string]
      {[ "data-target"%string := "many"%string ]} ∅ (Markup "0") None;
    Node None ["stat-number"%string]
      {[ "data-target"%string := "12"%string ]} ∅ (Markup "0") None ].

(** C3, as stated, fails: a counter whose [data-target] is missing or is
    not a number does not fall back to showing 0.  On the page above the
    activation of either malformed counter writes the target itself, NaN,
    into the counter. *)
Lemma malformed_target_counterexample :
  let st := animateCounters malformed_page in
  let missing := on_intersection 0 [Entry 0%nat true] st in
  let unparsable := on_intersection 1 [Entry 1%nat true] st in
  (shown 0 missing = Some (Shown NaN) /\
  shown 0 missing <> Some (Shown (of_Z 0))) /\
  (shown 1 unparsable = Some (Shown NaN) /\
  shown 1 unparsable <> Some (Shown (of_Z 0))).
Proof. vm_compute. repeat split; try reflexivity; discriminate. Qed.

(** C3, amended: a counter whose [data-target] is missing or does not
    start with an integer has the target NaN.  Its activation, in a
    reachable state, runs [updateCounter] once: the counter shows NaN (the
    target itself, not 0) and keeps showing it in every later animation
    frame, no animation frame is requested (there is no loop), the counter
    joins the activated ones, and the closures (targets, accumulated
    values, observers) and the texts of all other counters are untouched,
    so that they are activated as before. *)
Theorem malformed_target_activation d st i c :
  reachable d st -> closures st !! i = Some c -> counter c ∉ activated st ->
  ParseInt.parseInt (getAttribute (counter c) "data-target" d) = NaN ->
  let st1 := on_intersection i [Entry (counter c) true] st in
  target c = NaN /\
  (forall k, shown i (frames k st1) = Some (Shown NaN)) /\
  frameCallbacks st1 = frameCallbacks st /\
  activated st1 = activated st ++ [counter c] /\
  (forall j, j ≠ i -> closures st1 !! j = closures st !! j) /\
  (forall e, e ≠ counter c -> text_of e (doc st1) = text_of e (doc st)).
Proof.
  intros Hreach Hc Hna Hnan. cbv zeta.
  destruct (inv_closure d st (counters_reachable_inv d st Hreach) i c Hc)
    as (Ht & _).
  rewrite Hnan in Ht. split; [exact Ht|].
  destruct (animation d st i c Hreach Hc Hna) as (n & Hn & _ & Hrun & _ & Hfr).
  cbv zeta in Hfr.
  assert (Hone : n = 1%nat).
  { destruct (decide (n = 1%nat)) as [|Hne]; [done|].
    destruct (Hrun 1%nat ltac:(lia)) as [Hlt _].
    rewrite Ht, ltb_nan_r in Hlt. discriminate. }
  subst n. split.
  { intros k. destruct (Hfr k) as [_ Hr]. rewrite (running_shown _ _ _ _ Hr).
    by rewrite Ht, ltb_nan_r. }
  rewrite (on_intersection_visible i c st Hc).
  destruct (start_others i c st) as [Hcl Htx].
  split; [|split; [done|split; [exact Hcl|exact Htx]]].
  simpl. unfold continues. by rewrite Ht, ltb_nan_r, app_nil_r.
Qed.

Lemma malformed_target_activation_witness :
  let st := animateCounters malformed_page in
  let st1 := on_intersection 0 [Entry 0%nat true] st in
  (forall k, shown 0 (frames k st1) = Some (Shown NaN)) /\
  frameCallbacks st1 = [] /\
  closures st1 !! 2%nat = closures st !! 2%nat.
Proof.
  cbv zeta.
  destruct (malformed_target_activation malformed_page
              (animateCounters malformed_page) 0 (new_closure malformed_page 0))
    as (_ & Hshown & Hq & _ & Hcl & _).
  - constructor.
  - reflexivity.
  - simpl. apply not_elem_of_nil.
  - vm_compute. reflexivity.
  - split; [exact Hshown|]. split; [exact Hq|]. apply Hcl. discriminate.
Defined.

End CounterClaims.


(* ===================================================================== *)
(** * One activation per entry *)
(* ===================================================================== *)

Module ActivationFacts.
Import Dom Observer BatchFacts.

(** The entries a counter event reports intersecting. *)
Definition counter_fired (ev : Counters.event) : list elem :=
  match ev with
  | Counters.Intersection _ entries => fired entries
  | Counters.AnimationFrame => []
  end.


Lemma counters_log d st ev :
  CountersFacts.inv d st -> Counters.admissible st ev ->
  Counters.activated (Counters.handle ev st) =
  Counters.activated st ++ counter_fired ev.
Proof.
  intros Hinv Hadm. destruct ev as [i entries|]; simpl in *.
  - destruct Hadm as (c & Hc & Hb).
    destruct (CountersFacts.inv_closure d st Hinv i c Hc) as (_ & _ & Ho & _).
    destruct (CountersFacts.counter_batch _ _ (Counters.counter c) Hb) as [Hnil Hone].
    rewrite Ho in Hnil, Hone. simpl in Hnil, Hone.
    case_bool_decide as Hact.
    + rewrite (Hnil eq_refl). by rewrite app_nil_r.
    + destruct (Hone eq_refl) as [->|[[] ->]].
      * by rewrite app_nil_r.
      * by rewrite (CountersFacts.on_intersection_visible i c st Hc).
      * by rewrite app_nil_r.
  - rewrite CountersFacts.animationFrame_eq, app_nil_r.
    by destruct (CountersFacts.run_stable (Counters.frameCallbacks st)
                   (CountersFacts.clear_callbacks st)) as (_ & _ & -> & _).
Qed.



End ActivationFacts.




(** A decidable proposition about given data, settled by evaluation. *)
Ltac by_compute := apply (bool_decide_unpack _); vm_compute; exact I.

(* ===================================================================== *)
(** * Further properties of the dark-mode toggle *)
(* ===================================================================== *)

Module DarkModeSession.
Import Dom DarkMode.

Lemma click_on st : listening st = true -> click st = on_click st.
Proof. intros Hl. unfold click. by rewrite Hl. Qed.

Lemma clicks_listening n st :
  listening st = true -> listening (Nat.iter n click st) = true.
Proof.
  intros Hl. induction n as [|n IH]; [done|].
  rewrite Nat.iter_succ, click_on by done. exact IH.
Qed.

Lemma clicks_dark n st :
  listening st = true ->
  is_dark (Nat.iter n click st) = xorb (is_dark st) (Nat.odd n).
Proof.
  intros Hl. induction n as [|n IH].
  - simpl. by rewrite xorb_false_r.
  - rewrite Nat.iter_succ, click_on by (by apply clicks_listening).
    rewrite DarkModeFacts.on_click_dark, IH, Nat.odd_succ, <- Nat.negb_odd.
    by destruct (is_dark st), (Nat.odd n).
Qed.

Lemma clicks_stored n st :
  listening st = true -> (1 <= n)%nat ->
  localStorage (Nat.iter n click st) !! "darkMode"%string =
  Some (string_of_bool (is_dark (Nat.iter n click st))).
Proof.
  intros Hl Hn. destruct n as [|n]; [lia|].
  rewrite Nat.iter_succ, click_on by (by apply clicks_listening).
  rewrite DarkModeFacts.on_click_storage, DarkModeFacts.on_click_dark.
  apply lookup_insert_eq.
Qed.

Lemma clicks_storage_other n st k :
  k ≠ "darkMode"%string ->
  localStorage (Nat.iter n click st) !! k = localStorage st !! k.
Proof.
  intros Hk. induction n as [|n IH]; [done|].
  rewrite Nat.iter_succ. unfold click at 1.
  destruct (listening (Nat.iter n click st)); [|done].
  rewrite DarkModeFacts.on_click_storage, lookup_insert_ne by done. exact IH.
Qed.

End DarkModeSession.

(** X19: Dark mode across a reload.  On a page with the toggle button, let
    the user click the button [n] times and then load the page again
    with what the clicks left in local storage.  The clicks flip the
    mode each time.  If the body does not carry [dark-mode] in the
    markup, the reloaded page comes up in the mode the user left; if the
    markup carries the class, the reloaded page is dark whatever was
    stored.  The clicks write no key but [darkMode]. *)
Theorem dark_mode_survives_reload (d : Dom.document) (body : list string)
  (storage : gmap string string) (n : nat) :
  is_Some (Dom.getElementById "darkModeToggle" d) ->
  let st0 := DarkMode.initDarkMode (DarkMode.load d body storage) in
  let st := Nat.iter n DarkMode.click st0 in
  let st' := DarkMode.initDarkMode
               (DarkMode.load d body (DarkMode.localStorage st)) in
  DarkMode.is_dark st = xorb (DarkMode.is_dark st0) (Nat.odd n) /\
  (Dom.token_contains "dark-mode" body = false ->
   DarkMode.is_dark st' = DarkMode.is_dark st) /\
  (Dom.token_contains "dark-mode" body = true -> DarkMode.is_dark st' = true) /\
  (forall k, k ≠ "darkMode"%string ->
     DarkMode.localStorage st !! k = storage !! k).
Proof.
  intros [t Ht]. cbv zeta.
  assert (Hl : DarkMode.listening
                 (DarkMode.initDarkMode (DarkMode.load d body storage)) = true).
  { by rewrite (DarkModeFacts.initDarkMode_eq d body storage t Ht). }
  split; [by apply DarkModeSession.clicks_dark|].
  rewrite (DarkModeFacts.initDarkMode_eq d body _ t Ht).
  split; [|split].
  - intros Hb. unfold DarkMode.is_dark at 1. simpl.
    destruct n as [|n].
    + simpl. rewrite (DarkModeFacts.initDarkMode_eq d body storage t Ht).
      reflexivity.
    + rewrite DarkModeSession.clicks_stored by (done || lia).
      rewrite DarkModeFacts.string_of_bool_true.
      destruct (DarkMode.is_dark _) eqn:Hd.
      * apply DomFacts.token_contains_add.
      * exact Hb.
  - intros Hb. unfold DarkMode.is_dark. simpl.
    destruct (bool_decide _); [apply DomFacts.token_contains_add|exact Hb].
  - intros k Hk. rewrite DarkModeSession.clicks_storage_other by done.
    by rewrite (DarkModeFacts.initDarkMode_eq d body storage t Ht).
Qed.

Lemma dark_mode_survives_reload_witness :
  let st := Nat.iter 3 DarkMode.click
              (DarkMode.initDarkMode (DarkMode.load toggle_page [] ∅)) in
  DarkMode.is_dark st = true /\
  DarkMode.is_dark
    (DarkMode.initDarkMode
       (DarkMode.load toggle_page [] (DarkMode.localStorage st))) = true.
Proof.
  cbv zeta.
  destruct (dark_mode_survives_reload toggle_page [] ∅ 3) as (H1 & H2 & _).
  - by eexists.
  - split; [exact H1|]. rewrite (H2 eq_refl). exact H1.
Defined.


(* ===================================================================== *)
(** * Further properties of the FAQ accordion *)
(* ===================================================================== *)

Module FaqSession.
Import Dom Faq.

(** A series of clicks on questions; an exception in a listener leaves
    the document as it is, and the series stops there. *)
Fixpoint clicks (questions : list elem) (d : document) : option document :=
  match questions with
  | [] => Some d
  | question :: rest => on_click question d ≫= clicks rest
  end.

(** What a click may change in a node: the class [active], and nothing
    else; and it takes [active] only from FAQ items. *)
Definition kept (n n' : node) : Prop :=
  parentElement n' = parentElement n /\ attributes n' = attributes n /\
  style n' = style n /\ textContent n' = textContent n /\ src n' = src n /\
  (forall c, c ≠ "active"%string -> has_class c n' = has_class c n) /\
  (has_class "faq-item" n = false -> has_class "active" n = true ->
   has_class "active" n' = true).

Lemma kept_refl n : kept n n.
Proof. unfold kept. tauto. Qed.

Lemma kept_trans n1 n2 n3 : kept n1 n2 -> kept n2 n3 -> kept n1 n3.
Proof.
  intros (A1 & A2 & A3 & A4 & A5 & A6 & A7) (B1 & B2 & B3 & B4 & B5 & B6 & B7).
  split; [congruence|]. split; [congruence|]. split; [congruence|].
  split; [congruence|]. split; [congruence|]. split.
  - intros c Hc. by rewrite B6, A6.
  - intros Hf Ha. apply B7; [|by apply A7]. by rewrite A6.
Qed.

Lemma kept_close n : kept n (FaqFacts.close n).
Proof.
  unfold FaqFacts.close. destruct (has_class "faq-item" n) eqn:Hf;
    [|apply kept_refl].
  split; [done|]. split; [done|]. split; [done|]. split; [done|].
  split; [done|]. split.
  - intros c Hc. unfold has_class. simpl.
    by apply DomFacts.token_contains_remove_ne.
  - intros Hf'. congruence.
Qed.

Lemma kept_add n : kept n (with_classList (token_add "active") n).
Proof.
  split; [done|]. split; [done|]. split; [done|]. split; [done|].
  split; [done|]. split.
  - intros c Hc. unfold has_class. simpl. by apply DomFacts.token_contains_add_ne.
  - intros _ _. unfold has_class. simpl. apply DomFacts.token_contains_add.
Qed.

Lemma on_click_kept question d d' e n :
  on_click question d = Some d' -> d !! e = Some n ->
  exists n', d' !! e = Some n' /\ kept n n'.
Proof.
  unfold on_click. destruct (parent_of question d) as [p|]; [|done].
  intros [= <-] Hn.
  assert (Hc : close_all d !! e = Some (FaqFacts.close n))
    by by rewrite FaqFacts.close_all_lookup, Hn.
  destruct (negb (classList_contains p "active" d)).
  - unfold classList_add. destruct (decide (e = p)) as [->|Hne].
    + rewrite list_lookup_alter_eq, Hc. simpl. eexists. split; [done|].
      eapply kept_trans; [apply kept_close|apply kept_add].
    + rewrite list_lookup_alter_ne, Hc by done. eexists. split; [done|].
      apply kept_close.
  - eexists. split; [exact Hc|apply kept_close].
Qed.

Lemma on_click_length question d d' :
  on_click question d = Some d' -> length d' = length d.
Proof.
  unfold on_click. destruct (parent_of question d) as [p|]; [|done].
  intros [= <-].
  assert (Hl : length (close_all d) = length d).
  { unfold close_all. apply DomFacts.forEach_inv; [|done].
    intros x i st _ <-. unfold classList_remove. apply length_alter. }
  destruct (negb _); [|done]. unfold classList_add. by rewrite length_alter.
Qed.

End FaqSession.

(** X7: What the FAQ accordion never does.  After any series of clicks on
    questions, the document has the same elements, and every element has
    the parent, the attributes, the style, the text and the source it
    had; its class list differs at most in the class [active].  The
    class [active] is only ever taken from FAQ items: an element without
    the class [faq-item] that is open stays open, so a question whose
    parent is not an FAQ item opens its parent on the first click and no
    later click closes it. *)
Theorem faq_clicks_keep (d d' : Dom.document) (questions : list Dom.elem) :
  FaqSession.clicks questions d = Some d' ->
  length d' = length d /\
  forall e n, d !! e = Some n ->
    exists n', d' !! e = Some n' /\
      Dom.parentElement n' = Dom.parentElement n /\
      Dom.attributes n' = Dom.attributes n /\
      Dom.style n' = Dom.style n /\
      Dom.textContent n' = Dom.textContent n /\
      Dom.src n' = Dom.src n /\
      (forall c, c ≠ "active"%string -> Dom.has_class c n' = Dom.has_class c n) /\
      (Dom.has_class "faq-item" n = false -> Dom.has_class "active" n = true ->
       Dom.has_class "active" n' = true).
Proof.
  revert d. induction questions as [|q qs IH]; intros d; simpl.
  - intros [= <-]. split; [done|]. intros e n Hn. exists n. split; [done|].
    apply FaqSession.kept_refl.
  - destruct (Faq.on_click q d) as [d1|] eqn:Hq; [|done]. simpl. intros Hrest.
    destruct (IH d1 Hrest) as [Hlen Hnodes]. split.
    + rewrite Hlen. by eapply FaqSession.on_click_length.
    + intros e n Hn.
      destruct (FaqSession.on_click_kept q d d1 e n Hq Hn) as (n1 & Hn1 & Hk1).
      destruct (Hnodes e n1 Hn1) as (n' & Hn' & Hk2).
      exists n'. split; [done|].
      apply (FaqSession.kept_trans n n1 n'); [exact Hk1|exact Hk2].
Qed.

(** A page whose second question sits in an element that is not an FAQ
    item. *)
Definition loose_faq_page : Dom.document :=
  [ Dom.Node None ["faq-item"%string] ∅ ∅ (Dom.Markup "") None;
    Dom.Node (Some 0%nat) ["faq-question"%string] ∅ ∅ (Dom.Markup "") None;
    Dom.Node None ["card"%string] ∅ ∅ (Dom.Markup "") None;
    Dom.Node (Some 2%nat) ["faq-question"%string] ∅ ∅ (Dom.Markup "") None ].

Lemma faq_clicks_keep_witness :
  exists d', FaqSession.clicks [3; 1; 3]%nat loose_faq_page = Some d' /\
    length d' = 4%nat /\
    Dom.classList_contains 2 "active" d' = true.
Proof.
  eexists. split; [reflexivity|].
  destruct (faq_clicks_keep loose_faq_page _ [3; 1; 3]%nat eq_refl) as [Hlen _].
  split; [exact Hlen|reflexivity].
Defined.


(* ===================================================================== *)
(** * Further properties of lazy media *)
(* ===================================================================== *)

Module LazyForGood.
Import Dom Observer LazyMedia BatchFacts.


End LazyForGood.




(* ===================================================================== *)
(** * The life of a reveal element *)
(* ===================================================================== *)

Module RevealLife.
Import Dom Observer Reveal BatchFacts RevealFacts.










End RevealLife.




(* ===================================================================== *)
(** * Counters among other events *)
(* ===================================================================== *)

Module CounterInterleaving.
Import Number Dom Observer Counters CountersFacts CounterRuns.

(** A series of events, each one delivered in the state the previous
    ones have left. *)
Definition run (events : list event) (st : state) : state :=
  foldl (λ st ev, handle ev st) st events.

Fixpoint all_admissible (events : list event) (st : state) : Prop :=
  match events with
  | [] => True
  | ev :: rest => admissible st ev /\ all_admissible rest (handle ev st)
  end.

Definition is_frame (ev : event) : bool :=
  match ev with
  | AnimationFrame => true
  | Intersection _ _ => false
  end.

Definition count_frames (events : list event) : nat :=
  length (filter (λ ev, is_frame ev = true) events).

Lemma run_reachable d events : forall st,
  reachable d st -> all_admissible events st -> reachable d (run events st).
Proof.
  induction events as [|ev events IH]; intros st Hreach Hadm; [done|].
  destruct Hadm as [Hev Hrest]. apply IH; [|done]. by apply reach_step.
Qed.

(** A batch for the observer of another counter leaves a running
    animation as it is. *)
Lemma running_intersection d st i c k j entries :
  inv d st -> counter c ∈ activated st -> running st i c k ->
  admissible st (Intersection j entries) ->
  running (on_intersection j entries st) i c k.
Proof.
  intros Hinv Hact Hr (cj & Hcj & Hb).
  destruct (inv_closure d st Hinv j cj Hcj) as (_ & _ & Ho & _).
  destruct (counter_batch _ _ (counter cj) Hb) as [Hnil Hone].
  rewrite Ho in Hnil, Hone. simpl in Hnil, Hone.
  case_bool_decide as Hactj.
  { by rewrite (Hnil eq_refl). }
  destruct (Hone eq_refl) as [->|[[] ->]]; [done| |done].
  rewrite (on_intersection_visible j cj st Hcj).
  destruct Hr as (c' & Hc' & Hcnt & Htg & Hinc & Hcur & Hq & Htxt).
  assert (Hne : counter cj ≠ counter c) by (intros Heq; by rewrite Heq in Hactj).
  assert (Hji : j ≠ i).
  { intros ->. rewrite Hcj in Hc'. injection Hc' as ->. by rewrite Hcnt in Hne. }
  destruct (start_others j cj st) as [Hcl Htx].
  exists c'. split; [by rewrite Hcl|]. split; [done|]. split; [done|].
  split; [done|]. split; [done|]. split.
  - rewrite <- Hq. simpl. rewrite elem_of_app.
    destruct (continues cj); [|rewrite elem_of_nil; tauto].
    rewrite list_elem_of_singleton. split; [intros [?|?]; [done|congruence]|tauto].
  - rewrite Htx by done. exact Htxt.
Qed.

Lemma activated_grows d st ev e :
  inv d st -> admissible st ev -> e ∈ activated st -> e ∈ activated (handle ev st).
Proof.
  intros Hinv Hadm He. rewrite (ActivationFacts.counters_log d st ev Hinv Hadm).
  apply elem_of_app. by left.
Qed.

Lemma count_frames_frame events :
  count_frames (AnimationFrame :: events) = S (count_frames events).
Proof. reflexivity. Qed.

Lemma count_frames_intersection j entries events :
  count_frames (Intersection j entries :: events) = count_frames events.
Proof. reflexivity. Qed.

(** An animation that stops at call [n] goes on by one call at each
    animation frame, whatever else happens in between. *)
Lemma run_running d i c n :
  (1 <= n)%nat ->
  ltb (accumulate (increment c) n) (target c) = false ->
  (forall j, (1 <= j < n)%nat ->
     ltb (accumulate (increment c) j) (target c) = true) ->
  forall events st k,
    reachable d st -> counter c ∈ activated st ->
    running st i c (Nat.min (S k) n) ->
    all_admissible events st ->
    running (run events st) i c (Nat.min (S (k + count_frames events)) n).
Proof.
  intros Hn Hstop Hrun.
  induction events as [|ev events IH]; intros st k Hreach Hact Hr Hadm.
  - simpl. by rewrite Nat.add_0_r.
  - destruct Hadm as [Hev Hrest].
    pose proof (counters_reachable_inv d st Hreach) as Hinv.
    assert (Hreach' : reachable d (handle ev st)) by by apply reach_step.
    assert (Hact' : counter c ∈ activated (handle ev st))
      by by apply (activated_grows d).
    destruct ev as [j entries|].
    + rewrite count_frames_intersection. apply IH; try done.
      by apply (running_intersection d).
    + rewrite count_frames_frame.
      replace (k + S (count_frames events))%nat
        with (S k + count_frames events)%nat by lia.
      apply IH; try done.
      change (handle AnimationFrame st) with (animationFrame st).
      pose proof (frame_running d st i c _ Hinv Hr) as Hstep.
      destruct (decide (S k < n)%nat) as [Hlt|Hge].
      * replace (Nat.min (S k) n) with (S k) in Hstep by lia.
        rewrite (Hrun (S k)) in Hstep by lia.
        by replace (Nat.min (S (S k)) n) with (S (S k)) by lia.
      * replace (Nat.min (S k) n) with n in Hstep by lia.
        rewrite Hstop in Hstep.
        by replace (Nat.min (S (S k)) n) with n by lia.
Qed.

End CounterInterleaving.

(** X5: A counter animation does not depend on what else happens on the
    page.  Let a counter be activated in a reachable state, and let any
    series of events follow that the browser can deliver: animation
    frames, and batches for the observers of the counters, which may
    activate other counters.  What the counter shows then, the value its
    closure has accumulated, and whether its next call is pending, are
    what they are after the animation frames of the series alone. *)
Theorem counter_animation_alone (d : Dom.document) (st : Counters.state)
  (i : nat) (c : Counters.closure) (events : list Counters.event) :
  Counters.reachable d st -> Counters.closures st !! i = Some c ->
  Counters.counter c ∉ Counters.activated st ->
  let st1 := Counters.on_intersection i
               [Observer.Entry (Counters.counter c) true] st in
  CounterInterleaving.all_admissible events st1 ->
  let busy := CounterInterleaving.run events st1 in
  let quiet := Counters.frames (CounterInterleaving.count_frames events) st1 in
  Counters.shown i busy = Counters.shown i quiet /\
  (exists cb cq, Counters.closures busy !! i = Some cb /\
                 Counters.closures quiet !! i = Some cq /\
                 Counters.current cb = Counters.current cq) /\
  (i ∈ Counters.frameCallbacks busy <-> i ∈ Counters.frameCallbacks quiet).
Proof.
  intros Hreach Hc Hna. cbv zeta. intros Hadm.
  destruct (CountersFacts.animation d st i c Hreach Hc Hna)
    as (n & Hn & Hstop & Hrun & _ & Hfr).
  cbv zeta in Hfr.
  destruct (Hfr 0%nat) as [Hreach1 Hr1].
  change (Counters.frames 0 ?s) with s in Hreach1, Hr1.
  destruct (Hfr (CounterInterleaving.count_frames events)) as [_ Hquiet].
  assert (Hact1 : Counters.counter c ∈ Counters.activated
            (Counters.on_intersection i
               [Observer.Entry (Counters.counter c) true] st)).
  { rewrite (CountersFacts.on_intersection_visible i c st Hc). simpl.
    apply elem_of_app. right. by left. }
  pose proof (CounterInterleaving.run_running d i c n ltac:(lia) Hstop
                (λ j Hj, proj1 (Hrun j Hj)) events _ 0%nat Hreach1 Hact1 Hr1 Hadm)
    as Hbusy.
  rewrite Nat.add_0_l in Hbusy. split; [|split].
  - rewrite (CounterRuns.running_shown _ _ _ _ Hbusy).
    by rewrite (CounterRuns.running_shown _ _ _ _ Hquiet).
  - destruct (CounterRuns.running_current _ _ _ _ Hbusy) as (cb & Hcb & Hb).
    destruct (CounterRuns.running_current _ _ _ _ Hquiet) as (cq & Hcq & Hq).
    exists cb, cq. split; [done|]. split; [done|]. congruence.
  - rewrite (CounterRuns.running_callback _ _ _ _ Hbusy).
    by rewrite (CounterRuns.running_callback _ _ _ _ Hquiet).
Qed.

(** A page with two counters. *)
Definition two_counters_page : Dom.document :=
  [ Dom.Node None ["stat-number"%string]
      {[ "data-target"%string := "1280"%string ]} ∅ (Dom.Markup "0") None;
    Dom.Node None ["stat-number"%string]
      {[ "data-target"%string := "50"%string ]} ∅ (Dom.Markup "0") None ].

Lemma counter_animation_alone_witness :
  let st1 := Counters.on_intersection 0 [Observer.Entry 0%nat true]
               (Counters.animateCounters two_counters_page) in
  let events := [Counters.AnimationFrame;
                 Counters.Intersection 1 [Observer.Entry 1%nat true];
                 Counters.AnimationFrame] in
  Counters.shown 0 (CounterInterleaving.run events st1)
  = Counters.shown 0 (Counters.frames 2 st1).
Proof.
  cbv zeta.
  destruct (counter_animation_alone two_counters_page
              (Counters.animateCounters two_counters_page) 0
              (Counters.new_closure two_counters_page 0)
              [Counters.AnimationFrame;
               Counters.Intersection 1 [Observer.Entry 1%nat true];
               Counters.AnimationFrame]) as (Hshown & _).
  - constructor.
  - reflexivity.
  - simpl. apply not_elem_of_nil.
  - split; [exact I|]. split; [|split; exact I].
    eexists. split; [vm_compute; reflexivity|]. split.
    + apply NoDup_singleton.
    + intros x Hx. apply list_elem_of_singleton in Hx. subst x. simpl. by left.
  - exact Hshown.
Defined.


(* ===================================================================== *)
(** * What the counters leave alone *)
(* ===================================================================== *)

Module CounterFrame.
Import Number Dom Observer Counters CountersFacts.








End CounterFrame.




(* ===================================================================== *)
(** * How many frames a counter animation takes *)
(* ===================================================================== *)

(** The bounds of the previous analysis are sharpened: the quotient by
    125 and each sum are within a relative error of [2^-51] of their
    exact values.  A target that is a positive integer is then reached
    by the 125th or the 126th sum, and not before. *)
Module FrameCount.
Import Number NumberFacts.

(** A target that is not above zero, or not finite: the first sum is not
    below it. *)
Lemma first_sum_not_below T :
  valid T -> (is_finite T = true -> is_integer T = true) ->
  ltb (of_Z 0) T = false \/ is_finite T = false ->
  ltb (accumulate (div T n125) 1) T = false.
Proof.
  intros HT Hint Hcase. destruct T as [s|s| |s m e].
  - by destruct s.
  - by destruct s.
  - done.
  - specialize (Hint eq_refl). unfold valid in HT. cbn [valid_binary] in HT.
    pose proof HT as [Hc _]%andb_prop. destruct (canonical_range _ _ Hc) as [He _].
    destruct s; [|by destruct Hcase].
    destruct (is_integer_elim true m e He Hint) as (k & Hk & Hv).
    destruct (div_n125_spec true m e HT) as (mi & ei & Hbi & Hdiv & Hlo & _).
    { rewrite Hv. pose proof (pow2_pos 1074 ltac:(lia)). nia. }
    cbn [accumulate]. rewrite Hdiv. unfold of_Z. cbn [binary_normalize].
    unfold add. cbn [SFadd].
    rewrite ltb_scaled by done. apply bool_decide_eq_false.
    cbn [scaled cond_Zopp]. cbv zeta in Hlo. lia.
Qed.

Lemma div_n125_tight s m1 e1 :
  bounded prec emax m1 e1 = true ->
  2 ^ 1074 <= Z.pos m1 * 2 ^ (e1 + 1074) ->
  exists m e, bounded prec emax m e = true /\
    div (S754_finite s m1 e1) n125 = S754_finite s m e /\
    let t := Z.pos m1 * 2 ^ (e1 + 1074) in
    let V := Z.pos m * 2 ^ (e + 1074) in
    (125 * V - t) * 2 ^ 51 <= t /\ (t - 125 * V) * 2 ^ 51 <= t.
Proof.
  intros Hb Hge.
  destruct (normal_of_ge_one _ _ Hb Hge) as (Hd & He & Hm).
  change (2 ^ 52) with 4503599627370496 in Hm.
  change (2 ^ 53) with 9007199254740992 in Hm.
  unfold div, n125. cbn [SFdiv]. rewrite SFdiv_core_n125 by lia.
  rewrite xorb_false_r.
  set (q := 128 * Z.pos m1 / 125).
  set (lx := new_location _ _).
  assert (Hq : 125 * q <= 128 * Z.pos m1 < 125 * q + 125).
  { unfold q. pose proof (Z.div_mod (128 * Z.pos m1) 125 ltac:(lia)).
    pose proof (Z.mod_pos_bound (128 * Z.pos m1) 125 ltac:(lia)). lia. }
  assert (Hq1 : 4503599627370496 <= q < 2 * 9007199254740992) by lia.
  assert (Hdq : Zdigits2 q = 53 \/ Zdigits2 q = 54).
  { rewrite Zdigits2_log2 by lia.
    assert (52 <= Z.log2 q) by (apply Z.log2_le_pow2; [lia|simpl; lia]).
    assert (Z.log2 q < 54) by (apply Z.log2_lt_pow2; [lia|simpl; lia]). lia. }
  destruct (binary_round_aux_spec s q (e1 - 7) lx) as (m1r & Hc & _ & Hres);
    [lia|fexp_lia|].
  set (n := fexp (prec) (emax) (Zdigits2 q + (e1 - 7)) - (e1 - 7)) in *.
  assert (Hn : n = Zdigits2 q - 53) by (unfold n; fexp_lia).
  set (m' := q / 2 ^ n) in *.
  assert (Hm' : 4503599627370496 <= m' /\ m' * 2 ^ n <= q < (m' + 1) * 2 ^ n
                /\ (2 ^ n = 1 \/ 2 ^ n = 2) /\ m' < 9007199254740992).
  { unfold m'. destruct Hdq as [Hdq|Hdq]; rewrite Hn, Hdq.
    - change (2 ^ (53 - 53)) with 1. rewrite Z.div_1_r.
      assert (Z.log2 q < 53) by (rewrite Zdigits2_log2 in Hdq; lia).
      assert (q < 2 ^ 53) by (apply Z.log2_lt_pow2; lia).
      change (2 ^ 53) with 9007199254740992 in *. lia.
    - change (2 ^ (54 - 53)) with 2.
      pose proof (Z.div_mod q 2 ltac:(lia)).
      pose proof (Z.mod_pos_bound q 2 ltac:(lia)).
      assert (53 <= Z.log2 q) by (rewrite Zdigits2_log2 in Hdq; lia).
      assert (2 ^ 53 <= q) by (apply Z.log2_le_pow2; lia).
      change (2 ^ 53) with 9007199254740992 in *. lia. }
  destruct Hm' as (Hm'1 & Hm'2 & HN & Hm'3).
  destruct Hres as [[H0 _]|(m & e & Hcan & Hle & Hval & Hr)]; [lia|].
  assert (Hediff : e - (e1 - 7 + n) = 0 \/ e - (e1 - 7 + n) = 1).
  { destruct (canonical_range _ _ Hcan) as (_ & _ & Hd53).
    specialize (Hd53 ltac:(lia)).
    pose proof (Zdigits2_bounds (Z.pos m) eq_refl) as [Hlo _]. rewrite Hd53 in Hlo.
    change (2 ^ (53 - 1)) with 4503599627370496 in Hlo.
    destruct (Z_lt_le_dec (e - (e1 - 7 + n)) 2) as [?|Hbig]; [lia|exfalso].
    assert (2 ^ 2 <= 2 ^ (e - (e1 - 7 + n))) by (apply Z.pow_le_mono_r; lia).
    change (2 ^ 2) with 4 in *. nia. }
  assert (Hele : e <= 971) by lia.
  exists m, e. split.
  { unfold bounded. rewrite Hcan. apply Z.leb_le. unfold emax, prec. lia. }
  split.
  { rewrite Hr. destruct (Z.leb_spec e (emax - prec)); [done|]. unfold emax, prec in *. lia. }
  cbv zeta.
  pose proof (pow2_pos (e1 - 7 + 1074) ltac:(lia)) as HW.
  assert (Ht : Z.pos m1 * 2 ^ (e1 + 1074) = 128 * Z.pos m1 * 2 ^ (e1 - 7 + 1074)).
  { replace (e1 + 1074) with (7 + (e1 - 7 + 1074)) by lia.
    rewrite pow2_split by lia. change (2 ^ 7) with 128. ring. }
  assert (HV : Z.pos m * 2 ^ (e + 1074) = m1r * 2 ^ n * 2 ^ (e1 - 7 + 1074)).
  { rewrite <- Hval. replace (e + 1074) with (e - (e1 - 7 + n) + (n + (e1 - 7 + 1074))) by lia.
    rewrite !pow2_split by lia. ring. }
  rewrite Ht, HV. set (W := 2 ^ (e1 - 7 + 1074)) in *.
  set (X := m1r * 2 ^ n) in *.
  change (2 ^ 51) with 2251799813685248.
  assert (Hnum : (125 * X - 128 * Z.pos m1) * 2251799813685248 <= 128 * Z.pos m1 /\
                 (128 * Z.pos m1 - 125 * X) * 2251799813685248 <= 128 * Z.pos m1).
  { unfold X. destruct HN as [HN|HN]; rewrite HN in *; destruct Hc as [-> | ->]; lia. }
  destruct Hnum as [Hn1 Hn2]. split.
  - replace ((125 * (X * W) - 128 * Z.pos m1 * W) * 2251799813685248)
      with ((125 * X - 128 * Z.pos m1) * 2251799813685248 * W) by ring.
    apply Z.mul_le_mono_nonneg_r; lia.
  - replace ((128 * Z.pos m1 * W - 125 * (X * W)) * 2251799813685248)
      with ((128 * Z.pos m1 - 125 * X) * 2251799813685248 * W) by ring.
    apply Z.mul_le_mono_nonneg_r; lia.
Qed.

Lemma accumulate_S inc k : accumulate inc (S k) = add (accumulate inc k) inc.
Proof. reflexivity. Qed.

Section Tight.
Variables (m : positive) (e : Z).
Hypothesis Hb : bounded prec emax m e = true.
Hypothesis Hint : is_integer (S754_finite false m e) = true.

Let T : number := S754_finite false m e.
Let inc : number := div T n125.
Let t : Z := scaled T.
Let I : Z := scaled inc.

Lemma target_below_overflow : t < 2 ^ 52 * 2 ^ 2046.
Proof.
  pose proof (bounded_mant_lt m e Hb) as Hm.
  pose proof Hb as [Hc He%Z.leb_le]%andb_prop.
  destruct (canonical_range _ _ Hc) as [Hlo _].
  unfold t, T. cbn [scaled cond_Zopp].
  unfold emax, prec in He.
  assert (H1 : Z.pos m * 2 ^ (e + 1074) < 2 ^ 53 * 2 ^ (e + 1074)).
  { apply Z.mul_lt_mono_pos_r; [apply pow2_pos; lia|done]. }
  assert (H2 : 2 ^ (e + 1074) <= 2 ^ 2045) by (apply Z.pow_le_mono_r; lia).
  assert (H3 : 2 ^ 53 * 2 ^ (e + 1074) <= 2 ^ 53 * 2 ^ 2045).
  { apply Z.mul_le_mono_nonneg_l; [|done]. pose proof (pow2_pos 53); lia. }
  assert (H4 : 2 ^ 53 * 2 ^ 2045 = 2 ^ 52 * 2 ^ 2046).
  { rewrite <- !Z.pow_add_r by lia. done. }
  lia.
Qed.

Lemma inc_tight :
  exists mi ei, inc = S754_finite false mi ei /\ bounded prec emax mi ei = true /\
    (125 * I - t) * 2 ^ 51 <= t /\ (t - 125 * I) * 2 ^ 51 <= t /\
    2 ^ 53 <= I /\ 0 < t.
Proof.
  pose proof (target_ge_one m e Hb Hint) as Ht.
  destruct (div_n125_tight false m e Hb) as (mi & ei & Hbi & Hdiv & Hlo & Hhi).
  { exact Ht. }
  destruct (increment_spec m e Hb Hint) as (mi' & ei' & _ & _ & _ & _ & Hi3).
  exists mi, ei. unfold I, inc, t, T in *. rewrite Hdiv in *.
  split; [done|]. split; [done|]. cbv zeta in Hlo, Hhi.
  cbn [scaled cond_Zopp] in *.
  split; [done|]. split; [done|]. split; [done|].
  pose proof (pow2_pos 1074 ltac:(lia)). lia.
Qed.

(** One addition: the sum is within [2^-52] of its exact value, and it
    overflows only to a value above the target. *)
Lemma step_tight mk ek :
  bounded prec emax mk ek = true ->
  let c := S754_finite false mk ek in
  exists V, (scaled c + I - V) * 2 ^ 52 <= scaled c + I /\
            (V - (scaled c + I)) * 2 ^ 52 <= scaled c + I /\
            0 < scaled c /\
    ((add c inc = S754_infinity false /\ t < V) \/
     (exists m' e', add c inc = S754_finite false m' e' /\
        bounded prec emax m' e' = true /\
        V = scaled (S754_finite false m' e'))).
Proof.
  intros Hbk c.
  destruct inc_tight as (mi & ei & Hinc & Hbi & _ & _ & Hi3 & _).
  unfold I in *. rewrite Hinc in *.
  pose proof Hbk as [Hck _]%andb_prop. destruct (canonical_range _ _ Hck) as [Hek _].
  pose proof (scaled_fin_pos mk ek Hek) as Hcpos. fold c in Hcpos.
  destruct (add_pos_spec mk ek mi ei Hbk Hbi) as (m' & e' & Hcan & Hadd & Hlo & Hhi).
  { fold c. change (2 ^ 52) with 4503599627370496.
    change (2 ^ 53) with 9007199254740992 in Hi3. lia. }
  fold c in Hadd, Hlo, Hhi. cbv zeta in Hlo, Hhi.
  exists (Z.pos m' * 2 ^ (e' + 1074)).
  split; [exact Hlo|]. split; [exact Hhi|]. split; [exact Hcpos|].
  rewrite Hadd.
  destruct (Z.leb_spec e' 971) as [He'|He']; [right|left].
  - exists m', e'. split; [done|]. split; [|done].
    unfold bounded. rewrite Hcan. apply Z.leb_le. unfold emax, prec. lia.
  - split; [done|].
    destruct (canonical_range _ _ Hcan) as (_ & _ & Hd53).
    specialize (Hd53 ltac:(lia)).
    pose proof (Zdigits2_bounds (Z.pos m') eq_refl) as [Hm'lo _]. rewrite Hd53 in Hm'lo.
    change (2 ^ (53 - 1)) with (2 ^ 52) in Hm'lo.
    eapply Z.lt_le_trans; [apply target_below_overflow|].
    assert (H1 : 2 ^ 2046 <= 2 ^ (e' + 1074)) by (apply Z.pow_le_mono_r; lia).
    pose proof (pow2_pos 52 ltac:(lia)). pose proof (pow2_pos 2046 ltac:(lia)).
    apply Z.mul_le_mono_nonneg; lia.
Qed.

(** The error of [k] sums adds up to at most [k] times [2^-51] of the
    target. *)
Lemma sum_error A V P Q :
  0 < A -> A < t -> 0 < t -> (125 * I - t) * 2 ^ 51 <= t -> 0 < I ->
  (A + I - V) * 2 ^ 52 <= A + I -> (V - (A + I)) * 2 ^ 52 <= A + I ->
  (A - P) * 2 ^ 51 <= Q -> (P - A) * 2 ^ 51 <= Q ->
  (V - (P + I)) * 2 ^ 51 <= Q + t /\ (P + I - V) * 2 ^ 51 <= Q + t.
Proof.
  change (2 ^ 51) with 2251799813685248. change (2 ^ 52) with 4503599627370496.
  lia.
Qed.

Lemma below_target (k : Z) A :
  0 <= k <= 124 -> 0 < t -> (125 * I - t) * 2 ^ 51 <= t ->
  (A - k * I) * 2 ^ 51 <= k * t -> A < t.
Proof.
  change (2 ^ 51) with 2251799813685248. intros Hk Ht Hi HA.
  assert (F1 : k * (125 * I * 2251799813685248)
               <= k * (t * 2251799813685248 + t))
    by (apply Z.mul_le_mono_nonneg_l; lia).
  assert (F2 : k * t <= 124 * t) by (apply Z.mul_le_mono_nonneg_r; lia).
  replace (k * (125 * I * 2251799813685248))
    with (125 * 2251799813685248 * (k * I)) in F1 by ring.
  replace (k * (t * 2251799813685248 + t))
    with (2251799813685248 * (k * t) + k * t) in F1 by ring.
  set (P := k * I) in *. set (Q := k * t) in *. lia.
Qed.

Lemma tight_prefix k :
  (1 <= k <= 124)%nat ->
  exists mk ek, accumulate inc k = S754_finite false mk ek /\
    bounded prec emax mk ek = true /\
    let A := scaled (accumulate inc k) in
    (A - Z.of_nat k * I) * 2 ^ 51 <= Z.of_nat k * t /\
    (Z.of_nat k * I - A) * 2 ^ 51 <= Z.of_nat k * t /\
    0 < A < t.
Proof.
  destruct inc_tight as (mi & ei & Hinc & Hbi & Hi1 & Hi2 & Hi3 & Ht).
  assert (HI : 0 < I) by (pose proof (pow2_pos 53 ltac:(lia)); lia).
  induction k as [|k IH]; [lia|]. intros Hk.
  destruct (decide (k = 0%nat)) as [->|Hk0].
  - exists mi, ei. unfold inc, T. rewrite accumulate_one by done.
    fold T. fold inc. rewrite Hinc. split; [done|]. split; [done|].
    cbv zeta. rewrite <- Hinc. fold I.
    change (Z.of_nat 1) with 1. rewrite !Z.mul_1_l.
    split; [lia|]. split; [lia|]. split; [done|].
    apply (below_target 1); [lia|done|done|lia].
  - destruct IH as (mk & ek & Hacc & Hbk & HA1 & HA2 & HA3); [lia|].
    cbv zeta in HA1, HA2, HA3.
    destruct (step_tight mk ek Hbk) as (V & HV1 & HV2 & _ & Hres).
    rewrite <- Hacc in HV1, HV2.
    set (A := scaled (accumulate inc k)) in *.
    destruct (sum_error A V (Z.of_nat k * I) (Z.of_nat k * t))
      as [HS1 HS2]; try done; try lia.
    assert (HP : Z.of_nat (S k) * I = Z.of_nat k * I + I)
      by (rewrite Nat2Z.inj_succ; ring).
    assert (HQ : Z.of_nat (S k) * t = Z.of_nat k * t + t)
      by (rewrite Nat2Z.inj_succ; ring).
    assert (HVt : V < t).
    { apply (below_target (Z.of_nat (S k))); [lia|done|done|].
      rewrite HP, HQ. exact HS1. }
    destruct Hres as [[_ Hover]|(m' & e' & Hadd & Hb' & HVeq)]; [lia|].
    exists m', e'. cbn [accumulate]. rewrite Hacc, Hadd.
    split; [done|]. split; [done|]. cbv zeta. rewrite <- HVeq, HP, HQ.
    split; [done|]. split; [done|]. split; [|done].
    subst V. pose proof Hb' as [Hc' _]%andb_prop.
    destruct (canonical_range _ _ Hc') as [He' _].
    by apply scaled_fin_pos.
Qed.

(** A target that is a positive integer stops the loop at the 125th or
    at the 126th call. *)
Lemma count_tight :
  exists n, (n = 125 \/ n = 126)%nat /\
    ltb (accumulate inc n) T = false /\
    forall j, (1 <= j < n)%nat -> ltb (accumulate inc j) T = true.
Proof.
  destruct inc_tight as (mi & ei & Hinc & Hbi & Hi1 & Hi2 & Hi3 & Ht).
  assert (HI : 0 < I) by (pose proof (pow2_pos 53 ltac:(lia)); lia).
  assert (HT : valid T) by exact Hb.
  assert (Hpre : forall j, (1 <= j <= 124)%nat -> ltb (accumulate inc j) T = true).
  { intros j Hj. destruct (tight_prefix j Hj) as (mk & ek & Hacc & Hbk & _ & _ & HA).
    cbv zeta in HA. rewrite Hacc in *. rewrite ltb_scaled by done.
    apply bool_decide_eq_true_2. fold t. lia. }
  destruct (tight_prefix 124 ltac:(lia)) as (mk & ek & Hacc & Hbk & HA1 & HA2 & HA3).
  cbv zeta in HA1, HA2, HA3. change (Z.of_nat 124) with 124 in HA1, HA2.
  destruct (step_tight mk ek Hbk) as (V & HV1 & HV2 & _ & Hres).
  rewrite <- Hacc in HV1, HV2.
  set (A := scaled (accumulate inc 124)) in *. clearbody A.
  destruct HA3 as [HA3 HA4].
  destruct (sum_error A V (124 * I) (124 * t) HA3 HA4 Ht Hi1 HI HV1 HV2 HA1 HA2)
    as [HS1 HS2].
  pose proof (accumulate_S inc 124) as H125.
  rewrite Hacc in H125.
  destruct Hres as [[Hinf _]|(m' & e' & Hadd & Hb' & HVeq)].
  { exists 125%nat. split; [by left|]. split.
    - rewrite H125, Hinf. done.
    - intros j Hj. apply Hpre. lia. }
  rewrite Hadd in H125.
  destruct (ltb (accumulate inc 125) T) eqn:Hlt.
  2:{ exists 125%nat. split; [by left|]. split; [done|].
      intros j Hj. apply Hpre. lia. }
  exists 126%nat. split; [by right|]. split.
  2:{ intros j Hj. destruct (decide (j = 125%nat)) as [->|]; [done|].
      apply Hpre. lia. }
  rewrite H125, ltb_scaled in Hlt by done. apply bool_decide_eq_true in Hlt.
  fold t in Hlt. rewrite <- HVeq in Hlt.
  destruct (step_tight m' e' Hb') as (V2 & HW1 & HW2 & HVpos & Hres2).
  rewrite <- HVeq in HW1, HW2, HVpos.
  pose proof (accumulate_S inc 125) as H126.
  rewrite H125 in H126.
  destruct Hres2 as [[Hinf _]|(m2 & e2 & Hadd2 & Hb2 & HV2eq)].
  { rewrite H126, Hinf. done. }
  rewrite H126, Hadd2, ltb_scaled by done.
  apply bool_decide_eq_false_2. fold t. rewrite <- HV2eq.
  clear - Hi1 Hi2 Ht HI HS1 HS2 HW1 HW2 Hlt HVpos.
  change (2 ^ 51) with 2251799813685248 in *.
  change (2 ^ 52) with 4503599627370496 in *.
  lia.
Qed.

End Tight.

(** The number of calls of [updateCounter] for a target above zero. *)
Lemma accumulate_count T :
  valid T -> (is_finite T = true -> is_integer T = true) ->
  is_finite T = true -> ltb (of_Z 0) T = true ->
  let inc := div T n125 in
  exists n, (n = 125 \/ n = 126)%nat /\
    ltb (accumulate inc n) T = false /\
    forall j, (1 <= j < n)%nat -> ltb (accumulate inc j) T = true.
Proof.
  intros HT Hint Hfin Hpos. destruct T as [s|s| |s m e]; try done.
  destruct s; [done|]. apply count_tight; [exact HT|by apply Hint].
Qed.

End FrameCount.

Section CounterLength.
Import Number Dom Observer Counters CountersFacts CounterRuns.

Lemma first_stop_unique (f : nat -> bool) (n n' : nat) :
  (1 <= n)%nat -> f n = false -> (forall j, (1 <= j < n)%nat -> f j = true) ->
  (1 <= n')%nat -> f n' = false -> (forall j, (1 <= j < n')%nat -> f j = true) ->
  n = n'.
Proof.
  intros Hn Hs Hb Hn' Hs' Hb'.
  destruct (lt_eq_lt_dec n n') as [[Hlt|Heq]|Hgt]; [|done|].
  - rewrite Hb' in Hs by lia. done.
  - rewrite Hb in Hs' by lia. done.
Qed.

(** X3: A counter animation takes two seconds' worth of frames.  Let a
    counter whose target is a finite number above zero be activated in a
    reachable state.  The loop makes 125 or 126 calls of [updateCounter],
    one at the activation and one in each animation frame that follows:
    a call is pending exactly as long as fewer than that many have run,
    each call but the last shows the floor of the sum accumulated so
    far, and the last one, in the 124th or 125th frame after the
    activation, shows the target. *)
Theorem counter_frame_count d st i c :
  reachable d st -> closures st !! i = Some c -> counter c ∉ activated st ->
  is_finite (target c) = true -> ltb (of_Z 0) (target c) = true ->
  let st1 := on_intersection i [Entry (counter c) true] st in
  exists n, (n = 125 \/ n = 126)%nat /\
    (forall k, i ∈ frameCallbacks (frames k st1) <-> (S k < n)%nat) /\
    (forall k, (S k < n)%nat ->
       shown i (frames k st1) =
       Some (Shown (floor (accumulate (increment c) (S k))))) /\
    (forall k, (n <= S k)%nat ->
       shown i (frames k st1) = Some (Shown (target c))).
Proof.
  intros Hreach Hc Hna Hfin Hpos. cbv zeta.
  destruct (inv_closure d st (counters_reachable_inv d st Hreach) i c Hc)
    as (Ht & Hi & _).
  destruct (NumberFacts.parseInt_spec (getAttribute (counter c) "data-target" d))
    as [Hvalid Hint].
  rewrite <- Ht in Hvalid, Hint.
  destruct (FrameCount.accumulate_count (target c) Hvalid Hint Hfin Hpos)
    as (n & Hn & Hstop & Hbefore).
  cbv zeta in Hstop, Hbefore. rewrite <- Hi in Hstop, Hbefore.
  destruct (animation d st i c Hreach Hc Hna)
    as (n' & Hn' & Hstop' & Hrun' & _ & Hfr).
  cbv zeta in Hfr.
  assert (Heq : n = n').
  { apply (first_stop_unique
             (λ j, ltb (accumulate (increment c) j) (target c)));
      try done; try lia.
    intros j Hj. by destruct (Hrun' j Hj). }
  subst n'. exists n. split; [done|]. split; [|split].
  - intros k. destruct (Hfr k) as [_ Hk]. rewrite (running_callback _ _ _ _ Hk).
    destruct (decide (S k < n)%nat) as [Hlt|Hge].
    + replace (Nat.min (S k) n) with (S k) by lia.
      rewrite Hbefore by lia. done.
    + replace (Nat.min (S k) n) with n by lia. rewrite Hstop.
      split; [discriminate|lia].
  - intros k Hk. destruct (Hfr k) as [_ Hr]. rewrite (running_shown _ _ _ _ Hr).
    replace (Nat.min (S k) n) with (S k) by lia. by rewrite Hbefore by lia.
  - intros k Hk. destruct (Hfr k) as [_ Hr]. rewrite (running_shown _ _ _ _ Hr).
    replace (Nat.min (S k) n) with n by lia. by rewrite Hstop.
Qed.

Lemma counter_frame_count_witness :
  let st1 := on_intersection 0 [Entry 0%nat true] (animateCounters sample_page) in
  exists n, (n = 125 \/ n = 126)%nat /\
    forall k, (n <= S k)%nat -> shown 0 (frames k st1) = Some (Shown (of_Z 1280)).
Proof.
  cbv zeta.
  destruct (counter_frame_count sample_page (animateCounters sample_page)
              0 (new_closure sample_page 0))
    as (n & Hn & _ & _ & Hfinal).
  - constructor.
  - reflexivity.
  - simpl. apply not_elem_of_nil.
  - vm_compute. reflexivity.
  - vm_compute. reflexivity.
  - exists n. split; [exact Hn|exact Hfinal].
Defined.

(** X4: A counter whose target is not above zero does not animate.  Let a
    counter whose target is zero, negative, NaN or infinite be activated
    in a reachable state.  The activation shows the target itself (the
    text form of what [parseInt] returned) and requests no animation
    frame, and the counter shows the target in every later frame. *)
Theorem counter_without_animation d st i c :
  reachable d st -> closures st !! i = Some c -> counter c ∉ activated st ->
  ltb (of_Z 0) (target c) = false \/ is_finite (target c) = false ->
  let st1 := on_intersection i [Entry (counter c) true] st in
  frameCallbacks st1 = frameCallbacks st /\
  forall k, shown i (frames k st1) = Some (Shown (target c)).
Proof.
  intros Hreach Hc Hna Hcase. cbv zeta.
  destruct (inv_closure d st (counters_reachable_inv d st Hreach) i c Hc)
    as (Ht & Hi & _).
  destruct (NumberFacts.parseInt_spec (getAttribute (counter c) "data-target" d))
    as [Hvalid Hint].
  rewrite <- Ht in Hvalid, Hint.
  pose proof (FrameCount.first_sum_not_below (target c) Hvalid Hint Hcase) as Hfirst.
  rewrite <- Hi in Hfirst.
  destruct (animation d st i c Hreach Hc Hna) as (n & Hn & _ & Hrun & _ & Hfr).
  cbv zeta in Hfr.
  assert (Hone : n = 1%nat).
  { destruct (decide (n = 1%nat)) as [|Hne]; [done|].
    destruct (Hrun 1%nat ltac:(lia)) as [Hlt _]. congruence. }
  subst n. split.
  - rewrite (on_intersection_visible i c st Hc). simpl.
    assert (Hnext : next c = accumulate (increment c) 1).
    { destruct (inv_closure d st (counters_reachable_inv d st Hreach) i c Hc)
        as (_ & _ & _ & Hz).
      destruct (Hz Hna) as [Hcur _]. unfold next. simpl. by rewrite Hcur. }
    unfold continues. by rewrite Hnext, Hfirst, app_nil_r.
  - intros k. destruct (Hfr k) as [_ Hr]. rewrite (running_shown _ _ _ _ Hr).
    replace (Nat.min (S k) 1) with 1%nat by lia. by rewrite Hfirst.
Qed.

(** A page with a counter that counts down to a negative target. *)
Definition negative_page : document :=
  [ Node None ["stat-number"%string]
      {[ "data-target"%string := "-40"%string ]} ∅ (Markup "0") None ].

Lemma counter_without_animation_witness :
  let st1 := on_intersection 0 [Entry 0%nat true] (animateCounters negative_page) in
  frameCallbacks st1 = [] /\
  forall k, shown 0 (frames k st1) = Some (Shown (of_Z (-40))).
Proof.
  cbv zeta.
  destruct (counter_without_animation negative_page (animateCounters negative_page)
              0 (new_closure negative_page 0))
    as (Hq & Hshown).
  - constructor.
  - reflexivity.
  - simpl. apply not_elem_of_nil.
  - left. vm_compute. reflexivity.
  - split; [exact Hq|exact Hshown].
Defined.

End CounterLength.


(* ===================================================================== *)
(** * Facts shared by the click widgets *)
(* ===================================================================== *)

Module WidgetFacts.
Import Dom Tree.

(** A selector that reads the same on the nodes of two documents selects
    the same elements. *)
Lemma select_from_ext sel (d d' : document) :
  Forall2 (λ n n', sel n' = sel n) d d' ->
  forall i, select_from i sel d' = select_from i sel d.
Proof.
  induction 1 as [|n n' d d' Hn _ IH]; intros i; simpl; [done|].
  by rewrite Hn, IH.
Qed.

Lemma querySelectorAll_ext sel (d d' : document) :
  length d' = length d ->
  (forall e n n', d !! e = Some n -> d' !! e = Some n' -> sel n' = sel n) ->
  querySelectorAll sel d' = querySelectorAll sel d.
Proof.
  intros Hlen Hsel. apply select_from_ext.
  apply Forall2_same_length_lookup. split; [done|]. exact Hsel.
Qed.

(** Altering the nodes at distinct positions, each in its own way. *)
Lemma foldl_alter_each (g : elem -> node -> node) (l : list elem) :
  NoDup l -> forall (d : document) e,
  foldl (λ d i, alter (g i) i d) d l !! e =
  if bool_decide (e ∈ l) then g e <$> d !! e else d !! e.
Proof.
  induction 1 as [|i l Hi Hl IH]; intros d e; simpl; [done|].
  rewrite IH. destruct (decide (e = i)) as [->|Hne].
  - rewrite (bool_decide_eq_false_2 _ Hi), bool_decide_eq_true_2 by left.
    by rewrite list_lookup_alter_eq.
  - rewrite list_lookup_alter_ne by done.
    destruct (decide (e ∈ l)) as [He|He].
    + rewrite !bool_decide_eq_true_2; [done|by right|done].
    + rewrite !bool_decide_eq_false_2; [done| |done].
      intros [?|?]%elem_of_cons; done.
Qed.

(** "Remove [active] from all, add it to the clicked one", as the
    filter buttons and the pagination buttons do it. *)
Definition mark_only (l : list elem) (button : elem) (d : document) : document :=
  classList_add button "active"
    (forEach (λ btn _ d, classList_remove btn "active" d) l d).

Definition unmark (n : node) : node := with_classList (token_remove "active") n.
Definition mark (n : node) : node := with_classList (token_add "active") n.

Lemma mark_only_lookup l button d e :
  NoDup l ->
  mark_only l button d !! e =
  (λ n, let n := if bool_decide (e ∈ l) then unmark n else n in
        if bool_decide (e = button) then mark n else n) <$> d !! e.
Proof.
  intros Hnd. unfold mark_only, classList_add.
  rewrite (DomFacts.forEach_foldl (λ btn d, classList_remove btn "active" d)).
  unfold classList_remove.
  destruct (decide (e = button)) as [->|Hne].
  - rewrite list_lookup_alter_eq, DomFacts.foldl_alter_lookup by done.
    rewrite (bool_decide_eq_true_2 (button = button)) by done.
    destruct (d !! button) as [n|]; [|by destruct (bool_decide _)].
    by destruct (bool_decide _).
  - rewrite list_lookup_alter_ne, DomFacts.foldl_alter_lookup by done.
    rewrite (bool_decide_eq_false_2 _ Hne).
    destruct (d !! e) as [n|]; by destruct (bool_decide _).
Qed.

Lemma mark_only_length l button d : length (mark_only l button d) = length d.
Proof.
  unfold mark_only, classList_add. rewrite length_alter.
  apply DomFacts.forEach_inv; [|done].
  intros x i st _ <-. unfold classList_remove. apply length_alter.
Qed.

(** After it, among the elements of the list and the clicked one, the
    clicked one alone is active; no other class and nothing else in a
    node has changed. *)
Lemma mark_only_active l button d x :
  NoDup l -> (x < length d)%nat -> x ∈ l \/ x = button ->
  classList_contains x "active" (mark_only l button d) = bool_decide (x = button).
Proof.
  intros Hnd Hx Hin. unfold classList_contains.
  rewrite mark_only_lookup by done.
  destruct (lookup_lt_is_Some_2 d x Hx) as [n ->]. simpl.
  case_bool_decide as Hb.
  - unfold mark. simpl. apply DomFacts.token_contains_add.
  - destruct Hin as [Hin|?]; [|done]. rewrite bool_decide_eq_true_2 by done.
    unfold unmark. simpl. apply DomFacts.token_contains_remove.
Qed.

Lemma mark_only_other l button d x :
  NoDup l -> x ∉ l -> x ≠ button -> mark_only l button d !! x = d !! x.
Proof.
  intros Hnd Hl Hb. rewrite mark_only_lookup by done.
  rewrite !bool_decide_eq_false_2 by done. by destruct (d !! x).
Qed.

Lemma mark_only_node l button d e n' :
  NoDup l -> mark_only l button d !! e = Some n' ->
  exists n, d !! e = Some n /\
    parentElement n' = parentElement n /\ attributes n' = attributes n /\
    style n' = style n /\ textContent n' = textContent n /\ src n' = src n /\
    forall c, c ≠ "active"%string -> has_class c n' = has_class c n.
Proof.
  intros Hnd. rewrite mark_only_lookup by done.
  destruct (d !! e) as [n|]; [|done]. simpl. intros [= <-].
  exists n. split; [done|].
  destruct (bool_decide (e ∈ l)), (bool_decide (e = button)); simpl;
    repeat split; try done; intros c Hc; unfold has_class; simpl;
    rewrite ?DomFacts.token_contains_add_ne, ?DomFacts.token_contains_remove_ne
      by done; done.
Qed.

Lemma mark_only_select l button d sel :
  NoDup l ->
  (forall n, sel (mark n) = sel n) -> (forall n, sel (unmark n) = sel n) ->
  querySelectorAll sel (mark_only l button d) = querySelectorAll sel d.
Proof.
  intros Hnd Hm Hu. apply querySelectorAll_ext; [apply mark_only_length|].
  intros e n n' Hn. rewrite mark_only_lookup, Hn by done. simpl. intros [= <-].
  destruct (bool_decide (e ∈ l)), (bool_decide (e = button));
    by rewrite ?Hm, ?Hu.
Qed.

Lemma mark_only_attribute l button d e a :
  NoDup l -> getAttribute e a (mark_only l button d) = getAttribute e a d.
Proof.
  intros Hnd. unfold getAttribute. rewrite mark_only_lookup by done.
  destruct (d !! e) as [n|]; [|done]. simpl.
  by destruct (bool_decide (e ∈ l)), (bool_decide (e = button)).
Qed.

End WidgetFacts.

Module PaginationFacts.
Import Dom Tree Pagination WidgetFacts.

Lemma pagination_on_click_eq numbers button st :
  NoDup numbers ->
  on_click numbers button st =
  State (mark_only numbers button (doc st))
        (scrolled st ++
         match querySelector (has_class "blog-section") (doc st) with
         | Some blogSection => [blogSection]
         | None => []
         end).
Proof.
  intros Hnd. unfold on_click. fold (mark_only numbers button (doc st)).
  assert (Hq : querySelector (has_class "blog-section")
                 (mark_only numbers button (doc st))
               = querySelector (has_class "blog-section") (doc st)).
  { unfold querySelector. rewrite mark_only_select; try done.
    - intros n. unfold has_class. simpl. by apply DomFacts.token_contains_add_ne.
    - intros n. unfold has_class. simpl.
      by apply DomFacts.token_contains_remove_ne. }
  rewrite Hq. destruct (querySelector _ (doc st)); [done|].
  by rewrite app_nil_r.
Qed.

End PaginationFacts.

(** X13: Pagination: after a click on one of the pagination buttons, that
    button carries the class [active] and no other pagination button
    does; elements that are not pagination buttons are untouched; and
    [scrollIntoView] is called once on the first element of class
    [blog-section], if there is one, and not at all otherwise.
    [d0] is the document at the time the script took the list of
    buttons. *)
Theorem pagination_one_active (d0 : Dom.document) (st : Pagination.state)
  (button : Dom.elem) :
  length (Pagination.doc st) = length d0 ->
  button ∈ Pagination.paginationNumbers d0 ->
  let st' := Pagination.on_click (Pagination.paginationNumbers d0) button st in
  (forall x, x ∈ Pagination.paginationNumbers d0 ->
     Dom.classList_contains x "active" (Pagination.doc st')
     = bool_decide (x = button)) /\
  (forall x, x ∉ Pagination.paginationNumbers d0 ->
     Pagination.doc st' !! x = Pagination.doc st !! x) /\
  Pagination.scrolled st' =
    Pagination.scrolled st ++
    match Tree.querySelector (Dom.has_class "blog-section") (Pagination.doc st) with
    | Some blogSection => [blogSection]
    | None => []
    end.
Proof.
  intros Hlen Hb. cbv zeta.
  pose proof (DomFacts.querySelectorAll_NoDup
                (Dom.has_class "pagination-number") d0) as Hnd.
  fold (Pagination.paginationNumbers d0) in Hnd.
  rewrite PaginationFacts.pagination_on_click_eq by done. simpl.
  split; [|split; [|done]].
  - intros x Hx. apply WidgetFacts.mark_only_active; [done| |by left].
    rewrite Hlen. by eapply DomFacts.querySelectorAll_lt.
  - intros x Hx. apply WidgetFacts.mark_only_other; [done|done|].
    intros ->. done.
Qed.

(** A blog page with three pagination buttons, the first one active. *)
Definition blog_page : Dom.document :=
  [ Dom.Node None ["blog-section"%string] ∅ ∅ (Dom.Markup "") None;
    Dom.Node None ["pagination-number"; "active"]%string ∅ ∅ (Dom.Markup "1") None;
    Dom.Node None ["pagination-number"%string] ∅ ∅ (Dom.Markup "2") None;
    Dom.Node None ["pagination-number"%string] ∅ ∅ (Dom.Markup "3") None ].

Lemma pagination_one_active_witness :
  let st' := Pagination.on_click (Pagination.paginationNumbers blog_page) 3
               (Pagination.State blog_page []) in
  Dom.classList_contains 1 "active" (Pagination.doc st') = false /\
  Dom.classList_contains 3 "active" (Pagination.doc st') = true /\
  Pagination.scrolled st' = [0%nat].
Proof.
  cbv zeta.
  destruct (pagination_one_active blog_page (Pagination.State blog_page []) 3)
    as (Hact & _ & Hscroll).
  - reflexivity.
  - by_compute.
  - split; [|split].
    + rewrite Hact by by_compute. reflexivity.
    + rewrite Hact by by_compute. reflexivity.
    + rewrite Hscroll. reflexivity.
Defined.


(* ===================================================================== *)
(** * Portfolio filter *)
(* ===================================================================== *)

Module PortfolioFacts.
Import Dom Tree Portfolio WidgetFacts.

(** What a click does to the node of a portfolio item. *)
Definition place (f : option string) (d : document) (item : elem) (n : node)
  : node :=
  if matches f item d
  then with_style (insert "opacity"%string "0"%string)
         (with_style (insert "display"%string "block"%string) n)
  else with_style (insert "display"%string "none"%string) n.

(** The items a click on a button with filter [f] shows. *)
Definition shown_items (f : option string) (d : document) (items : list elem)
  : list elem :=
  filter (λ item, matches f item d = true) items.

Lemma matches_ext f item (d d' : document) :
  getAttribute item "data-category" d' = getAttribute item "data-category" d ->
  matches f item d' = matches f item d.
Proof. intros H. unfold matches. by rewrite H. Qed.

Lemma place_attributes f d item n : attributes (place f d item n) = attributes n.
Proof. unfold place. by destruct (matches f item d). Qed.

Lemma items_from f (d0 : document) (items : list elem) : forall i st,
  (forall e a, getAttribute e a (doc st) = getAttribute e a d0) ->
  forEach_from i
    (λ item (_ : nat) st,
       if matches f item (doc st) then
         State (set_style item "opacity" "0"
                  (set_style item "display" "block" (doc st)))
               (timers st ++ [Timer (now st + 10) item]) (now st)
       else
         State (set_style item "display" "none" (doc st))
               (timers st) (now st))
    items st =
  State (foldl (λ d item, alter (place f d0 item) item d) (doc st) items)
        (timers st ++ (Timer (now st + 10) <$> shown_items f d0 items))
        (now st).
Proof.
  induction items as [|item items IH]; intros i st Hattr; simpl.
  - unfold shown_items. simpl. rewrite app_nil_r. by destruct st.
  - assert (Hm : matches f item (doc st) = matches f item d0)
      by by apply matches_ext.
    rewrite Hm. unfold shown_items, place.
    destruct (matches f item d0) eqn:E.
    + rewrite filter_cons_True by done. rewrite IH.
      * simpl. unfold set_style. rewrite list_alter_alter_eq.
        rewrite <- app_assoc. done.
      * intros e a. simpl. rewrite <- Hattr. unfold getAttribute, set_style.
        destruct (decide (e = item)) as [->|Hne].
        -- rewrite !list_lookup_alter_eq. by destruct (doc st !! item).
        -- by rewrite !list_lookup_alter_ne.
    + rewrite filter_cons_False by (by rewrite E). rewrite IH.
      * done.
      * intros e a. simpl. rewrite <- Hattr. unfold getAttribute, set_style.
        destruct (decide (e = item)) as [->|Hne].
        -- rewrite !list_lookup_alter_eq. by destruct (doc st !! item).
        -- by rewrite !list_lookup_alter_ne.
Qed.

Lemma portfolio_on_click_eq l button st :
  NoDup (filterButtons l) ->
  let f := getAttribute button "data-filter" (doc st) in
  on_click l button st =
  State (foldl (λ d item, alter (place f (doc st) item) item d)
               (mark_only (filterButtons l) button (doc st))
               (portfolioItems l))
        (timers st ++ (Timer (now st + 10) <$>
                       shown_items f (doc st) (portfolioItems l)))
        (now st).
Proof.
  intros Hnd. cbv zeta. unfold on_click. cbv zeta. unfold forEach at 1.
  fold (mark_only (filterButtons l) button (doc st)).
  rewrite (items_from _ (doc st)).
  - simpl. by rewrite mark_only_attribute.
  - intros e a. simpl. by apply mark_only_attribute.
Qed.

(** Running the fade-in timers. *)
Definition faded (p : string) (old : option string) : option string :=
  if bool_decide (p = "opacity"%string) then Some "1"%string
  else if bool_decide (p = "transition"%string)
       then Some "opacity 0.5s ease"%string
       else old.

Definition fade (n : node) : node :=
  with_style (insert "opacity"%string "1"%string)
    (with_style (insert "transition"%string "opacity 0.5s ease"%string) n).

Lemma fade_in_alter e (d : document) : fade_in e d = alter fade e d.
Proof. unfold fade_in, set_style. by rewrite list_alter_alter_eq. Qed.

Lemma style_fade n p : style (fade n) !! p = faded p (style n !! p).
Proof.
  unfold fade, faded. simpl.
  case_bool_decide as H1; [subst; by rewrite lookup_insert_eq|].
  rewrite lookup_insert_ne by done.
  case_bool_decide as H2; [subst; by rewrite lookup_insert_eq|].
  by rewrite lookup_insert_ne.
Qed.

Lemma faded_idemp p old : faded p (faded p old) = faded p old.
Proof. unfold faded. by repeat case_bool_decide. Qed.

Lemma foldl_fade_other (l : list timer) : forall (d : document) e,
  e ∉ timer_item <$> l ->
  foldl (λ d x, fade_in (timer_item x) d) d l !! e = d !! e.
Proof.
  induction l as [|x l IH]; intros d e Hnot; simpl; [done|].
  rewrite fmap_cons, not_elem_of_cons in Hnot. destruct Hnot as [Hne Hnot].
  rewrite IH by done. rewrite fade_in_alter. by apply list_lookup_alter_ne.
Qed.

Lemma foldl_fade_style (l : list timer) : forall (d : document) e p,
  e ∈ timer_item <$> l ->
  style_of e p (foldl (λ d x, fade_in (timer_item x) d) d l) =
  d !! e ≫= λ n, faded p (style n !! p).
Proof.
  induction l as [|x l IH]; intros d e p Hin; simpl.
  - by apply elem_of_nil in Hin.
  - destruct (decide (e ∈ timer_item <$> l)) as [Hl|Hl].
    + rewrite IH by done. rewrite fade_in_alter.
      destruct (decide (e = timer_item x)) as [->|Hne].
      * rewrite list_lookup_alter_eq. destruct (d !! timer_item x) as [n|]; [|done].
        change (faded p (style (fade n) !! p) = faded p (style n !! p)).
        by rewrite style_fade, faded_idemp.
      * by rewrite list_lookup_alter_ne.
    + rewrite fmap_cons in Hin. apply elem_of_cons in Hin as [->|?]; [|done].
      unfold style_of. rewrite foldl_fade_other by done.
      rewrite fade_in_alter, list_lookup_alter_eq.
      destruct (d !! timer_item x) as [n|]; [|done]. apply style_fade.
Qed.

Lemma foldl_fade_keeps (l : list timer) (d : document) e p :
  p ≠ "opacity"%string -> p ≠ "transition"%string ->
  style_of e p (foldl (λ d x, fade_in (timer_item x) d) d l) = style_of e p d.
Proof.
  intros H1 H2. destruct (decide (e ∈ timer_item <$> l)) as [Hl|Hl].
  - rewrite foldl_fade_style by done. unfold style_of, faded.
    destruct (d !! e) as [n|]; [|done]. simpl.
    by rewrite !bool_decide_eq_false_2.
  - unfold style_of. by rewrite foldl_fade_other.
Qed.

Lemma fired_items t (l : list timer) e :
  e ∈ timer_item <$> merge_sort earlier (filter (λ x, is_due t x = true) l) <->
  exists x, x ∈ l /\ due x <= t /\ timer_item x = e.
Proof.
  rewrite merge_sort_Permutation, list_elem_of_fmap. split.
  - intros (x & -> & [Hd Hx]%list_elem_of_filter). exists x.
    unfold is_due in Hd. apply Z.leb_le in Hd. done.
  - intros (x & Hx & Hd & <-). exists x. split; [done|].
    apply list_elem_of_filter. split; [|done]. unfold is_due. by apply Z.leb_le.
Qed.

(** The document after a click, element by element. *)
Lemma on_click_lookup l button st e :
  NoDup (filterButtons l) -> NoDup (portfolioItems l) ->
  let f := getAttribute button "data-filter" (doc st) in
  doc (on_click l button st) !! e =
  (λ n, if bool_decide (e ∈ portfolioItems l) then place f (doc st) e n else n)
    <$> mark_only (filterButtons l) button (doc st) !! e.
Proof.
  intros Hb Hi. cbv zeta. rewrite portfolio_on_click_eq by done. simpl.
  rewrite (foldl_alter_each (place _ (doc st))) by done.
  destruct (bool_decide _); [done|]. by destruct (_ !! e).
Qed.

End PortfolioFacts.

Section PortfolioClaims.
Import Dom Tree Portfolio WidgetFacts PortfolioFacts.

Lemma place_classList f d item n : classList (place f d item n) = classList n.
Proof. unfold place. by destruct (matches f item d). Qed.

(** X8: The portfolio filter.  [d0] is the document at the time the script
    took the lists of filter buttons and of portfolio items.  After a
    click on a filter button, that button carries the class [active] and
    no other filter button does.  A portfolio item is shown ([display]
    is [block], [opacity] is 0 and a timer is set for 10 ms later) if
    the [data-filter] of the button is [all] or equals the
    [data-category] of the item, and hidden ([display] is [none])
    otherwise.  A missing attribute reads as [null] on either side: a
    button without [data-filter] shows exactly the items without
    [data-category].  Elements that are neither filter buttons nor
    portfolio items are untouched. *)
Theorem portfolio_filter_click d0 st button :
  length (doc st) = length d0 ->
  button ∈ filterButtons (on_load d0) ->
  let l := on_load d0 in
  let f := getAttribute button "data-filter" (doc st) in
  let st' := on_click l button st in
  (forall x, x ∈ filterButtons l ->
     classList_contains x "active" (doc st') = bool_decide (x = button)) /\
  (forall item, item ∈ portfolioItems l ->
     if matches f item (doc st)
     then style_of item "display" (doc st') = Some "block"%string /\
          style_of item "opacity" (doc st') = Some "0"%string /\
          Timer (now st + 10) item ∈ timers st'
     else style_of item "display" (doc st') = Some "none"%string) /\
  (forall x, x ∉ filterButtons l -> x ∉ portfolioItems l ->
     doc st' !! x = doc st !! x) /\
  (f = None -> forall item,
     matches f item (doc st)
     = bool_decide (getAttribute item "data-category" (doc st) = None)).
Proof.
  intros Hlen Hb. cbv zeta.
  assert (Hnb : NoDup (filterButtons (on_load d0)))
    by apply DomFacts.querySelectorAll_NoDup.
  assert (Hni : NoDup (portfolioItems (on_load d0)))
    by apply DomFacts.querySelectorAll_NoDup.
  split; [|split; [|split]].
  - intros x Hx.
    assert (Hlt : (x < length (doc st))%nat)
      by (rewrite Hlen;
          exact (DomFacts.querySelectorAll_lt (has_class "filter-btn") d0 x Hx)).
    rewrite <- (mark_only_active (filterButtons (on_load d0)) button (doc st) x)
      by (done || by left).
    unfold classList_contains. rewrite on_click_lookup by done.
    destruct (_ !! x) as [n|]; [|done]. simpl.
    destruct (bool_decide _); [|done]. by rewrite place_classList.
  - intros item Hitem.
    assert (Hlt : (item < length (doc st))%nat)
      by (rewrite Hlen;
          exact (DomFacts.querySelectorAll_lt (has_class "portfolio-item")
                   d0 item Hitem)).
    assert (Hsome : is_Some (mark_only (filterButtons (on_load d0)) button
                               (doc st) !! item)).
    { apply lookup_lt_is_Some_2. by rewrite mark_only_length. }
    destruct Hsome as [n Hn].
    unfold style_of. rewrite on_click_lookup, Hn by done. simpl.
    rewrite bool_decide_eq_true_2 by done. unfold place.
    destruct (matches _ item (doc st)) eqn:E; simpl.
    + split; [|split].
      * rewrite lookup_insert_ne by done. apply lookup_insert_eq.
      * apply lookup_insert_eq.
      * rewrite portfolio_on_click_eq by done. simpl. apply elem_of_app. right.
        apply list_elem_of_fmap. exists item. split; [done|].
        apply list_elem_of_filter. done.
    + apply lookup_insert_eq.
  - intros x Hxb Hxi. rewrite on_click_lookup by done.
    rewrite mark_only_other; [| done | done | by intros ->].
    rewrite bool_decide_eq_false_2 by done. by destruct (doc st !! x).
  - intros Hf item. unfold matches. rewrite Hf.
    rewrite (bool_decide_eq_false_2 (None = Some "all"%string)) by done.
    by apply bool_decide_ext.
Qed.

(** X9: The fade-in of the portfolio filter completes.  Ten milliseconds or
    more after a click on a filter button, whatever timers were pending
    at the click, every portfolio item that the filter shows has
    [display] [block], [opacity] 1 and the transition [opacity 0.5s
    ease]; every other portfolio item has [display] [none]; and no
    timer that was due is left. *)
Theorem portfolio_fade_in d0 st button t :
  length (doc st) = length d0 ->
  button ∈ filterButtons (on_load d0) ->
  now st + 10 <= t ->
  let l := on_load d0 in
  let f := getAttribute button "data-filter" (doc st) in
  let st' := advance t (on_click l button st) in
  (forall item, item ∈ portfolioItems l ->
     if matches f item (doc st)
     then style_of item "display" (doc st') = Some "block"%string /\
          style_of item "opacity" (doc st') = Some "1"%string /\
          style_of item "transition" (doc st')
            = Some "opacity 0.5s ease"%string
     else style_of item "display" (doc st') = Some "none"%string) /\
  (forall x, x ∈ timers st' -> t < due x).
Proof.
  intros Hlen Hb Ht. cbv zeta.
  assert (Hnb : NoDup (filterButtons (on_load d0)))
    by apply DomFacts.querySelectorAll_NoDup.
  assert (Hni : NoDup (portfolioItems (on_load d0)))
    by apply DomFacts.querySelectorAll_NoDup.
  split.
  - intros item Hitem.
    assert (Hlt : (item < length (doc st))%nat)
      by (rewrite Hlen;
          exact (DomFacts.querySelectorAll_lt (has_class "portfolio-item")
                   d0 item Hitem)).
    assert (Hsome : is_Some (mark_only (filterButtons (on_load d0)) button
                               (doc st) !! item)).
    { apply lookup_lt_is_Some_2. by rewrite mark_only_length. }
    destruct Hsome as [n Hn].
    assert (Hdoc : doc (on_click (on_load d0) button st) !! item =
              Some (place (getAttribute button "data-filter" (doc st))
                          (doc st) item n)).
    { rewrite on_click_lookup, Hn by done. simpl.
      by rewrite bool_decide_eq_true_2. }
    unfold advance. simpl. rewrite !foldl_fade_keeps by done.
    unfold place in Hdoc.
    destruct (matches _ item (doc st)) eqn:E.
    + assert (Hfired : item ∈ timer_item <$>
                merge_sort earlier
                  (filter (λ x, is_due t x = true)
                     (timers (on_click (on_load d0) button st)))).
      { apply fired_items. exists (Timer (now st + 10) item).
        split; [|done]. rewrite portfolio_on_click_eq by done. simpl.
        apply elem_of_app. right. apply list_elem_of_fmap. exists item.
        split; [done|]. apply list_elem_of_filter. done. }
      rewrite !foldl_fade_style by done. rewrite Hdoc. simpl.
      split; [|done]. unfold style_of. rewrite Hdoc. simpl.
      rewrite lookup_insert_ne by done. apply lookup_insert_eq.
    + unfold style_of. rewrite Hdoc. simpl. apply lookup_insert_eq.
  - intros x [Hd _]%list_elem_of_filter. unfold is_due in Hd.
    by apply Z.leb_gt in Hd.
Qed.

(** A portfolio page: the filter buttons "all" and "web", a button
    without filter, and three items, the last one without category. *)
Definition portfolio_page : document :=
  [ Node None ["filter-btn"; "active"]%string
      {[ "data-filter"%string := "all"%string ]} ∅ (Markup "All") None;
    Node None ["filter-btn"%string]
      {[ "data-filter"%string := "web"%string ]} ∅ (Markup "Web") None;
    Node None ["filter-btn"%string] ∅ ∅ (Markup "Other") None;
    Node None ["portfolio-item"%string]
      {[ "data-category"%string := "web"%string ]} ∅ (Markup "") None;
    Node None ["portfolio-item"%string]
      {[ "data-category"%string := "mobile"%string ]} ∅ (Markup "") None;
    Node None ["portfolio-item"%string] ∅ ∅ (Markup "") None ].

Lemma portfolio_filter_click_witness :
  let st' := on_click (on_load portfolio_page) 2 (State portfolio_page [] 0) in
  classList_contains 0 "active" (doc st') = false /\
  classList_contains 2 "active" (doc st') = true /\
  style_of 3 "display" (doc st') = Some "none"%string /\
  style_of 5 "display" (doc st') = Some "block"%string.
Proof.
  cbv zeta.
  destruct (portfolio_filter_click portfolio_page (State portfolio_page [] 0) 2)
    as (Hact & Hitems & _).
  - reflexivity.
  - by_compute.
  - split; [|split; [|split]].
    + rewrite Hact by by_compute. reflexivity.
    + rewrite Hact by by_compute. reflexivity.
    + apply (Hitems 3%nat). by_compute.
    + apply (Hitems 5%nat). by_compute.
Defined.

Lemma portfolio_fade_in_witness :
  let st' := advance 10 (on_click (on_load portfolio_page) 1
                           (State portfolio_page [] 0)) in
  style_of 3 "opacity" (doc st') = Some "1"%string /\
  style_of 4 "display" (doc st') = Some "none"%string /\
  timers st' = [].
Proof.
  cbv zeta.
  destruct (portfolio_fade_in portfolio_page (State portfolio_page [] 0) 1 10)
    as (Hitems & _).
  - reflexivity.
  - by_compute.
  - simpl. lia.
  - split; [|split].
    + apply (Hitems 3%nat). by_compute.
    + apply (Hitems 4%nat). by_compute.
    + reflexivity.
Defined.

End PortfolioClaims.

Module PortfolioStyles.
Import Dom Tree Portfolio WidgetFacts PortfolioFacts.

(** The style of a shown item, ten milliseconds after the click. *)
Lemma portfolio_fade_in_styles d0 st button t item :
  length (doc st) = length d0 ->
  button ∈ filterButtons (on_load d0) ->
  now st + 10 <= t ->
  item ∈ portfolioItems (on_load d0) ->
  matches (getAttribute button "data-filter" (doc st))
    item (doc st) = true ->
  let st' := advance t
               (on_click (on_load d0) button st) in
  style_of item "opacity" (doc st') = Some "1"%string /\
  style_of item "transition" (doc st')
    = Some "opacity 0.5s ease"%string /\
  style_of item "transform" (doc st')
    = style_of item "transform" (doc st).
Proof.
  intros Hlen Hb Ht Hitem Hm. cbv zeta.
  assert (Hnb : NoDup (filterButtons (on_load d0)))
    by apply DomFacts.querySelectorAll_NoDup.
  assert (Hni : NoDup (portfolioItems (on_load d0)))
    by apply DomFacts.querySelectorAll_NoDup.
  assert (Hlt : (item < length (doc st))%nat)
    by (rewrite Hlen;
        exact (DomFacts.querySelectorAll_lt (has_class "portfolio-item")
                 d0 item Hitem)).
  destruct (lookup_lt_is_Some_2 _ _ Hlt) as [n0 Hn0].
  assert (Hmark : exists n,
            mark_only (filterButtons (on_load d0)) button
              (doc st) !! item = Some n /\ style n = style n0).
  { rewrite mark_only_lookup, Hn0 by done. simpl. eexists. split; [done|].
    by destruct (bool_decide _), (bool_decide _). }
  destruct Hmark as (n & Hn & Hstyle).
  assert (Hdoc : doc
                   (on_click (on_load d0) button st) !! item
                 = Some (place (getAttribute button "data-filter"
                                  (doc st))
                               (doc st) item n)).
  { rewrite on_click_lookup, Hn by done. simpl.
    by rewrite bool_decide_eq_true_2. }
  assert (Hfired : item ∈ timer_item <$>
            merge_sort earlier
              (filter (λ x, is_due t x = true)
                 (timers
                    (on_click (on_load d0) button st)))).
  { apply fired_items. exists (Timer (now st + 10) item).
    split; [|done]. rewrite portfolio_on_click_eq by done. simpl.
    apply elem_of_app. right. apply list_elem_of_fmap. exists item.
    split; [done|]. apply list_elem_of_filter. done. }
  unfold advance. simpl.
  rewrite (foldl_fade_keeps _ _ item "transform") by done.
  rewrite !foldl_fade_style by done.
  rewrite Hdoc. simpl. split; [done|]. split; [done|].
  unfold style_of. rewrite Hdoc, Hn0. simpl. unfold place. rewrite Hm. simpl.
  rewrite !lookup_insert_ne by done. by rewrite Hstyle.
Qed.

End PortfolioStyles.

Section FilterAndReveal.
Import Dom Tree WidgetFacts PortfolioFacts.

Lemma portfolio_item_registered (d : document) item :
  item ∈ Portfolio.portfolioItems (Portfolio.on_load d) ->
  item ∈ RevealFacts.registered d.
Proof.
  intros (n & Hn & Hc)%DomFacts.querySelectorAll_elem.
  apply DomFacts.querySelectorAll_elem. exists n. split; [done|].
  unfold Reveal.selector. simpl. rewrite Hc. by rewrite !orb_true_r.
Qed.

(** X10: The portfolio filter and the scroll reveal meet on the portfolio
    items.  Let the page have run [observeElements], which hides every
    portfolio item (opacity 0, offset 30px) until it scrolls into view,
    and let the user click a filter button before any item has been
    revealed.  Ten milliseconds later every item that the filter shows
    has opacity 1, although it was never reported intersecting; it
    still has the offset of 30px; and its transition is the filter's
    [opacity 0.5s ease], no longer the one the reveal had set for the
    offset. *)
Theorem filter_overrides_reveal (d : document) (t0 now t : Z) (button : elem) :
  button ∈ Portfolio.filterButtons (Portfolio.on_load d) ->
  now + 10 <= t ->
  let hidden := Reveal.doc (Reveal.observeElements d t0) in
  let f := getAttribute button "data-filter" d in
  let st' := Portfolio.advance t
               (Portfolio.on_click (Portfolio.on_load d) button
                  (Portfolio.State hidden [] now)) in
  forall item, item ∈ Portfolio.portfolioItems (Portfolio.on_load d) ->
    Portfolio.matches f item d = true ->
    style_of item "opacity" hidden = Some "0"%string /\
    style_of item "opacity" (Portfolio.doc st') = Some "1"%string /\
    style_of item "transform" (Portfolio.doc st')
      = Some "translateY(30px)"%string /\
    style_of item "transition" (Portfolio.doc st')
      = Some "opacity 0.5s ease"%string.
Proof.
  intros Hb Ht. cbv zeta. intros item Hitem Hm.
  assert (Hnb : NoDup (Portfolio.filterButtons (Portfolio.on_load d)))
    by apply DomFacts.querySelectorAll_NoDup.
  assert (Hni : NoDup (Portfolio.portfolioItems (Portfolio.on_load d)))
    by apply DomFacts.querySelectorAll_NoDup.
  pose proof (RevealFacts.reveal_inv_init d t0) as [_ _ _ Hdoc].
  assert (Hhid : forall e, Reveal.doc (Reveal.observeElements d t0) !! e =
            if bool_decide (e ∈ RevealFacts.registered d)
            then RevealFacts.hide <$> d !! e else d !! e).
  { intros e. apply Hdoc. rewrite RevealFacts.observeElements_eq. simpl.
    apply not_elem_of_nil. }
  assert (Hattr : forall e a,
            getAttribute e a (Reveal.doc (Reveal.observeElements d t0))
            = getAttribute e a d).
  { intros e a. unfold getAttribute. rewrite Hhid.
    destruct (bool_decide _); [|done]. by destruct (d !! e). }
  assert (Hlen : length (Reveal.doc (Reveal.observeElements d t0)) = length d).
  { rewrite RevealFacts.observeElements_eq. simpl.
    clear. generalize (RevealFacts.registered d). intros l. revert d.
    induction l as [|a l IH]; intros d; simpl; [done|].
    by rewrite IH, length_alter. }
  pose proof Hitem as (n & Hn & _)%DomFacts.querySelectorAll_elem.
  assert (Hitem_hidden : Reveal.doc (Reveal.observeElements d t0) !! item
                         = Some (RevealFacts.hide n)).
  { rewrite Hhid, bool_decide_eq_true_2, Hn; [done|].
    by apply portfolio_item_registered. }
  destruct (RevealFacts.style_hide n) as (Ho & Htr & _).
  split; [unfold style_of; rewrite Hitem_hidden; exact Ho|].
  destruct (PortfolioStyles.portfolio_fade_in_styles d
              (Portfolio.State (Reveal.doc (Reveal.observeElements d t0)) [] now)
              button t item Hlen Hb Ht Hitem) as (H1 & H2 & H3).
  { simpl. rewrite Hattr.
    rewrite (matches_ext _ item d (Reveal.doc (Reveal.observeElements d t0)));
      [done|]. by rewrite Hattr. }
  split; [exact H1|]. split; [|exact H2].
  rewrite H3. unfold style_of. cbn [Portfolio.doc].
  rewrite Hitem_hidden. exact Htr.
Qed.

Lemma filter_overrides_reveal_witness :
  let st' := Portfolio.advance 10
               (Portfolio.on_click (Portfolio.on_load portfolio_page) 1
                  (Portfolio.State
                     (Reveal.doc (Reveal.observeElements portfolio_page 0))
                     [] 0)) in
  style_of 3 "opacity" (Portfolio.doc st') = Some "1"%string /\
  style_of 3 "transform" (Portfolio.doc st') = Some "translateY(30px)"%string.
Proof.
  cbv zeta.
  destruct (filter_overrides_reveal portfolio_page 0 0 10 1) with (item := 3%nat)
    as (_ & H1 & H2 & _).
  - by_compute.
  - lia.
  - by_compute.
  - reflexivity.
  - split; [exact H1|exact H2].
Defined.

End FilterAndReveal.


(* ===================================================================== *)
(** * Mobile menu *)
(* ===================================================================== *)

Module MenuFacts.
Import Dom Tree MobileMenu.

(** What a click may change in a node: the class [active] and the style
    property [transform]. *)
Definition kept (n n' : node) : Prop :=
  parentElement n' = parentElement n /\ attributes n' = attributes n /\
  textContent n' = textContent n /\ src n' = src n /\
  (forall c, c ≠ "active"%string -> has_class c n' = has_class c n) /\
  (forall p, p ≠ "transform"%string -> style n' !! p = style n !! p).

(** The document [d'] has the nodes of [d], changed at most as [kept]
    allows; outside of [classes] the class lists, and outside of
    [styles] the styles, are the same. *)
Definition stable (classes styles : elem -> Prop) (d d' : document) : Prop :=
  length d' = length d /\
  forall e n, d !! e = Some n ->
    exists n', d' !! e = Some n' /\ kept n n' /\
      (~ classes e -> classList n' = classList n) /\
      (~ styles e -> style n' = style n).

Lemma menu_kept_refl n : kept n n.
Proof. unfold kept. tauto. Qed.

Lemma menu_kept_trans n1 n2 n3 : kept n1 n2 -> kept n2 n3 -> kept n1 n3.
Proof.
  intros (A1 & A2 & A3 & A4 & A5 & A6) (B1 & B2 & B3 & B4 & B5 & B6).
  split; [congruence|]. split; [congruence|]. split; [congruence|].
  split; [congruence|]. split.
  - intros c Hc. by rewrite B5, A5.
  - intros p Hp. by rewrite B6, A6.
Qed.

Lemma stable_refl C S d : stable C S d d.
Proof.
  split; [done|]. intros e n Hn. exists n. split; [done|].
  split; [apply menu_kept_refl|done].
Qed.

Lemma stable_trans C S d1 d2 d3 :
  stable C S d1 d2 -> stable C S d2 d3 -> stable C S d1 d3.
Proof.
  intros [L1 N1] [L2 N2]. split; [congruence|]. intros e n Hn.
  destruct (N1 e n Hn) as (n2 & Hn2 & Hk2 & Hc2 & Hs2).
  destruct (N2 e n2 Hn2) as (n3 & Hn3 & Hk3 & Hc3 & Hs3).
  exists n3. split; [done|]. split; [by eapply menu_kept_trans|]. split.
  - intros Hc. by rewrite Hc3, Hc2.
  - intros Hs. by rewrite Hs3, Hs2.
Qed.

Lemma stable_alter (C S : elem -> Prop) (g : node -> node) x d :
  (forall n, kept n (g n)) ->
  (~ C x -> forall n, classList (g n) = classList n) ->
  (~ S x -> forall n, style (g n) = style n) ->
  stable C S d (alter g x d).
Proof.
  intros Hk Hc Hs. split; [apply length_alter|]. intros e n Hn.
  destruct (decide (e = x)) as [->|Hne].
  - rewrite list_lookup_alter_eq, Hn. simpl. eexists. split; [done|].
    split; [apply Hk|]. split; intros H; [by apply Hc|by apply Hs].
  - rewrite list_lookup_alter_ne by done. exists n. split; [done|].
    split; [apply menu_kept_refl|done].
Qed.

Lemma kept_class f n :
  (forall c l, c ≠ "active"%string -> token_contains c (f l) = token_contains c l) ->
  kept n (with_classList f n).
Proof.
  intros Hf. split; [done|]. split; [done|]. split; [done|]. split; [done|].
  split; [|done]. intros c Hc. unfold has_class. simpl. by apply Hf.
Qed.

Lemma kept_transform v n :
  kept n (with_style (insert "transform"%string v) n).
Proof.
  split; [done|]. split; [done|]. split; [done|]. split; [done|].
  split; [done|]. intros p Hp. simpl. by rewrite lookup_insert_ne.
Qed.

Lemma token_toggle_ne c c' l :
  c ≠ c' -> token_contains c (token_toggle c' l) = token_contains c l.
Proof.
  intros Hne. unfold token_toggle. destruct (token_contains c' l).
  - by apply DomFacts.token_contains_remove_ne.
  - unfold token_contains. apply bool_decide_ext.
    rewrite elem_of_app, list_elem_of_singleton.
    split; [intros [?|?]; [done|congruence]|by left].
Qed.

(** The tree and the hamburger are found alike in a stable document. *)
Lemma stable_parent C S d d' e :
  stable C S d d' -> parent_of e d' = parent_of e d.
Proof.
  intros [Hlen Hn]. unfold parent_of.
  destruct (d !! e) as [n|] eqn:He.
  - destruct (Hn e n He) as (n' & -> & (Hp & _) & _). done.
  - apply lookup_ge_None in He. rewrite <- Hlen in He.
    apply lookup_ge_None in He. by rewrite He.
Qed.

Lemma stable_contains C S d d' a e :
  stable C S d d' -> contains a e d' = contains a e d.
Proof.
  intros Hst. unfold contains. destruct Hst as [Hlen Hn]. rewrite Hlen.
  assert (Hp : forall x, parent_of x d' = parent_of x d)
    by (intros x; by apply (stable_parent C S), conj).
  generalize (length d). intros fuel. revert e.
  induction fuel as [|fuel IH]; intros e; simpl; [done|].
  destruct (bool_decide (e = a)); [done|]. rewrite Hp.
  destruct (parent_of e d); [apply IH|done].
Qed.

Lemma stable_hamburger C S d d' toggle :
  stable C S d d' ->
  querySelector_in toggle (has_class "hamburger") d' =
  querySelector_in toggle (has_class "hamburger") d.
Proof.
  intros Hst. unfold querySelector_in.
  rewrite (WidgetFacts.querySelectorAll_ext _ d d').
  - f_equal. apply list_filter_iff. intros e.
    by rewrite (stable_contains C S d d').
  - apply Hst.
  - intros e n n' Hn Hn'. destruct Hst as [_ Hnodes].
    destruct (Hnodes e n Hn) as (n2 & Hn2 & (_ & _ & _ & _ & Hc & _) & _).
    rewrite Hn' in Hn2. injection Hn2 as <-. by apply Hc.
Qed.

Lemma querySelector_in_lt toggle sel d h :
  querySelector_in toggle sel d = Some h -> (h < length d)%nat.
Proof.
  unfold querySelector_in. intros Hh.
  apply head_Some_elem_of in Hh.
  apply list_elem_of_filter in Hh as [_ Hh].
  by eapply DomFacts.querySelectorAll_lt.
Qed.

Lemma querySelector_lt sel d e :
  querySelector sel d = Some e -> (e < length d)%nat.
Proof.
  unfold querySelector. intros He. apply head_Some_elem_of in He.
  by eapply DomFacts.querySelectorAll_lt.
Qed.

(** The three documents a listener builds. *)
Lemma stable_toggle nv d :
  stable (λ e, e = nv) (λ _, False) d (classList_toggle nv "active" d).
Proof.
  apply stable_alter.
  - intros n. apply kept_class. intros c l Hc. by apply token_toggle_ne.
  - intros Hne. done.
  - done.
Qed.

Lemma stable_remove nv d :
  stable (λ e, e = nv) (λ _, False) d (classList_remove nv "active" d).
Proof.
  apply stable_alter.
  - intros n. apply kept_class. intros c l Hc.
    by apply DomFacts.token_contains_remove_ne.
  - intros Hne. done.
  - done.
Qed.

Lemma stable_transform h v d :
  stable (λ _, False) (λ e, e = h) d (set_style h "transform" v d).
Proof.
  apply stable_alter.
  - intros n. apply kept_transform.
  - done.
  - intros Hne. done.
Qed.

Lemma stable_weaken (C C' S S' : elem -> Prop) d d' :
  (forall e, C e -> C' e) -> (forall e, S e -> S' e) ->
  stable C S d d' -> stable C' S' d d'.
Proof.
  intros HC HS [Hlen Hn]. split; [done|]. intros e n He.
  destruct (Hn e n He) as (n' & Hn' & Hk & Hc & Hs).
  exists n'. split; [done|]. split; [done|]. split.
  - intros H. apply Hc. intros ?. by apply H, HC.
  - intros H. apply Hs. intros ?. by apply H, HS.
Qed.

Lemma active_set_style h p v nv d :
  classList_contains nv "active" (set_style h p v d)
  = classList_contains nv "active" d.
Proof.
  unfold classList_contains, set_style.
  destruct (decide (nv = h)) as [->|Hne].
  - rewrite list_lookup_alter_eq. by destruct (d !! h).
  - by rewrite list_lookup_alter_ne.
Qed.

Lemma active_toggle nv d :
  (nv < length d)%nat ->
  classList_contains nv "active" (classList_toggle nv "active" d)
  = negb (classList_contains nv "active" d).
Proof.
  intros Hlt. unfold classList_contains, classList_toggle.
  rewrite list_lookup_alter_eq.
  destruct (lookup_lt_is_Some_2 d nv Hlt) as [n ->]. simpl.
  apply DomFacts.token_contains_toggle.
Qed.

Lemma active_remove nv d :
  classList_contains nv "active" (classList_remove nv "active" d) = false.
Proof.
  unfold classList_contains, classList_remove. rewrite list_lookup_alter_eq.
  destruct (d !! nv) as [n|]; [|done]. simpl.
  apply DomFacts.token_contains_remove.
Qed.

Lemma transform_set h v d :
  (h < length d)%nat -> style_of h "transform" (set_style h "transform" v d) = Some v.
Proof.
  intros Hlt. unfold style_of, set_style. rewrite list_lookup_alter_eq.
  destruct (lookup_lt_is_Some_2 d h Hlt) as [n ->]. simpl.
  apply lookup_insert_eq.
Qed.

(** The hamburger of the toggle button, as the listeners look it up. *)
Definition hamburger_of (m : menu) (d : document) : option elem :=
  mobileMenuToggle m ≫= λ toggle, querySelector_in toggle (has_class "hamburger") d.

Definition is_nav (m : menu) (e : elem) : Prop := navMenu m = Some e.
Definition is_hamburger (m : menu) (d : document) (e : elem) : Prop :=
  hamburger_of m d = Some e.

Lemma toggle_click_result m toggle nv d :
  mobileMenuToggle m = Some toggle -> navMenu m = Some nv ->
  (nv < length d)%nat ->
  let r := fst (on_toggle_click toggle (Some nv) d) in
  stable (is_nav m) (is_hamburger m d) d r /\
  classList_contains nv "active" r = negb (classList_contains nv "active" d) /\
  forall h, querySelector_in toggle (has_class "hamburger") d = Some h ->
    style_of h "transform" r =
    Some (if classList_contains nv "active" r
          then "rotate(45deg)" else "rotate(0)")%string.
Proof.
  intros Htg Hnv Hlt. cbv zeta. unfold on_toggle_click.
  pose proof (stable_toggle nv d) as Hst.
  rewrite (stable_hamburger _ _ d _ toggle Hst).
  assert (Hst' : stable (is_nav m) (is_hamburger m d) d
                   (classList_toggle nv "active" d)).
  { eapply stable_weaken; [| |exact Hst]; [by intros e ->|done]. }
  destruct (querySelector_in toggle (has_class "hamburger") d) as [h|] eqn:Hh;
    simpl.
  - split; [|split].
    + eapply stable_trans; [exact Hst'|].
      eapply stable_weaken; [| |apply stable_transform]; [done|].
      intros e ->. unfold is_hamburger, hamburger_of. rewrite Htg. done.
    + rewrite active_set_style. by apply active_toggle.
    + intros h' [= <-]. rewrite active_set_style. apply transform_set.
      destruct Hst as [-> _]. by eapply querySelector_in_lt.
  - split; [done|]. split; [by apply active_toggle|done].
Qed.

Lemma document_click_result m toggle nv target d :
  mobileMenuToggle m = Some toggle -> navMenu m = Some nv ->
  contains toggle target d = false -> contains nv target d = false ->
  let r := fst (on_document_click toggle (Some nv) target d) in
  stable (is_nav m) (is_hamburger m d) d r /\
  classList_contains nv "active" r = false /\
  forall h, querySelector_in toggle (has_class "hamburger") d = Some h ->
    style_of h "transform" r = Some "rotate(0)"%string.
Proof.
  intros Htg Hnv Ht Hn. cbv zeta. unfold on_document_click. rewrite Ht, Hn.
  pose proof (stable_remove nv d) as Hst.
  rewrite (stable_hamburger _ _ d _ toggle Hst).
  assert (Hst' : stable (is_nav m) (is_hamburger m d) d
                   (classList_remove nv "active" d)).
  { eapply stable_weaken; [| |exact Hst]; [by intros e ->|done]. }
  destruct (querySelector_in toggle (has_class "hamburger") d) as [h|] eqn:Hh;
    simpl.
  - split; [|split].
    + eapply stable_trans; [exact Hst'|].
      eapply stable_weaken; [| |apply stable_transform]; [done|].
      intros e ->. unfold is_hamburger, hamburger_of. rewrite Htg. done.
    + rewrite active_set_style. apply active_remove.
    + intros h' [= <-]. apply transform_set.
      destruct Hst as [-> _]. by eapply querySelector_in_lt.
  - split; [done|]. split; [apply active_remove|done].
Qed.

Lemma document_click_inside toggle nav target d :
  contains toggle target d = true ->
  fst (on_document_click toggle nav target d) = d.
Proof. intros Ht. unfold on_document_click. by rewrite Ht. Qed.

(** One click, whatever the menu has. *)
Lemma click_stable m target d :
  (forall nv, navMenu m = Some nv -> (nv < length d)%nat) ->
  stable (is_nav m) (is_hamburger m d) d (click m target d).
Proof.
  intros Hlt. unfold click.
  destruct (mobileMenuToggle m) as [toggle|] eqn:Htg; [|apply stable_refl].
  destruct (navMenu m) as [nv|] eqn:Hnv.
  - specialize (Hlt nv eq_refl).
    destruct (contains toggle target d) eqn:Ht.
    + destruct (toggle_click_result m toggle nv d Htg Hnv Hlt) as (Hst & _).
      cbv zeta in Hst. rewrite document_click_inside; [done|].
      by rewrite (stable_contains _ _ d _ toggle target Hst).
    + destruct (contains nv target d) eqn:Hn.
      * unfold on_document_click. rewrite Ht, Hn. apply stable_refl.
      * by destruct (document_click_result m toggle nv target d Htg Hnv Ht Hn).
  - destruct (contains toggle target d) eqn:Ht; simpl.
    + rewrite document_click_inside by done. apply stable_refl.
    + unfold on_document_click. rewrite Ht. apply stable_refl.
Qed.

Lemma stable_hamburger_of m C S d d' :
  stable C S d d' -> hamburger_of m d' = hamburger_of m d.
Proof.
  intros Hst. unfold hamburger_of. destruct (mobileMenuToggle m); [|done].
  simpl. by apply (stable_hamburger C S).
Qed.

Lemma clicks_stable m targets : forall d,
  (forall nv, navMenu m = Some nv -> (nv < length d)%nat) ->
  stable (is_nav m) (is_hamburger m d) d (clicks m targets d).
Proof.
  induction targets as [|target targets IH]; intros d Hlt; simpl.
  - apply stable_refl.
  - pose proof (click_stable m target d Hlt) as Hst.
    eapply stable_trans; [exact Hst|].
    assert (Hh : forall e, is_hamburger m (click m target d) e
                           <-> is_hamburger m d e).
    { intros e. unfold is_hamburger.
      by rewrite (stable_hamburger_of m _ _ d _ Hst). }
    eapply stable_weaken; [| |apply IH].
    + done.
    + intros e. apply Hh.
    + intros nv Hnv. destruct Hst as [-> _]. by apply Hlt.
Qed.

Lemma on_load_lt d nv : navMenu (on_load d) = Some nv -> (nv < length d)%nat.
Proof. simpl. apply querySelector_lt. Qed.

End MenuFacts.

Section MenuClaims.
Import Dom Tree MobileMenu MenuFacts.

Lemma click_without_menu m target d :
  mobileMenuToggle m = None \/ navMenu m = None -> click m target d = d.
Proof.
  unfold click. destruct (mobileMenuToggle m) as [toggle|]; [|done].
  intros [?|Hnv]; [done|]. rewrite Hnv.
  destruct (contains toggle target d) eqn:Ht; simpl.
  - by rewrite document_click_inside.
  - unfold on_document_click. by rewrite Ht.
Qed.

(** X1: The mobile menu follows the clicks.  [d0] is the document when the
    [DOMContentLoaded] listener looks up the toggle button and the
    navigation menu; both exist.  After any series of clicks, one more
    click
    - inside the toggle button flips the class [active] of the menu,
    - outside the button and outside the menu takes the class from the
      menu,
    - inside the menu but outside the button changes nothing,
    and after a click of the first two kinds the hamburger of the
    button, if it has one, is rotated by 45 degrees exactly when the
    menu is active.  The class changes do not depend on the hamburger:
    without one, the listener throws after it has changed the class. *)
Theorem mobile_menu_click (d0 : document) (targets : list elem)
  (target toggle nv : elem) :
  mobileMenuToggle (on_load d0) = Some toggle ->
  navMenu (on_load d0) = Some nv ->
  let m := on_load d0 in
  let d := clicks m targets d0 in
  let d' := click m target d in
  (contains toggle target d0 = true ->
   classList_contains nv "active" d' = negb (classList_contains nv "active" d)) /\
  (contains toggle target d0 = false -> contains nv target d0 = false ->
   classList_contains nv "active" d' = false) /\
  (contains toggle target d0 = false -> contains nv target d0 = true ->
   d' = d) /\
  (forall h, querySelector_in toggle (has_class "hamburger") d0 = Some h ->
     contains toggle target d0 = true \/ contains nv target d0 = false ->
     style_of h "transform" d' =
     Some (if classList_contains nv "active" d'
           then "rotate(45deg)" else "rotate(0)")%string).
Proof.
  intros Htg Hnv. cbv zeta.
  pose proof (clicks_stable (on_load d0) targets d0 (on_load_lt d0)) as Hst.
  set (d := clicks (on_load d0) targets d0) in *.
  assert (Hlt : (nv < length d)%nat).
  { destruct Hst as [-> _]. by apply on_load_lt. }
  assert (Hc : forall a, contains a target d = contains a target d0)
    by (intros a; exact (stable_contains _ _ d0 d a target Hst)).
  assert (Hh : querySelector_in toggle (has_class "hamburger") d
               = querySelector_in toggle (has_class "hamburger") d0)
    by exact (stable_hamburger _ _ d0 d toggle Hst).
  assert (Hin : contains toggle target d0 = true ->
            click (on_load d0) target d
            = fst (on_toggle_click toggle (Some nv) d)).
  { intros Ht. unfold click. rewrite Htg, Hnv, Hc, Ht.
    destruct (toggle_click_result (on_load d0) toggle nv d Htg Hnv Hlt)
      as (Hst1 & _). cbv zeta in Hst1.
    apply document_click_inside.
    by rewrite (stable_contains _ _ d _ toggle target Hst1), Hc. }
  assert (Hout : contains toggle target d0 = false ->
            click (on_load d0) target d
            = fst (on_document_click toggle (Some nv) target d)).
  { intros Ht. unfold click. by rewrite Htg, Hnv, Hc, Ht. }
  split; [|split; [|split]].
  - intros Ht. rewrite (Hin Ht).
    by destruct (toggle_click_result (on_load d0) toggle nv d Htg Hnv Hlt)
      as (_ & Ha & _).
  - intros Ht Hn. rewrite (Hout Ht).
    destruct (document_click_result (on_load d0) toggle nv target d Htg Hnv)
      as (_ & Ha & _); by rewrite ?Hc.
  - intros Ht Hn. rewrite (Hout Ht). unfold on_document_click.
    by rewrite !Hc, Ht, Hn.
  - intros h Hq Hcase. rewrite <- Hh in Hq.
    destruct (contains toggle target d0) eqn:Ht.
    + rewrite (Hin eq_refl).
      destruct (toggle_click_result (on_load d0) toggle nv d Htg Hnv Hlt)
        as (_ & _ & Htr). by apply Htr.
    + destruct Hcase as [?|Hn]; [done|]. rewrite (Hout eq_refl).
      destruct (document_click_result (on_load d0) toggle nv target d Htg Hnv)
        as (_ & Ha & Htr); rewrite ?Hc; try done.
      cbv zeta in Ha, Htr. rewrite Ha. by apply Htr.
Qed.

(** X2: What the mobile menu never does.  After any series of clicks, the
    document has the same elements, each with the parent, the
    attributes, the text and the source it had; the class lists differ
    at most in the class [active] of the navigation menu, and the styles
    at most in the [transform] of the hamburger.  On a page without
    toggle button or without navigation menu no click changes
    anything. *)
Theorem mobile_menu_keeps (d0 : document) (targets : list elem) :
  let m := on_load d0 in
  let d' := clicks m targets d0 in
  length d' = length d0 /\
  (forall e n, d0 !! e = Some n ->
     exists n', d' !! e = Some n' /\
       parentElement n' = parentElement n /\ attributes n' = attributes n /\
       textContent n' = textContent n /\ src n' = src n /\
       (forall c, c ≠ "active"%string -> has_class c n' = has_class c n) /\
       (forall p, p ≠ "transform"%string -> style n' !! p = style n !! p) /\
       (navMenu m ≠ Some e -> classList n' = classList n) /\
       (hamburger_of m d0 ≠ Some e -> style n' = style n)) /\
  (mobileMenuToggle m = None \/ navMenu m = None -> d' = d0).
Proof.
  cbv zeta.
  destruct (clicks_stable (on_load d0) targets d0 (on_load_lt d0)) as [Hlen Hn].
  split; [exact Hlen|]. split.
  - intros e n He.
    destruct (Hn e n He) as (n' & Hn' & (K1 & K2 & K3 & K4 & K5 & K6) & Hc & Hs).
    exists n'. split; [done|]. split; [done|]. split; [done|]. split; [done|].
    split; [done|]. split; [done|]. split; [done|]. split; [exact Hc|exact Hs].
  - intros Hnone. clear Hlen Hn. induction targets as [|t ts IH]; [done|].
    simpl. by rewrite (click_without_menu _ _ _ Hnone).
Qed.

(** A page with a toggle button that holds a hamburger, a navigation
    menu with a link, and a main part. *)
Definition menu_page : document :=
  [ Node None ["mobile-menu-toggle"%string] ∅ ∅ (Markup "") None;
    Node (Some 0%nat) ["hamburger"%string] ∅ ∅ (Markup "") None;
    Node None ["nav-menu"%string] ∅ ∅ (Markup "") None;
    Node (Some 2%nat) ["nav-link"%string] ∅ ∅ (Markup "Home") None;
    Node None ["main"%string] ∅ ∅ (Markup "") None ].

Lemma mobile_menu_click_witness :
  let d := clicks (on_load menu_page) [1%nat] menu_page in
  let d' := click (on_load menu_page) 4 d in
  classList_contains 2 "active" d = true /\
  classList_contains 2 "active" d' = false /\
  style_of 1 "transform" d' = Some "rotate(0)"%string.
Proof.
  cbv zeta.
  destruct (mobile_menu_click menu_page [1%nat] 4 0 2 eq_refl eq_refl)
    as (_ & Hout & _ & Hham).
  split; [reflexivity|]. split.
  - apply Hout; reflexivity.
  - rewrite (Hham 1%nat eq_refl) by (by right).
    by rewrite Hout.
Defined.

Lemma mobile_menu_keeps_witness :
  length (clicks (on_load menu_page) [1; 3; 4; 0]%nat menu_page) = 5%nat.
Proof.
  destruct (mobile_menu_keeps menu_page [1; 3; 4; 0]%nat) as (Hlen & _).
  exact Hlen.
Defined.

End MenuClaims.


(* ===================================================================== *)
(** * Header shadow *)
(* ===================================================================== *)

Module HeaderFacts.
Import Number Dom Tree HeaderScroll.

Definition shadow (y : number) : string :=
  if ltb (of_Z 0) y then raised else flat.

(** What the listener does to the node of the header. *)
Definition cast (y : number) (n : node) : node :=
  with_style (insert "boxShadow"%string (shadow y)) n.

Lemma scrolls_none ys st : scrolls None ys st = st.
Proof. induction ys as [|y ys IH]; [done|]. simpl. exact IH. Qed.

Lemma on_scroll_some h y st :
  fst (on_scroll (Some h) y st) = State (alter (cast y) h (doc st)) y.
Proof. reflexivity. Qed.

Lemma cast_cast y y' n : cast y (cast y' n) = cast y n.
Proof.
  unfold cast, with_style. simpl. f_equal. apply insert_insert_eq.
Qed.

(** After a last scroll to [y], earlier positions have left no trace. *)
Lemma scrolls_last h ys : forall y st,
  scrolls (Some h) (ys ++ [y]) st = State (alter (cast y) h (doc st)) y.
Proof.
  induction ys as [|y0 ys IH]; intros y st; [done|].
  change (scrolls (Some h) ((y0 :: ys) ++ [y]) st)
    with (scrolls (Some h) (ys ++ [y]) (fst (on_scroll (Some h) y0 st))).
  rewrite IH, on_scroll_some. simpl. f_equal.
  rewrite list_alter_alter_eq. apply list_alter_ext; [|done].
  intros n _. apply cast_cast.
Qed.

End HeaderFacts.

(** X11: The header shadow follows the last scroll position, and nothing
    else.  After any series of scroll events that ends at the position
    [y], on a page whose first element of class [main-header] is [h]:
    [lastScroll] is [y]; the [boxShadow] of the header is the raised
    shadow if [y] is above 0 and the flat one otherwise, whatever the
    earlier positions were; the header differs from the markup in that
    style property only, and no other element differs at all.  On a
    page without such an element every scroll event ends in an exception
    before [lastScroll] is assigned: the state stays as loaded. *)
Theorem header_shadow_follows_scroll (d : Dom.document)
  (ys : list Number.number) (y : Number.number) :
  let st := HeaderScroll.scrolls (HeaderScroll.header d) (ys ++ [y])
              (HeaderScroll.load d) in
  (HeaderScroll.header d = None -> st = HeaderScroll.load d) /\
  (forall h, HeaderScroll.header d = Some h ->
     HeaderScroll.lastScroll st = y /\
     Dom.style_of h "boxShadow" (HeaderScroll.doc st)
       = Some (if Number.ltb (Number.of_Z 0) y
               then HeaderScroll.raised else HeaderScroll.flat) /\
     (forall p, p ≠ "boxShadow"%string ->
        Dom.style_of h p (HeaderScroll.doc st) = Dom.style_of h p d) /\
     (forall n, d !! h = Some n ->
        exists n', HeaderScroll.doc st !! h = Some n' /\
          Dom.parentElement n' = Dom.parentElement n /\
          Dom.classList n' = Dom.classList n /\
          Dom.attributes n' = Dom.attributes n /\
          Dom.textContent n' = Dom.textContent n /\
          Dom.src n' = Dom.src n) /\
     (forall x, x ≠ h -> HeaderScroll.doc st !! x = d !! x)).
Proof.
  cbv zeta. split.
  - intros ->. apply HeaderFacts.scrolls_none.
  - intros h Hh. rewrite Hh, HeaderFacts.scrolls_last. simpl.
    assert (Hlt : (h < length d)%nat)
      by exact (MenuFacts.querySelector_lt _ d h Hh).
    split; [done|]. split; [|split; [|split]].
    + unfold Dom.style_of. rewrite list_lookup_alter_eq.
      destruct (lookup_lt_is_Some_2 d h Hlt) as [n ->]. simpl.
      apply lookup_insert_eq.
    + intros p Hp. unfold Dom.style_of. rewrite list_lookup_alter_eq.
      destruct (d !! h) as [n|]; [|done]. simpl. by rewrite lookup_insert_ne.
    + intros n Hn. rewrite list_lookup_alter_eq, Hn. simpl. eexists.
      split; [done|]. done.
    + intros x Hx. by rewrite list_lookup_alter_ne.
Qed.

(** A page with a header. *)
Definition header_page : Dom.document :=
  [ Dom.Node None ["main-header"%string] ∅ ∅ (Dom.Markup "") None;
    Dom.Node None ["main"%string] ∅ ∅ (Dom.Markup "") None ].

Lemma header_shadow_follows_scroll_witness :
  let st := HeaderScroll.scrolls (HeaderScroll.header header_page)
              [Number.of_Z 40; Number.of_Z 300; Number.of_Z 0]
              (HeaderScroll.load header_page) in
  Dom.style_of 0 "boxShadow" (HeaderScroll.doc st) = Some HeaderScroll.flat.
Proof.
  cbv zeta.
  destruct (header_shadow_follows_scroll header_page
              [Number.of_Z 40; Number.of_Z 300] (Number.of_Z 0))
    as [_ Hsome].
  destruct (Hsome 0%nat eq_refl) as (_ & Hshadow & _).
  exact Hshadow.
Defined.


(* ===================================================================== *)
(** * Newsletter form *)
(* ===================================================================== *)

Module NewsletterFacts.
Import Dom Tree Newsletter.

Lemma sort_one (x : timer) : merge_sort earlier [x] = [x].
Proof. reflexivity. Qed.

Lemma sort_two (x y : timer) :
  due x <= due y -> merge_sort earlier [x; y] = [x; y].
Proof.
  intros H. unfold merge_sort. simpl. unfold merge_sort_aux. simpl.
  destruct (decide_rel earlier x y) as [|Hn]; [reflexivity|]. by destruct Hn.
Qed.

Lemma filter_due_all t (l : list timer) :
  (forall x, x ∈ l -> due x <= t) ->
  filter (λ x, is_due t x = true) l = l /\
  filter (λ x, is_due t x = false) l = [].
Proof.
  intros Hall. induction l as [|x l IH]; [done|].
  assert (Hx : is_due t x = true).
  { unfold is_due. apply Z.leb_le, Hall. by left. }
  destruct IH as [IH1 IH2]; [intros y Hy; apply Hall; by right|].
  rewrite filter_cons_True, filter_cons_False by (done || congruence).
  by rewrite IH1, IH2.
Qed.

Lemma filter_due_none t (l : list timer) :
  (forall x, x ∈ l -> t < due x) ->
  filter (λ x, is_due t x = true) l = [] /\
  filter (λ x, is_due t x = false) l = l.
Proof.
  intros Hall. induction l as [|x l IH]; [done|].
  assert (Hx : is_due t x = false).
  { unfold is_due. apply Z.leb_gt, Hall. by left. }
  destruct IH as [IH1 IH2]; [intros y Hy; apply Hall; by right|].
  rewrite filter_cons_False, filter_cons_True by (done || congruence).
  by rewrite IH1, IH2.
Qed.

(** A submit on a form that has both controls. *)
Lemma on_submit_eq f st input button original :
  emailInput f = Some input -> submitButton f = Some button ->
  text_of button (doc st) = Some original ->
  on_submit f st =
  (State (set_style button "background" "#10b981"
            (set_textContent button (Markup subscribed) (doc st)))
         (values st)
         (timers st ++ [Timer (now st + 3000) original])
         (now st) (console st ++ [value_of input st]),
   Returned).
Proof.
  intros Hi Hb Ht. unfold on_submit. rewrite Hi, Hb. simpl. by rewrite Ht.
Qed.

Lemma reset_eq f x st input button :
  emailInput f = Some input -> submitButton f = Some button ->
  reset f x st =
  State (clear_style button "background"
           (set_textContent button (originalText x) (doc st)))
        (<[input := ""%string]> (values st))
        (timers st) (now st) (console st).
Proof. intros Hi Hb. unfold reset. by rewrite Hi, Hb. Qed.

(** Reading the button. *)
Lemma text_after_submit button t (d : document) :
  is_Some (d !! button) ->
  text_of button (set_style button "background" "#10b981"
                    (set_textContent button t d)) = Some t.
Proof.
  intros [n Hn]. unfold text_of, set_style, set_textContent.
  by rewrite !list_lookup_alter_eq, Hn.
Qed.

Lemma background_after_submit button t (d : document) :
  is_Some (d !! button) ->
  style_of button "background"
    (set_style button "background" "#10b981" (set_textContent button t d))
  = Some "#10b981"%string.
Proof.
  intros [n Hn]. unfold style_of, set_style, set_textContent.
  rewrite !list_lookup_alter_eq, Hn. simpl. apply lookup_insert_eq.
Qed.

Lemma text_after_reset button t (d : document) :
  is_Some (d !! button) ->
  text_of button (clear_style button "background" (set_textContent button t d))
  = Some t.
Proof.
  intros [n Hn]. unfold text_of, clear_style, set_textContent.
  by rewrite !list_lookup_alter_eq, Hn.
Qed.

Lemma background_after_reset button t (d : document) :
  style_of button "background"
    (clear_style button "background" (set_textContent button t d)) = None.
Proof.
  unfold style_of, clear_style, set_textContent.
  rewrite !list_lookup_alter_eq. destruct (d !! button) as [n|]; [|done].
  simpl. apply lookup_delete_eq.
Qed.

Lemma is_Some_set (g : node -> node) x e (d : document) :
  is_Some (d !! e) -> is_Some (alter g x d !! e).
Proof.
  intros Hs. apply lookup_lt_is_Some. rewrite length_alter.
  by apply lookup_lt_is_Some.
Qed.

End NewsletterFacts.

Section NewsletterClaims.
Import Dom Tree Newsletter NewsletterFacts.

(** X14: One newsletter submit.  On a form that has the e-mail input and the
    submit button, with no reset pending: the submit logs the address
    typed into the input, and the button shows the confirmation text on
    a green background; three seconds later the button shows its
    original text again, the background is removed and the input is
    empty, and no timer is left. *)
Theorem newsletter_submit_resets f st input button original t :
  emailInput f = Some input -> submitButton f = Some button ->
  text_of button (doc st) = Some original ->
  timers st = [] -> now st + 3000 <= t ->
  let st1 := fst (on_submit f st) in
  let st2 := advance f t st1 in
  console st1 = console st ++ [value_of input st] /\
  text_of button (doc st1) = Some (Markup subscribed) /\
  style_of button "background" (doc st1) = Some "#10b981"%string /\
  text_of button (doc st2) = Some original /\
  style_of button "background" (doc st2) = None /\
  value_of input st2 = ""%string /\
  timers st2 = [].
Proof.
  intros Hi Hb Ht Htm Hdue. cbv zeta.
  assert (Hsome : is_Some (doc st !! button)).
  { unfold text_of in Ht. destruct (doc st !! button); [by eexists|done]. }
  rewrite (on_submit_eq f st input button original) by done. simpl.
  split; [done|]. split; [by apply text_after_submit|].
  split; [by apply background_after_submit|].
  unfold advance. simpl. rewrite Htm. simpl.
  destruct (filter_due_all t [Timer (now st + 3000) original]) as [-> ->].
  { intros x ->%list_elem_of_singleton. done. }
  rewrite sort_one. simpl.
  rewrite (reset_eq f _ _ input button) by done. simpl.
  split; [|split; [|split; [|done]]].
  - apply text_after_reset. by do 2 apply is_Some_set.
  - apply background_after_reset.
  - unfold value_of. simpl. by rewrite lookup_insert_eq.
Qed.

(** X15: Two newsletter submits within three seconds.  If the form is
    submitted a second time while the reset of the first submit is
    pending, the second submit takes the confirmation text for the
    original text of the button.  Once both resets have run, the button
    shows the confirmation text, not its original text, on no
    background; the input is empty and no timer is left.  Both
    addresses have been logged. *)
Theorem newsletter_double_submit f st input button original t1 t :
  emailInput f = Some input -> submitButton f = Some button ->
  text_of button (doc st) = Some original ->
  timers st = [] ->
  now st < t1 -> t1 < now st + 3000 -> t1 + 3000 <= t ->
  let st1 := advance f t1 (fst (on_submit f st)) in
  let st2 := fst (on_submit f st1) in
  let st3 := advance f t st2 in
  text_of button (doc st1) = Some (Markup subscribed) /\
  timers st2 = [Timer (now st + 3000) original;
                Timer (t1 + 3000) (Markup subscribed)] /\
  text_of button (doc st3) = Some (Markup subscribed) /\
  style_of button "background" (doc st3) = None /\
  value_of input st3 = ""%string /\
  timers st3 = [] /\
  console st3 = console st ++ [value_of input st; value_of input st].
Proof.
  intros Hi Hb Ht Htm Hlt1 Hlt2 Hdue. cbv zeta.
  assert (Hsome : is_Some (doc st !! button)).
  { unfold text_of in Ht. destruct (doc st !! button); [by eexists|done]. }
  assert (Hst1 : advance f t1 (fst (on_submit f st)) =
            State (set_style button "background" "#10b981"
                     (set_textContent button (Markup subscribed) (doc st)))
                  (values st) [Timer (now st + 3000) original] t1
                  (console st ++ [value_of input st])).
  { rewrite (on_submit_eq f st input button original) by done. simpl.
    unfold advance. simpl. rewrite Htm. simpl.
    destruct (filter_due_none t1 [Timer (now st + 3000) original]) as [-> ->].
    { intros x ->%list_elem_of_singleton. done. }
    simpl. by replace (Z.max (now st) t1) with t1 by lia. }
  rewrite Hst1. simpl.
  assert (Htext1 : text_of button
            (set_style button "background" "#10b981"
               (set_textContent button (Markup subscribed) (doc st)))
            = Some (Markup subscribed)) by by apply text_after_submit.
  split; [exact Htext1|].
  rewrite (on_submit_eq f _ input button (Markup subscribed))
    by (done || exact Htext1).
  simpl. split; [done|].
  unfold advance. simpl.
  destruct (filter_due_all t [Timer (now st + 3000) original;
                              Timer (t1 + 3000) (Markup subscribed)])
    as [-> ->].
  { intros x [Hx|Hx]%elem_of_cons; [|apply list_elem_of_singleton in Hx];
      subst x; simpl; lia. }
  rewrite sort_two by (simpl; lia). simpl.
  rewrite !(reset_eq f _ _ input button) by done. simpl.
  split; [|split; [|split; [|split; [done|]]]].
  - apply text_after_reset. by do 6 apply is_Some_set.
  - apply background_after_reset.
  - unfold value_of. simpl. by rewrite lookup_insert_eq.
  - rewrite <- app_assoc. done.
Qed.

(** A page with a newsletter form: the input and the button. *)
Definition newsletter_page : document :=
  [ Node None ["newsletter-form"%string] ∅ ∅ (Markup "") None;
    Node (Some 0%nat) [] {[ "type"%string := "email"%string ]} ∅ (Markup "") None;
    Node (Some 0%nat) [] {[ "type"%string := "submit"%string ]} ∅
      (Markup "Subscribe") None ].

Definition newsletter_form : form := Form (Some 1%nat) (Some 2%nat).

Definition newsletter_start : state :=
  State newsletter_page {[ 1%nat := "ada@example.org"%string ]} [] 0 [].

Lemma newsletter_submit_resets_witness :
  let st2 := advance newsletter_form 3000
               (fst (on_submit newsletter_form newsletter_start)) in
  text_of 2 (doc st2) = Some (Markup "Subscribe") /\
  value_of 1 st2 = ""%string.
Proof.
  cbv zeta.
  destruct (newsletter_submit_resets newsletter_form newsletter_start
              1 2 (Markup "Subscribe") 3000)
    as (_ & _ & _ & Htext & _ & Hvalue & _); try reflexivity.
  split; [exact Htext|exact Hvalue].
Defined.

Lemma newsletter_double_submit_witness :
  let st1 := advance newsletter_form 1000
               (fst (on_submit newsletter_form newsletter_start)) in
  let st3 := advance newsletter_form 4000
               (fst (on_submit newsletter_form st1)) in
  text_of 2 (doc st3) = Some (Markup subscribed) /\ timers st3 = [].
Proof.
  cbv zeta.
  destruct (newsletter_double_submit newsletter_form newsletter_start
              1 2 (Markup "Subscribe") 1000 4000)
    as (_ & _ & Htext & _ & _ & Htimers & _);
    try reflexivity; try (simpl; lia).
  split; [exact Htext|exact Htimers].
Defined.

End NewsletterClaims.


(* ===================================================================== *)
(** * Tooltips *)
(* ===================================================================== *)

Module TooltipFacts.
Import Number Dom Tooltips.

#[export] Instance action_eq_dec : EqDecision action.
Proof. solve_decision. Defined.

(** No timer is pending for tooltip [k], and it is not in the body. *)
Definition quiet (k : nat) (st : state) : Prop :=
  (k ∉ body st) /\
  forall x, x ∈ timers st ->
    timer_action x ≠ Show k /\ timer_action x ≠ Remove k.

Lemma opacity_with_opacity v k j (ts : list tooltip) :
  (alter (with_opacity v) j ts !! k ≫= λ t, tooltip_style t !! "opacity"%string) =
  if bool_decide (k = j) then (λ _, v) <$> ts !! k
  else ts !! k ≫= λ t, tooltip_style t !! "opacity"%string.
Proof.
  case_bool_decide as H.
  - subst. rewrite list_lookup_alter_eq. destruct (ts !! j) as [t|]; [|done].
    simpl. by rewrite lookup_insert_eq.
  - by rewrite list_lookup_alter_ne.
Qed.

Lemma run_body (l : list timer) : forall st k,
  k ∈ body (foldl (λ st x, run x st) st l) <->
  k ∈ body st /\ Remove k ∉ timer_action <$> l.
Proof.
  induction l as [|x l IH]; intros st k; simpl.
  - split; [|by intros [? _]]. intros H. split; [done|apply not_elem_of_nil].
  - rewrite IH, not_elem_of_cons. unfold run.
    destruct (timer_action x) as [j|j] eqn:E; simpl.
    + split; intros [H1 H2]; (split; [done|]); [by split|by destruct H2].
    + unfold remove. rewrite list_elem_of_filter. split.
      * intros [[Hne Hin] Hn]. split; [done|]. split; [congruence|done].
      * intros [Hin [Hne Hn]]. split; [|done]. split; [congruence|done].
Qed.

Lemma run_tooltips_length (l : list timer) : forall st,
  length (tooltips (foldl (λ st x, run x st) st l)) = length (tooltips st).
Proof.
  induction l as [|x l IH]; intros st; simpl; [done|].
  rewrite IH. unfold run. destruct (timer_action x); simpl; [|done].
  apply length_alter.
Qed.

Lemma run_opacity (l : list timer) : forall st k,
  opacity_of k (foldl (λ st x, run x st) st l) =
  if bool_decide (Show k ∈ timer_action <$> l)
  then (λ _, "1"%string) <$> tooltips st !! k
  else opacity_of k st.
Proof.
  induction l as [|x l IH]; intros st k.
  - rewrite bool_decide_eq_false_2; [done|apply not_elem_of_nil].
  - change (foldl (λ st x, run x st) st (x :: l))
      with (foldl (λ st x, run x st) (run x st) l).
    rewrite IH, fmap_cons. unfold run, opacity_of.
    destruct (timer_action x) as [j|j] eqn:E; cbn [tooltips].
    + rewrite opacity_with_opacity.
      destruct (decide (Show k ∈ timer_action <$> l)) as [Hin|Hin].
      * rewrite (bool_decide_eq_true_2 _ Hin).
        rewrite (bool_decide_eq_true_2 (Show k ∈ Show j :: _)) by by right.
        destruct (decide (k = j)) as [->|Hne].
        -- rewrite list_lookup_alter_eq. by destruct (tooltips st !! j).
        -- by rewrite list_lookup_alter_ne.
      * rewrite (bool_decide_eq_false_2 _ Hin).
        destruct (decide (k = j)) as [->|Hne].
        -- rewrite (bool_decide_eq_true_2 (j = j)) by done.
           by rewrite (bool_decide_eq_true_2 (Show j ∈ Show j :: _)) by by left.
        -- rewrite (bool_decide_eq_false_2 (k = j)) by done.
           rewrite (bool_decide_eq_false_2 (Show k ∈ Show j :: _)); [done|].
           intros [[= ?]|?]%elem_of_cons; done.
    + rewrite (bool_decide_ext (Show k ∈ Remove j :: (timer_action <$> l))
                 (Show k ∈ timer_action <$> l)); [done|].
      rewrite elem_of_cons. split; [by intros [?|?]|by right].
Qed.

Lemma fired_actions t (l : list timer) a :
  a ∈ timer_action <$> merge_sort earlier (filter (λ x, is_due t x = true) l) <->
  exists x, x ∈ l /\ due x <= t /\ timer_action x = a.
Proof.
  rewrite merge_sort_Permutation, list_elem_of_fmap. split.
  - intros (x & -> & [Hd Hx]%list_elem_of_filter). exists x.
    unfold is_due in Hd. apply Z.leb_le in Hd. done.
  - intros (x & Hx & Hd & <-). exists x. split; [done|].
    apply list_elem_of_filter. split; [|done]. unfold is_due. by apply Z.leb_le.
Qed.

Lemma advance_body t st k :
  k ∈ body (advance t st) <->
  k ∈ body st /\
  ~ exists x, x ∈ timers st /\ due x <= t /\ timer_action x = Remove k.
Proof. unfold advance. simpl. by rewrite run_body, fired_actions. Qed.

Lemma advance_opacity_shown t st k x :
  (k < length (tooltips st))%nat ->
  x ∈ timers st -> due x <= t -> timer_action x = Show k ->
  opacity_of k (advance t st) = Some "1"%string.
Proof.
  intros Hk Hx Hd Ha.
  change (opacity_of k (advance t st)) with
    (opacity_of k (foldl (λ st x, run x st) st
       (merge_sort earlier (filter (λ x, is_due t x = true) (timers st))))).
  rewrite run_opacity, bool_decide_eq_true_2.
  - by destruct (lookup_lt_is_Some_2 _ _ Hk) as [n ->].
  - apply fired_actions. by exists x.
Qed.

Lemma advance_opacity_kept t st k :
  (forall x, x ∈ timers st -> due x <= t -> timer_action x ≠ Show k) ->
  opacity_of k (advance t st) = opacity_of k st.
Proof.
  intros Hno.
  change (opacity_of k (advance t st)) with
    (opacity_of k (foldl (λ st x, run x st) st
       (merge_sort earlier (filter (λ x, is_due t x = true) (timers st))))).
  rewrite run_opacity, bool_decide_eq_false_2; [done|].
  intros (x & Hx & Hd & Ha)%fired_actions. by apply (Hno x).
Qed.

Lemma advance_timers t st x :
  x ∈ timers (advance t st) <-> x ∈ timers st /\ t < due x.
Proof.
  unfold advance. simpl. rewrite list_elem_of_filter. unfold is_due.
  rewrite Z.leb_gt. tauto.
Qed.

Lemma advance_length t st :
  length (tooltips (advance t st)) = length (tooltips st).
Proof. unfold advance. simpl. apply run_tooltips_length. Qed.

Lemma mouseenter_eq k l st :
  (k < length (tooltips st))%nat ->
  handle (MouseEnter k l) st = on_mouseenter k l st.
Proof. intros Hk. simpl. by rewrite bool_decide_eq_true_2. Qed.

Lemma mouseleave_eq k st :
  (k < length (tooltips st))%nat ->
  handle (MouseLeave k) st = on_mouseleave k st.
Proof. intros Hk. simpl. by rewrite bool_decide_eq_true_2. Qed.

End TooltipFacts.

Section TooltipClaims.
Import Number Dom Tooltips TooltipFacts.

(** X17: A tooltip can vanish under the pointer.  Let the removal of tooltip
    [k] be pending, as it is for 300 ms after the pointer has left the
    element, and let the pointer enter the element again.  The tooltip
    is appended to the body at once; but when the clock reaches the time
    of the pending removal, the tooltip is taken out of the body,
    although the pointer is on the element, and it stays out whatever
    timers run later.  If ten milliseconds have passed since the pointer
    entered, the tooltip that is taken out has opacity 1. *)
Theorem tooltip_removed_under_pointer st k l x t :
  (k < length (tooltips st))%nat ->
  x ∈ timers st -> timer_action x = Remove k -> due x <= t ->
  let entered := handle (MouseEnter k l) st in
  let s := handle (Tick t) entered in
  k ∈ body entered /\
  (k ∉ body s) /\
  (forall t', k ∉ body (handle (Tick t') s)) /\
  (now st + 10 <= t -> opacity_of k s = Some "1"%string).
Proof.
  intros Hk Hx Ha Hd. cbv zeta. rewrite mouseenter_eq by done.
  assert (Hout : k ∉ body (handle (Tick t) (on_mouseenter k l st))).
  { cbn [handle]. rewrite advance_body. intros [_ Hno]. apply Hno. exists x.
    split; [|done]. simpl. apply elem_of_app. by left. }
  split; [|split; [done|split]].
  - simpl. unfold appendChild. apply elem_of_app. right. by left.
  - intros t'. cbn [handle]. rewrite advance_body. intros [Hin _]. by apply Hout.
  - intros Ht. cbn [handle].
    apply (advance_opacity_shown t _ k (Timer (now st + 10) (Show k))).
    + simpl. by rewrite length_alter.
    + simpl. apply elem_of_app. right. by left.
    + done.
    + done.
Qed.

(** X16: An undisturbed hover.  Let tooltip [k] be out of the body with no
    timer of its own pending.  The pointer enters the element; ten
    milliseconds or more later the tooltip is in the body with opacity
    1.  The pointer leaves: the opacity is 0 at once, and the tooltip is
    still in the body.  300 ms or more later the tooltip is out of the
    body again and no timer of its own is pending, as before the
    hover; timers of other tooltips that run meanwhile make no
    difference. *)
Theorem tooltip_hover_cycle st k l t1 t2 :
  (k < length (tooltips st))%nat -> quiet k st ->
  now st + 10 <= t1 -> t1 + 300 <= t2 ->
  let s1 := handle (MouseEnter k l) st in
  let s2 := handle (Tick t1) s1 in
  let s3 := handle (MouseLeave k) s2 in
  let s4 := handle (Tick t2) s3 in
  (k ∈ body s2 /\ opacity_of k s2 = Some "1"%string) /\
  (k ∈ body s3 /\ opacity_of k s3 = Some "0"%string) /\
  (quiet k s4 /\ opacity_of k s4 = Some "0"%string).
Proof.
  intros Hk [Hbody Hquiet] Ht1 Ht2. cbv zeta. rewrite mouseenter_eq by done.
  set (s1 := on_mouseenter k l st).
  assert (Hk1 : (k < length (tooltips s1))%nat)
    by (simpl; by rewrite length_alter).
  assert (Ht_s1 : forall x, x ∈ timers s1 ->
            x ∈ timers st \/ x = Timer (now st + 10) (Show k)).
  { intros x [?|Hx]%elem_of_app; [by left|].
    apply list_elem_of_singleton in Hx. by right. }
  set (s2 := handle (Tick t1) s1).
  assert (Hk2 : (k < length (tooltips s2))%nat)
    by (unfold s2; cbn [handle]; by rewrite advance_length).
  assert (Hbody2 : k ∈ body s2).
  { unfold s2. cbn [handle]. apply advance_body. split.
    - simpl. unfold appendChild. apply elem_of_app. right. by left.
    - intros (x & Hx & _ & Ha). destruct (Ht_s1 x Hx) as [Hold| ->].
      + by destruct (Hquiet x Hold).
      + done. }
  assert (Hop2 : opacity_of k s2 = Some "1"%string).
  { unfold s2. cbn [handle].
    apply (advance_opacity_shown t1 s1 k (Timer (now st + 10) (Show k)));
      try done.
    simpl. apply elem_of_app. right. by left. }
  assert (Hquiet2 : forall x, x ∈ timers s2 ->
            timer_action x ≠ Show k /\ timer_action x ≠ Remove k).
  { intros x [Hx Hd]%advance_timers. destruct (Ht_s1 x Hx) as [Hold| ->].
    - by apply Hquiet.
    - simpl in Hd. lia. }
  assert (Hnow2 : now s2 = t1) by (unfold s2; simpl; lia).
  rewrite mouseleave_eq by done.
  set (s3 := on_mouseleave k s2).
  assert (Hop3 : opacity_of k s3 = Some "0"%string).
  { unfold s3, opacity_of, on_mouseleave. cbn [tooltips].
    rewrite list_lookup_alter_eq.
    destruct (lookup_lt_is_Some_2 _ _ Hk2) as [n ->]. simpl.
    by rewrite lookup_insert_eq. }
  assert (Ht_s3 : forall x, x ∈ timers s3 ->
            x ∈ timers s2 \/ x = Timer (t1 + 300) (Remove k)).
  { intros x [?|Hx]%elem_of_app; [by left|right].
    apply list_elem_of_singleton in Hx. by rewrite <- Hnow2. }
  split; [done|]. split; [done|]. cbn [handle]. split; [split|].
  - rewrite advance_body. intros [_ Hno]. apply Hno.
    exists (Timer (t1 + 300) (Remove k)). split; [|done].
    unfold s3, on_mouseleave. cbn [timers].
    apply elem_of_app. right. rewrite Hnow2. by left.
  - intros x [Hx Hd]%advance_timers. destruct (Ht_s3 x Hx) as [Hold| ->].
    + by apply Hquiet2.
    + simpl in Hd. lia.
  - rewrite advance_opacity_kept; [done|].
    intros x Hx _. destruct (Ht_s3 x Hx) as [Hold| ->].
    + by apply Hquiet2.
    + done.
Qed.

(** A page with one element that has a tooltip. *)
Definition tooltip_page : document :=
  [ Node None [] {[ "data-tooltip"%string := "Opens the menu"%string ]} ∅
      (Markup "Menu") None ].

Definition pointer_layout : layout :=
  Layout (of_Z 100) (of_Z 200) (of_Z 80) (of_Z 120) (of_Z 30).

Lemma tooltip_removed_under_pointer_witness :
  let st := handle (MouseLeave 0)
              (handle (Tick 50)
                 (handle (MouseEnter 0 pointer_layout)
                    (addTooltips tooltip_page 0))) in
  let s := handle (Tick 350)
             (handle (MouseEnter 0 pointer_layout) (handle (Tick 200) st)) in
  body s = [] /\ opacity_of 0 s = Some "1"%string.
Proof.
  cbv zeta.
  destruct (tooltip_removed_under_pointer
              (handle (Tick 200)
                 (handle (MouseLeave 0)
                    (handle (Tick 50)
                       (handle (MouseEnter 0 pointer_layout)
                          (addTooltips tooltip_page 0)))))
              0 pointer_layout (Timer 350 (Remove 0)) 350)
    as (_ & _ & _ & Hop).
  - vm_compute. lia.
  - vm_compute. by left.
  - reflexivity.
  - simpl. lia.
  - split; [reflexivity|]. apply Hop. vm_compute. discriminate.
Defined.

Lemma tooltip_hover_cycle_witness :
  let s4 := handle (Tick 400)
              (handle (MouseLeave 0)
                 (handle (Tick 50)
                    (handle (MouseEnter 0 pointer_layout)
                       (addTooltips tooltip_page 0)))) in
  quiet 0 s4 /\ opacity_of 0 s4 = Some "0"%string.
Proof.
  cbv zeta.
  destruct (tooltip_hover_cycle (addTooltips tooltip_page 0) 0
              pointer_layout 50 400) as (_ & _ & Hend).
  - vm_compute. lia.
  - split; [apply not_elem_of_nil|]. intros x Hx.
    by apply elem_of_nil in Hx.
  - simpl. lia.
  - lia.
  - exact Hend.
Defined.

End TooltipClaims.
